(** * Maze generators of [maze_dataset.generation.generators]

    A shallow embedding of the lattice-maze generation engine
    ([gen_dfs], [gen_wilson], [gen_percolation], [gen_dfs_percolation] and
    [_random_start_coord]) together with the properties claimed of it.

    Conventions of the embedding:
    - Python integers are [Z]; coordinates and grid shapes are pairs of [Z].
    - numpy arrays are nested lists; indexing follows numpy (a negative index
      counts from the end, an index out of range raises [IndexError]).
    - Python sets of coordinate tuples are [gset (Z * Z)]; the metadata
      dictionary is a [gmap string meta_value].
    - The two ambient random sources ([random] and [np.random]) are explicit
      streams of raw draws threaded through every generator.
    - Exceptions are the [Raise] outcome; loops that the source does not
      bound take a [fuel] argument and yield [OutOfFuel] when it runs out. *)

From Stdlib Require Import ZArith QArith Lia.
From stdpp Require Import base numbers option list gmap sets strings.

Local Open Scope Z_scope.

(* ===================================================================== *)
(** ** Outcomes, exceptions and randomness *)
(* ===================================================================== *)

Inductive exn := AssertionError | ValueError | IndexError.

Inductive outcome (A : Type) :=
  | Ok (a : A)
  | Raise (e : exn)
  | OutOfFuel.
Arguments Ok {A} a.
Arguments Raise {A} e.
Arguments OutOfFuel {A}.

(** The process-wide random sources: [py_random] feeds the [random] module
    ([random.randint], [random.choice]), [np_random] feeds [np.random]
    ([np.random.randint], [np.random.rand]).  A stream is a function from
    positions to raw draws; drawing reads position 0 and shifts. *)
Record rng := { py_random : nat -> nat; np_random : nat -> nat }.

Definition shift (s : nat -> nat) : nat -> nat := fun i => s (S i).

Definition M (A : Type) : Type := rng -> outcome (A * rng).

Definition ret {A} (a : A) : M A := fun g => Ok (a, g).
Definition raise {A} (e : exn) : M A := fun _ => Raise e.
Definition bind {A B} (m : M A) (k : A -> M B) : M B :=
  fun g => match m g with
           | Ok (a, g') => k a g'
           | Raise e => Raise e
           | OutOfFuel => OutOfFuel
           end.
Definition out_of_fuel {A} : M A := fun _ => OutOfFuel.

Notation "'let*' x ':=' m 'in' k" := (bind m (fun x => k))
  (at level 10, x pattern, m at level 100, k at level 200).

(** An index or key lookup that raises when it fails. *)
Definition or_raise {A} (e : exn) (o : option A) : M A :=
  match o with Some a => ret a | None => raise e end.

Definition py_draw : M nat :=
  fun g => Ok (py_random g 0%nat, {| py_random := shift (py_random g); np_random := np_random g |}).
Definition np_draw : M nat :=
  fun g => Ok (np_random g 0%nat, {| py_random := py_random g; np_random := shift (np_random g) |}).

(** [random.randint(a, b)]: an integer in the closed range [a..b];
    [ValueError] on an empty range. *)
Definition random_randint (a b : Z) : M Z :=
  if b <? a then raise ValueError
  else let* d := py_draw in ret (a + Z.of_nat d mod (b - a + 1)).

(** [random.choice(seq)]: [IndexError] on an empty sequence. *)
Definition random_choice {A} (l : list A) : M A :=
  match l with
  | [] => raise IndexError
  | x :: _ => let* d := py_draw in ret (nth (d mod length l)%nat l x)
  end.

(** [np.random.randint(low, high)]: an integer in the half-open range
    [low..high-1]; [ValueError] when [low >= high]. *)
Definition np_random_randint (low high : Z) : M Z :=
  if high <=? low then raise ValueError
  else let* d := np_draw in ret (low + Z.of_nat d mod (high - low)).

(** One sample of [np.random.rand]: a double in the half-open unit interval,
    with 53 bits of resolution. *)
Definition np_random_sample : M Q :=
  let* d := np_draw in ret (Z.of_nat d mod 2 ^ 53 # 2 ^ 53)%Q.

Fixpoint replicateM {A} (n : nat) (m : M A) : M (list A) :=
  match n with
  | O => ret []
  | S n' => let* x := m in let* xs := replicateM n' m in ret (x :: xs)
  end.

(* ===================================================================== *)
(** ** Coordinates and numpy arrays *)
(* ===================================================================== *)

Definition Coord : Type := Z * Z.

Definition coord_add (a b : Coord) : Coord := (a.1 + b.1, a.2 + b.2).

(** Modelled from the spec: the constant [NEIGHBORS_MASK] of
    [maze_dataset.maze.lattice_maze] is not part of the sources at hand; the
    spec calls it the fixed 4-neighbor offset set. *)
Definition NEIGHBORS_MASK : list Coord := [(0, 1); (0, -1); (1, 0); (-1, 0)].

(** numpy index normalisation along an axis of length [n]. *)
Definition np_index (n : nat) (i : Z) : option nat :=
  if (0 <=? i) && (i <? Z.of_nat n) then Some (Z.to_nat i)
  else if (- Z.of_nat n <=? i) && (i <? 0) then Some (Z.to_nat (i + Z.of_nat n))
  else None.

Abbreviation array2 A := (list (list A)).
Abbreviation array3 A := (list (list (list A))).

(** [a[r, c]] and [a[r, c] = v] on a 2-axis array. *)
Definition get2 {A} (a : array2 A) (c : Coord) : option A :=
  i ← np_index (length a) c.1;
  row ← a !! i;
  j ← np_index (length row) c.2;
  row !! j.

Definition set2 {A} (a : array2 A) (c : Coord) (v : A) : option (array2 A) :=
  i ← np_index (length a) c.1;
  row ← a !! i;
  j ← np_index (length row) c.2;
  Some (<[i := <[j := v]> row]> a).

(** [a[d, r, c] = v] on a 3-axis array. *)
Definition set3 {A} (a : array3 A) (d : Z) (c : Coord) (v : A) : option (array3 A) :=
  k ← np_index (length a) d;
  plane ← a !! k;
  plane' ← set2 plane c v;
  Some (<[k := plane']> a).

(** [np.zeros(shape)]: numpy refuses a negative dimension. *)
Definition np_full2 {A} (x : A) (rows cols : Z) : M (array2 A) :=
  if (rows <? 0) || (cols <? 0) then raise ValueError
  else ret (replicate (Z.to_nat rows) (replicate (Z.to_nat cols) x)).

Definition np_full3 {A} (x : A) (dim rows cols : Z) : M (array3 A) :=
  if (dim <? 0) || (rows <? 0) || (cols <? 0) then raise ValueError
  else ret (replicate (Z.to_nat dim)
              (replicate (Z.to_nat rows) (replicate (Z.to_nat cols) x))).

(** The connection list: axis 0 selects the lattice direction
    (0 = down, 1 = right), then row, then column. *)
Abbreviation ConnectionList := (array3 bool).

(** Reading one entry of a connection list the way a consumer does, with
    non-negative indices inside the array; anything else is a wall. *)
Definition cl_at (cl : ConnectionList) (d : nat) (r c : Z) : bool :=
  if (r <? 0) || (c <? 0) then false
  else default false
         (plane ← cl !! d; row ← plane !! Z.to_nat r; row !! Z.to_nat c).

(** [_random_start_coord(grid_shape, start_coord)] *)
Definition _random_start_coord (grid_shape : Coord) (start_coord : option Coord) : M Coord :=
  match start_coord with
  | None =>
      let* r := np_random_randint 0 (Z.max (grid_shape.1 - 1) 1) in
      let* c := np_random_randint 0 (Z.max (grid_shape.2 - 1) 1) in
      ret (r, c)
  | Some sc => ret sc
  end.

(* ===================================================================== *)
(** ** The maze value *)
(* ===================================================================== *)

(** Values stored in the [generation_meta] dictionary. *)
Inductive meta_value :=
  | VStr (s : string)
  | VCoord (c : Coord)
  | VInt (n : Z)
  | VBool (b : bool)
  | VFloat (q : Q)
  | VCells (s : gset Coord).

(** [LatticeMaze(connection_list=..., generation_meta=...)]: the class lives
    in [maze_dataset.maze]; the generators only use it as a two-field
    container. *)
Record LatticeMaze := {
  connection_list : ConnectionList;
  generation_meta : gmap string meta_value
}.

(* ===================================================================== *)
(** ** [LatticeMazeGenerators.gen_dfs] *)
(* ===================================================================== *)

(** The variables of the main loop.  The Python list [stack] is kept with
    its top (the end of the Python list) at the head. *)
Record dfs_state := {
  dfs_connection_list : ConnectionList;
  dfs_visited_cells : gset Coord;
  dfs_stack : list Coord;
  dfs_current_tree_depth : Z
}.

(** [np.argmax(np.abs(delta))]: the first index holding the maximum. *)
Definition argmax_abs (delta : Coord) : Z :=
  if Z.abs delta.2 <=? Z.abs delta.1 then 0 else 1.

(** [current_tree_depth <= max_tree_depth / 2], with Python's true
    division. *)
Definition depth_allows (current_tree_depth max_tree_depth : Z) : bool :=
  Qle_bool (inject_Z current_tree_depth) (inject_Z max_tree_depth / 2).

Section gen_dfs_loop.
Variables (grid_shape : Coord) (n_accessible_cells max_tree_depth : Z)
          (do_forks : bool).

(** The list comprehension of lines 92-102. *)
Definition unvisited_neighbors_deltas (visited_cells : gset Coord)
    (current_coord : Coord) : list (Coord * Coord) :=
  filter (λ nd : Coord * Coord,
            (nd.1 ∉ visited_cells)
            ∧ (0 ≤ nd.1.1 < grid_shape.1)
            ∧ (0 ≤ nd.1.2 < grid_shape.2))
         (zip (map (coord_add current_coord) NEIGHBORS_MASK) NEIGHBORS_MASK).

(** The loop condition [stack and len(visited_cells) < n_accessible_cells]. *)
Definition dfs_continue (st : dfs_state) : bool :=
  match dfs_stack st with
  | [] => false
  | _ :: _ => Z.of_nat (size (dfs_visited_cells st)) <? n_accessible_cells
  end.

(** One pass through the body of the [while] loop. *)
Definition dfs_body (st : dfs_state) : M dfs_state :=
  match dfs_stack st with
  | [] => raise IndexError
  | current_coord :: stack1 =>
      let nds := unvisited_neighbors_deltas (dfs_visited_cells st) current_coord in
      if negb (bool_decide (nds = []))
         && depth_allows (dfs_current_tree_depth st) max_tree_depth
      then
        let stack2 := if do_forks then current_coord :: stack1 else stack1 in
        let* nd := random_choice nds in
        let chosen_neighbor := nd.1 in
        let delta := nd.2 in
        let dim := argmax_abs delta in
        let clist_node :=
          if 0 <? delta.1 + delta.2 then current_coord else chosen_neighbor in
        let* cl := or_raise IndexError
                     (set3 (dfs_connection_list st) dim clist_node true) in
        ret {| dfs_connection_list := cl;
               dfs_visited_cells := {[chosen_neighbor]} ∪ dfs_visited_cells st;
               dfs_stack := chosen_neighbor :: stack2;
               dfs_current_tree_depth := dfs_current_tree_depth st + 1 |}
      else
        ret {| dfs_connection_list := dfs_connection_list st;
               dfs_visited_cells := dfs_visited_cells st;
               dfs_stack := stack1;
               dfs_current_tree_depth := dfs_current_tree_depth st - 1 |}
  end.

Fixpoint dfs_loop (fuel : nat) (st : dfs_state) : M dfs_state :=
  if dfs_continue st then
    match fuel with
    | O => out_of_fuel
    | S fuel' => let* st' := dfs_body st in dfs_loop fuel' st'
    end
  else ret st.
End gen_dfs_loop.

(** Lines 78-84: the loop variables on entry. *)
Definition dfs_init (connection_list : ConnectionList) (start_coord : Coord)
    : dfs_state :=
  {| dfs_connection_list := connection_list;
     dfs_visited_cells := {[start_coord]};
     dfs_stack := [start_coord];
     dfs_current_tree_depth := 1 |}.

(** Lines 133-144: the returned maze and its metadata. *)
Definition dfs_result (grid_shape start_coord : Coord)
    (n_accessible_cells max_tree_depth : Z) (st : dfs_state) : LatticeMaze :=
  {| connection_list := dfs_connection_list st;
     generation_meta :=
       list_to_map
         [("func_name", VStr "gen_dfs");
          ("grid_shape", VCoord grid_shape);
          ("start_coord", VCoord start_coord);
          ("n_accessible_cells", VInt n_accessible_cells);
          ("max_tree_depth", VInt max_tree_depth);
          ("fully_connected",
            VBool (bool_decide (Z.of_nat (size (dfs_visited_cells st))
                                = n_accessible_cells)));
          ("visited_cells", VCells (dfs_visited_cells st))] |}.

Definition gen_dfs (fuel : nat) (grid_shape : Coord) (lattice_dim : Z)
    (n_accessible_cells max_tree_depth : option Z) (do_forks : bool)
    (start_coord : option Coord) : M LatticeMaze :=
  let n_total_cells := grid_shape.1 * grid_shape.2 in
  let n_accessible_cells := default n_total_cells n_accessible_cells in
  let max_tree_depth := default (2 * n_total_cells) max_tree_depth in
  let* start_coord := _random_start_coord grid_shape start_coord in
  let* connection_list :=
    np_full3 false lattice_dim grid_shape.1 grid_shape.2 in
  let* st := dfs_loop grid_shape n_accessible_cells max_tree_depth do_forks fuel
               (dfs_init connection_list start_coord) in
  ret (dfs_result grid_shape start_coord n_accessible_cells max_tree_depth st).

(** Random sources for running the generators on concrete inputs: the same
    raw draw forever, or the listed raw draws followed by zeros. *)
Definition const_rng (k : nat) : rng :=
  {| py_random := fun _ => k; np_random := fun _ => k |}.

Definition list_rng (py np : list nat) : rng :=
  {| py_random := fun i => nth i py 0%nat; np_random := fun i => nth i np 0%nat |}.

(* ===================================================================== *)
(** ** [LatticeMazeGenerators.gen_wilson] *)
(* ===================================================================== *)

(** The variables the outer loop of [gen_wilson] carries from one
    iteration to the next. *)
Record wilson_state := {
  w_connection_list : ConnectionList;
  w_connected : array2 bool;
  w_direction_matrix : array2 Z;
  w_cells_left : Z
}.

Section gen_wilson_loops.
Variables (rows cols : Z).

(** The nested helper [neighbor(current, direction)]. *)
Definition neighbor (current : Coord) (direction : Z) : option Coord :=
  let moved :=
    if direction =? 0 then Some (current.1, current.2 - 1)      (* Left *)
    else if direction =? 1 then Some (current.1, current.2 + 1) (* Right *)
    else if direction =? 2 then Some (current.1 - 1, current.2) (* Up *)
    else if direction =? 3 then Some (current.1 + 1, current.2) (* Down *)
    else None in
  match moved with
  | Some (row, col) =>
      if (0 <=? row) && (row <? rows) && (0 <=? col) && (col <? cols)
      then Some (row, col) else None
  | None => None
  end.

(** Lines 192-195: draw cells until an unconnected one comes up. *)
Fixpoint wilson_pick (fuel : nat) (connected : array2 bool) : M Coord :=
  match fuel with
  | O => out_of_fuel
  | S fuel' =>
      let* r := random_randint 0 (rows - 1) in
      let* c := random_randint 0 (cols - 1) in
      let current := (r, c) in
      let* is_connected := or_raise IndexError (get2 connected current) in
      if negb is_connected then ret current else wilson_pick fuel' connected
  end.

(** Lines 210-212: turn clockwise through the directions until one stays
    inside the grid. *)
Fixpoint wilson_redirect (fuel : nat) (current : Coord) (direction : Z)
    (next_cell : option Coord) : M (Z * Coord) :=
  match next_cell with
  | Some cell => ret (direction, cell)
  | None =>
      match fuel with
      | O => out_of_fuel
      | S fuel' =>
          let direction := (direction + 1) mod 4 in
          wilson_redirect fuel' current direction (neighbor current direction)
      end
  end.

(** Lines 200-215: the random walk.  Returns the direction matrix and the
    cell at which the walk stopped. *)
Fixpoint wilson_walk (inner fuel : nat) (connected : array2 bool)
    (direction_matrix : array2 Z) (visited : gset Coord) (current : Coord)
    : M (array2 Z * Coord) :=
  let* is_connected := or_raise IndexError (get2 connected current) in
  if negb is_connected then
    if bool_decide (current ∈ visited) then ret (direction_matrix, current)
    else
      match fuel with
      | O => out_of_fuel
      | S fuel' =>
          let visited := {[current]} ∪ visited in
          let* direction := random_randint 0 3 in
          let* dn := wilson_redirect inner current direction
                       (neighbor current direction) in
          let* direction_matrix :=
            or_raise IndexError (set2 direction_matrix current dn.1) in
          wilson_walk inner fuel' connected direction_matrix visited dn.2
      end
  else ret (direction_matrix, current).

(** Lines 230-237: open the edge between [current] and [next_cell]. *)
Definition wilson_connect (connection_list : ConnectionList)
    (direction : Z) (current next_cell : Coord) : option ConnectionList :=
  if direction =? 0 then set3 connection_list 1 next_cell true
  else if direction =? 1 then set3 connection_list 1 current true
  else if direction =? 2 then set3 connection_list 0 next_cell true
  else if direction =? 3 then set3 connection_list 0 current true
  else Some connection_list.

(** Lines 221-239: retrace the recorded path from [current]. *)
Fixpoint wilson_retrace (fuel : nat) (st : wilson_state) (current : Coord)
    : M wilson_state :=
  let* is_connected := or_raise IndexError (get2 (w_connected st) current) in
  if negb is_connected then
    match fuel with
    | O => out_of_fuel
    | S fuel' =>
        let* direction :=
          or_raise IndexError (get2 (w_direction_matrix st) current) in
        let* connected :=
          or_raise IndexError (set2 (w_connected st) current true) in
        let cells_left := w_cells_left st - 1 in
        match neighbor current direction with
        | None =>
            ret {| w_connection_list := w_connection_list st;
                   w_connected := connected;
                   w_direction_matrix := w_direction_matrix st;
                   w_cells_left := cells_left |}
        | Some next_cell =>
            let* connection_list :=
              or_raise IndexError
                (wilson_connect (w_connection_list st) direction current next_cell) in
            wilson_retrace fuel'
              {| w_connection_list := connection_list;
                 w_connected := connected;
                 w_direction_matrix := w_direction_matrix st;
                 w_cells_left := cells_left |}
              next_cell
        end
    end
  else ret st.

(** Lines 189-217: pick a start, walk, and write the terminal sentinel 4
    at the cell where the walk stopped.  Returns the start cell, the cell
    that received the sentinel, and the direction matrix. *)
Definition wilson_walk_phase (inner : nat) (st : wilson_state)
    : M (Coord * Coord * array2 Z) :=
  let* start := wilson_pick inner (w_connected st) in
  let* wc := wilson_walk inner inner (w_connected st)
               (w_direction_matrix st) ∅ start in
  let* direction_matrix := or_raise IndexError (set2 wc.1 wc.2 4) in
  ret (start, wc.2, direction_matrix).

(** One iteration of the outer [while cells_left > 0] loop. *)
Definition wilson_iteration (inner : nat) (st : wilson_state) : M wilson_state :=
  let* swd := wilson_walk_phase inner st in
  wilson_retrace inner
    {| w_connection_list := w_connection_list st;
       w_connected := w_connected st;
       w_direction_matrix := swd.2;
       w_cells_left := w_cells_left st |}
    swd.1.1.

Fixpoint wilson_outer (inner fuel : nat) (st : wilson_state) : M wilson_state :=
  if 0 <? w_cells_left st then
    match fuel with
    | O => out_of_fuel
    | S fuel' =>
        let* st' := wilson_iteration inner st in
        wilson_outer inner fuel' st'
    end
  else ret st.

(** Lines 179-187: the arrays and the seed cell. *)
Definition wilson_init : M wilson_state :=
  let* connection_list := np_full3 false 2 rows cols in
  let* connected := np_full2 false rows cols in
  let* direction_matrix := np_full2 0 rows cols in
  let* r := random_randint 0 (rows - 1) in
  let* c := random_randint 0 (cols - 1) in
  let* connected := or_raise IndexError (set2 connected (r, c) true) in
  ret {| w_connection_list := connection_list;
         w_connected := connected;
         w_direction_matrix := direction_matrix;
         w_cells_left := rows * cols - 1 |}.
End gen_wilson_loops.

Definition gen_wilson (fuel : nat) (grid_shape : Coord) : M LatticeMaze :=
  let rows := grid_shape.1 in
  let cols := grid_shape.2 in
  let* st0 := wilson_init rows cols in
  let* st := wilson_outer rows cols fuel fuel st0 in
  ret {| connection_list := w_connection_list st;
         generation_meta :=
           list_to_map
             [("func_name", VStr "gen_wilson");
              ("grid_shape", VCoord grid_shape);
              ("fully_connected", VBool true)] |}.

(* ===================================================================== *)
(** ** Helpers of [maze_dataset.maze.lattice_maze] *)
(* ===================================================================== *)

(** The grid shape of a maze, read off its connection list. *)
Definition cl_rows (cl : ConnectionList) : nat :=
  match cl with plane :: _ => length plane | [] => 0%nat end.
Definition cl_cols (cl : ConnectionList) : nat :=
  match cl with (row :: _) :: _ => length row | _ => 0%nat end.

Definition in_grid (rows cols : Z) (c : Coord) : Prop :=
  (0 ≤ c.1 < rows) ∧ (0 ≤ c.2 < cols).

Global Instance in_grid_dec rows cols c : Decision (in_grid rows cols c).
Proof. unfold in_grid. apply _. Defined.

(** Modelled from the spec: [_fill_edges_with_walls] is imported from
    [maze_dataset.maze.lattice_maze] and is not part of the sources at hand.
    Spec 4.1: an array of identical shape with all edges pointing outside
    the grid forced to [False] (the last row of axis 0 and the last column
    of axis 1), all other values preserved. *)
Definition _fill_edges_with_walls (cl : ConnectionList) : ConnectionList :=
  imap (fun dim plane =>
          if (dim =? 0)%nat then
            <[pred (length plane) := replicate (cl_cols cl) false]> plane
          else if (dim =? 1)%nat then
            map (fun row => <[pred (length row) := false]> row) plane
          else plane) cl.

(** Whether the edge between two cells is open: the edge is stored at the
    cell with the smaller coordinate, on axis 0 for a vertical step and on
    axis 1 for a horizontal one. *)
Definition nodes_connected (cl : ConnectionList) (a b : Coord) : bool :=
  if bool_decide (b = (a.1 + 1, a.2)) then cl_at cl 0 a.1 a.2
  else if bool_decide (b = (a.1, a.2 + 1)) then cl_at cl 1 a.1 a.2
  else if bool_decide (b = (a.1 - 1, a.2)) then cl_at cl 0 b.1 b.2
  else if bool_decide (b = (a.1, a.2 - 1)) then cl_at cl 1 b.1 b.2
  else false.

(** The in-grid cells one open edge away from [c]. *)
Definition open_neighbors (cl : ConnectionList) (c : Coord) : list Coord :=
  filter (λ n : Coord,
            in_grid (Z.of_nat (cl_rows cl)) (Z.of_nat (cl_cols cl)) n
            ∧ nodes_connected cl c n = true)
         (map (coord_add c) NEIGHBORS_MASK).

(** One round of frontier expansion. *)
Definition expand_component (cl : ConnectionList) (s : gset Coord) : gset Coord :=
  s ∪ list_to_set (elements s ≫= open_neighbors cl).

(** Modelled from the spec: the method
    [LatticeMaze.gen_connected_component_from] is not part of the sources at
    hand.  Spec 4.2: the set of coordinates reachable from the start by
    traversing only open edges, undirected, computed by iterative frontier
    expansion.  A grid of [rows * cols] cells needs at most that many rounds. *)
Definition gen_connected_component_from (cl : ConnectionList) (c : Coord)
    : gset Coord :=
  Nat.iter (cl_rows cl * cl_cols cl) (expand_component cl) {[c]}.

(* ===================================================================== *)
(** ** [gen_percolation] and [gen_dfs_percolation] *)
(* ===================================================================== *)

(** [np.random.rand(d0, d1, d2)] *)
Definition np_random_rand3 (dim rows cols : Z) : M (array3 Q) :=
  if (dim <? 0) || (rows <? 0) || (cols <? 0) then raise ValueError
  else replicateM (Z.to_nat dim)
         (replicateM (Z.to_nat rows) (replicateM (Z.to_nat cols) np_random_sample)).

Definition Qlt_bool (x y : Q) : bool := negb (Qle_bool y x).

(** [samples < p], elementwise. *)
Definition below (p : Q) (samples : array3 Q) : ConnectionList :=
  map (map (map (fun u => Qlt_bool u p))) samples.

(** [np.logical_or(a, b)] on arrays of one shape. *)
Definition logical_or (a b : ConnectionList) : ConnectionList :=
  zip_with (zip_with (zip_with orb)) a b.

Definition gen_percolation (grid_shape : Coord) (p : Q) (lattice_dim : Z)
    (start_coord : option Coord) : M LatticeMaze :=
  if negb (Qle_bool 0 p && Qle_bool p 1) then raise AssertionError
  else
    let* start_coord := _random_start_coord grid_shape start_coord in
    let* samples := np_random_rand3 lattice_dim grid_shape.1 grid_shape.2 in
    let connection_list := below p samples in
    let connection_list := _fill_edges_with_walls connection_list in
    let meta : gmap string meta_value :=
      list_to_map
        [("func_name", VStr "gen_percolation");
         ("grid_shape", VCoord grid_shape);
         ("percolation_p", VFloat p);
         ("start_coord", VCoord start_coord)] in
    ret {| connection_list := connection_list;
           generation_meta :=
             <["visited_cells" :=
                 VCells (gen_connected_component_from connection_list start_coord)]>
               meta |}.

Definition gen_dfs_percolation (fuel : nat) (grid_shape : Coord) (p : Q)
    (lattice_dim : Z) (n_accessible_cells max_tree_depth : option Z)
    (start_coord : option Coord) : M LatticeMaze :=
  let* start_coord := _random_start_coord grid_shape start_coord in
  let* maze := gen_dfs fuel grid_shape lattice_dim n_accessible_cells
                 max_tree_depth true (Some start_coord) in
  let* samples :=
    np_random_rand3 (Z.of_nat (length (connection_list maze)))
      (Z.of_nat (cl_rows (connection_list maze)))
      (Z.of_nat (cl_cols (connection_list maze))) in
  let connection_list_perc := below p samples in
  let connection_list_perc := _fill_edges_with_walls connection_list_perc in
  let merged := logical_or (connection_list maze) connection_list_perc in
  ret {| connection_list := merged;
         generation_meta :=
           <["visited_cells" :=
               VCells (gen_connected_component_from merged start_coord)]>
             (<["percolation_p" := VFloat p]>
                (<["func_name" := VStr "gen_dfs_percolation"]>
                   (generation_meta maze))) |}.

(* ===================================================================== *)
(** ** Vocabulary of the properties *)
(* ===================================================================== *)

(** Number of open edges incident to a cell: its own down and right
    entries, and the down entry of the cell above and the right entry of
    the cell to the left. *)
Definition degree (cl : ConnectionList) (x : Coord) : nat :=
  (Nat.b2n (cl_at cl 0 x.1 x.2) + Nat.b2n (cl_at cl 1 x.1 x.2)
   + Nat.b2n (cl_at cl 0 (x.1 - 1) x.2) + Nat.b2n (cl_at cl 1 x.1 (x.2 - 1)))%nat.

(** The boundary-wall invariant of spec section 3. *)
Definition boundary_walls (rows cols : Z) (cl : ConnectionList) : Prop :=
  (∀ c, 0 ≤ c < cols → cl_at cl 0 (rows - 1) c = false)
  ∧ (∀ r, 0 ≤ r < rows → cl_at cl 1 r (cols - 1) = false).

(** Number of [True] entries of a connection list. *)
Definition count_open_edges (cl : ConnectionList) : nat :=
  length (filter (λ b : bool, b = true) (concat (concat cl))).

(** All coordinates of a grid, row by row. *)
Definition all_cells (rows cols : Z) : list Coord :=
  r ← seqZ 0 rows; c ← seqZ 0 cols; [(r, c)].

(** Entry [d, r, c] of a connection list is the edge between these cells. *)
Definition edge_cells (d : nat) (r c : Z) : Coord * Coord :=
  ((r, c), match d with O => (r + 1, c) | _ => (r, c + 1) end).

Definition joins (d : nat) (r c : Z) (a b : Coord) : Prop :=
  edge_cells d r c = (a, b) ∨ edge_cells d r c = (b, a).

(** [path] is a simple path of the maze carrying all of its open edges:
    no cell repeats, consecutive cells are joined by an open edge, and every
    open edge joins two consecutive cells. *)
Definition simple_path (cl : ConnectionList) (path : list Coord) : Prop :=
  NoDup path
  ∧ (∀ i a b, path !! i = Some a → path !! S i = Some b →
              nodes_connected cl a b = true)
  ∧ (∀ d r c, (d < 2)%nat → cl_at cl d r c = true →
              ∃ i a b, path !! i = Some a ∧ path !! S i = Some b ∧ joins d r c a b).

(** A connection list of shape [(dim, rows, cols)]. *)
Definition has_shape3 {A} (dim rows cols : nat) (a : array3 A) : Prop :=
  length a = dim
  ∧ Forall (λ plane, length plane = rows
                     ∧ Forall (λ row : list A, length row = cols) plane) a.

(** Pointwise inclusion of open edges. *)
Definition cl_le (a b : ConnectionList) : Prop :=
  ∀ d r c, cl_at a d r c = true → cl_at b d r c = true.

(** The arguments the data model of the spec allows for a start
    coordinate: absent, or a cell of the grid. *)
Definition start_in_grid (grid_shape : Coord) (start_coord : option Coord) : Prop :=
  ∀ sc, start_coord = Some sc → in_grid grid_shape.1 grid_shape.2 sc.

(** Number of loop iterations that always suffices for [gen_dfs]. *)
Definition dfs_fuel (grid_shape : Coord) : nat :=
  (2 * Z.to_nat (grid_shape.1 * grid_shape.2) + 2)%nat.

(** Reading a value of the metadata dictionary. *)
Definition meta_cells (m : LatticeMaze) : option (gset Coord) :=
  match generation_meta m !! "visited_cells" with
  | Some (VCells s) => Some s
  | _ => None
  end.

Definition meta_bool (key : string) (m : LatticeMaze) : option bool :=
  match generation_meta m !! key with
  | Some (VBool b) => Some b
  | _ => None
  end.

Definition meta_int (key : string) (m : LatticeMaze) : option Z :=
  match generation_meta m !! key with
  | Some (VInt n) => Some n
  | _ => None
  end.

(** What one pass through the loop body of [gen_dfs] does to the loop
    variables: either it carves the edge (entry [d] at cell [lo]) between
    the popped cell and a fresh in-grid neighbour, or it backtracks. *)
Inductive dfs_step (grid_shape : Coord) (max_tree_depth : Z) (do_forks : bool)
    (st : dfs_state) : dfs_state → Prop :=
  | dfs_carve current rest chosen d lo cl' :
      dfs_stack st = current :: rest →
      chosen ∉ dfs_visited_cells st →
      in_grid grid_shape.1 grid_shape.2 chosen →
      2 * dfs_current_tree_depth st ≤ max_tree_depth →
      (d < 2)%nat →
      joins d lo.1 lo.2 current chosen →
      set3 (dfs_connection_list st) (Z.of_nat d) lo true = Some cl' →
      dfs_step grid_shape max_tree_depth do_forks st
        {| dfs_connection_list := cl';
           dfs_visited_cells := {[chosen]} ∪ dfs_visited_cells st;
           dfs_stack := chosen :: (if do_forks then current :: rest else rest);
           dfs_current_tree_depth := dfs_current_tree_depth st + 1 |}
  | dfs_backtrack current rest :
      dfs_stack st = current :: rest →
      (unvisited_neighbors_deltas grid_shape (dfs_visited_cells st) current = []
       ∨ max_tree_depth < 2 * dfs_current_tree_depth st) →
      dfs_step grid_shape max_tree_depth do_forks st
        {| dfs_connection_list := dfs_connection_list st;
           dfs_visited_cells := dfs_visited_cells st;
           dfs_stack := rest;
           dfs_current_tree_depth := dfs_current_tree_depth st - 1 |}.

(** Loop invariant of [gen_dfs]: the array keeps its shape, every visited
    cell lies in the grid, and the stack holds visited cells only. *)
Definition dfs_wf (dim : nat) (grid_shape : Coord) (st : dfs_state) : Prop :=
  has_shape3 dim (Z.to_nat grid_shape.1) (Z.to_nat grid_shape.2)
             (dfs_connection_list st)
  ∧ (∀ x, x ∈ dfs_visited_cells st → in_grid grid_shape.1 grid_shape.2 x)
  ∧ (∀ x, x ∈ dfs_stack st → x ∈ dfs_visited_cells st).

(** Loop invariant of [gen_dfs] without forks, stated on degrees. *)
Definition dfs_corridor (st : dfs_state) : Prop :=
  (length (dfs_stack st) ≤ 1)%nat
  ∧ (∀ x, x ∉ dfs_visited_cells st → degree (dfs_connection_list st) x = 0%nat)
  ∧ (∀ x, (degree (dfs_connection_list st) x ≤ 2)%nat)
  ∧ (∀ x, x ∈ dfs_stack st → (degree (dfs_connection_list st) x ≤ 1)%nat).

(** Loop invariant of [gen_dfs] without forks, stated on the carved path
    (most recent cell first). *)
Definition dfs_path (start : Coord) (st : dfs_state) (path : list Coord) : Prop :=
  last path = Some start
  ∧ dfs_visited_cells st = list_to_set path
  ∧ (dfs_stack st = [] ∨ dfs_stack st = take 1 path)
  ∧ simple_path (dfs_connection_list st) path.

(** The variant of the loop of [gen_dfs]. *)
Definition dfs_measure (grid_shape : Coord) (st : dfs_state) : nat :=
  (2 * size (list_to_set (all_cells grid_shape.1 grid_shape.2) ∖ dfs_visited_cells st
             : gset Coord)
   + length (dfs_stack st))%nat.

(** Loop invariant of [gen_dfs]: every visited cell is found by the
    component walker from the start within [len(visited_cells) - 1] rounds. *)
Definition dfs_reach (start : Coord) (st : dfs_state) : Prop :=
  ∀ v, v ∈ dfs_visited_cells st →
       v ∈ Nat.iter (size (dfs_visited_cells st) - 1)
                    (expand_component (dfs_connection_list st)) {[start]}.

(** Loop invariant of [gen_dfs]: the cell-count bound. *)
Definition dfs_bounded (n_accessible_cells : Z) (st : dfs_state) : Prop :=
  Z.of_nat (size (dfs_visited_cells st)) ≤ Z.max 1 n_accessible_cells.

(** Loop invariant of [gen_dfs] with forks: the stack is the branch being
    explored, the depth counter is its length, and a visited cell that has
    left the stack has no unvisited neighbour in the grid. *)
Definition dfs_explored (grid_shape : Coord) (st : dfs_state) : Prop :=
  NoDup (dfs_stack st)
  ∧ dfs_current_tree_depth st = Z.of_nat (length (dfs_stack st))
  ∧ (∀ v delta, v ∈ dfs_visited_cells st → v ∉ dfs_stack st →
                delta ∈ NEIGHBORS_MASK →
                in_grid grid_shape.1 grid_shape.2 (coord_add v delta) →
                coord_add v delta ∈ dfs_visited_cells st).

(** One move of a walk through the maze: from a cell to a grid cell one open
    edge away.  A cell is reachable when a chain of such moves leads to it. *)
Definition open_step (cl : ConnectionList) (a b : Coord) : Prop :=
  b ∈ open_neighbors cl a.

Definition reachable (cl : ConnectionList) : Coord → Coord → Prop :=
  rtc (open_step cl).

(** Line 106 compares the depth counter with [max_tree_depth / 2], which
    Python computes as a float.  When the grid has at most [2 ^ 52] cells
    (the counter never exceeds their number) and [max_tree_depth] is at
    most [2 ^ 1024] in absolute value, the quotient is in the range of a
    float and the comparison is the exact one that [depth_allows] makes;
    beyond that range Python raises [OverflowError]. *)
Definition float_exact (grid_shape : Coord) (max_tree_depth : Z) : Prop :=
  grid_shape.1 * grid_shape.2 ≤ 2 ^ 52
  ∧ - 2 ^ 1024 ≤ max_tree_depth ≤ 2 ^ 1024.

(** Loop invariant of [gen_dfs]: the open edges form a tree on the visited
    cells.  Every open entry joins two visited cells, and there is one open
    entry less than there are visited cells. *)
Definition dfs_tree (st : dfs_state) : Prop :=
  (∀ d r c, (d < 2)%nat → cl_at (dfs_connection_list st) d r c = true →
            (r, c) ∈ dfs_visited_cells st
            ∧ (edge_cells d r c).2 ∈ dfs_visited_cells st)
  ∧ (count_open_edges (dfs_connection_list st) + 1
     = size (dfs_visited_cells st))%nat.

(** Loop invariant of [gen_dfs]: [current_tree_depth] counts the cells on
    the branch being explored.  The cell at position [j] of the stack (from
    the top) is found by the component walker from the start within
    [current_tree_depth - 1 - j] rounds, and every visited cell within
    [max_tree_depth // 2] rounds. *)
Definition dfs_depth (start : Coord) (max_tree_depth : Z) (st : dfs_state) : Prop :=
  (∀ j x, dfs_stack st !! j = Some x →
          Z.of_nat j < dfs_current_tree_depth st
          ∧ x ∈ Nat.iter (Z.to_nat (dfs_current_tree_depth st - 1 - Z.of_nat j))
                         (expand_component (dfs_connection_list st)) {[start]})
  ∧ (∀ v, v ∈ dfs_visited_cells st →
          v ∈ Nat.iter (Z.to_nat (max_tree_depth / 2))
                       (expand_component (dfs_connection_list st)) {[start]}).

(** Number of cells that the [connected] array of [gen_wilson] does not
    mark yet. *)
Definition count_unconnected (connected : array2 bool) : nat :=
  length (filter (λ b : bool, b = false) (concat connected)).

(** Loop invariant of [gen_wilson]: [cells_left] is the number of unmarked
    cells, and every open edge has been paid for by marking a cell. *)
Definition wilson_inv (rows cols : Z) (st : wilson_state) : Prop :=
  w_cells_left st = Z.of_nat (count_unconnected (w_connected st))
  ∧ Z.of_nat (count_open_edges (w_connection_list st)) + w_cells_left st
    ≤ rows * cols - 1.

(* ===================================================================== *)
(** ** [maze_dataset.tokenization.token_utils] *)
(* ===================================================================== *)

(** The outcome of a call that draws no randomness and has no loop of its
    own to bound: a value, or an exception. *)
Inductive result (A : Type) :=
  | Returns (a : A)
  | Raises (e : exn).
Arguments Returns {A} a.
Arguments Raises {A} e.

(** [l.index(value)]: the position of the first element equal to [value],
    [ValueError] when there is none. *)
Definition list_index {A} `{EqDecision A} (l : list A) (value : A) : result nat :=
  match list_find (λ x, x = value) l with
  | Some (i, _) => Returns i
  | None => Raises ValueError
  end.

(** [l[start:stop]] for bounds that are not negative: Python clips both to
    the length of the list, and the slice is empty when [stop <= start]. *)
Definition slice {A} (l : list A) (start stop : nat) : list A :=
  take (stop - start) (drop start l).

(** [l[0]] *)
Definition first_item {A} (l : list A) : result A :=
  match l with
  | x :: _ => Returns x
  | [] => Raises IndexError
  end.

Definition tokens_between (tokens : list string) (start_value end_value : string)
    (include_start include_end : bool) : result (list string) :=
  match list_index tokens start_value with
  | Raises e => Raises e
  | Returns i =>
      let start_idx := (i + Nat.b2n (negb include_start))%nat in
      match list_index tokens end_value with
      | Raises e => Raises e
      | Returns j =>
          let end_idx := (j + Nat.b2n include_end)%nat in
          if (start_idx <? end_idx)%nat
          then Returns (slice tokens start_idx end_idx)
          else Raises AssertionError
      end
  end.

Section token_utils.
(** The dictionary [SPECIAL_TOKENS] is imported from
    [maze_dataset.constants], which is not among the sources at hand.  The
    functions only read it at fixed keys; it is a parameter here, from keys
    to tokens, and nothing is assumed of the tokens it holds. *)
Variable SPECIAL_TOKENS : string → string.

Definition get_adj_list_tokens (tokens : list string) : result (list string) :=
  tokens_between tokens (SPECIAL_TOKENS "adj_list_start")
    (SPECIAL_TOKENS "adj_list_end") false false.

Definition get_path_tokens (tokens : list string) (trim_end : bool)
    : result (list string) :=
  if negb (bool_decide (SPECIAL_TOKENS "path_start" ∈ tokens)) then Raises ValueError
  else
    match list_index tokens (SPECIAL_TOKENS "path_start") with
    | Raises e => Raises e
    | Returns i =>
        let start_idx := (i + Nat.b2n trim_end)%nat in
        if trim_end && bool_decide (SPECIAL_TOKENS "path_end" ∈ tokens) then
          match list_index tokens (SPECIAL_TOKENS "path_end") with
          | Raises e => Raises e
          | Returns end_idx => Returns (slice tokens start_idx end_idx)
          end
        else Returns (drop start_idx tokens)
    end.

Definition get_context_tokens (tokens : list string) : result (list string) :=
  tokens_between tokens (SPECIAL_TOKENS "adj_list_start")
    (SPECIAL_TOKENS "path_start") true true.

Definition get_origin_token (tokens : list string) : result string :=
  match tokens_between tokens (SPECIAL_TOKENS "origin_start")
          (SPECIAL_TOKENS "origin_end") false false with
  | Raises e => Raises e
  | Returns between => first_item between
  end.

Definition get_target_token (tokens : list string) : result string :=
  match tokens_between tokens (SPECIAL_TOKENS "target_start")
          (SPECIAL_TOKENS "target_end") false false with
  | Raises e => Raises e
  | Returns between => first_item between
  end.

Definition get_tokens_up_to_path_start (tokens : list string)
    (include_start_coord : bool) : result (list string) :=
  match list_index tokens (SPECIAL_TOKENS "path_start") with
  | Raises e => Raises e
  | Returns i =>
      let path_start_idx := (i + 1)%nat in
      if include_start_coord then Returns (take (path_start_idx + 1) tokens)
      else Returns (take path_start_idx tokens)
  end.
End token_utils.

Section apply_mapping.
(** Python values of any kind: the items of [iter] and the keys and values
    of [mapping] live in one type, as they do in the untyped source. *)
Context {Any : Type} `{Countable Any}.

(** The [for] loop of [apply_mapping], with [output] as it stands. *)
Fixpoint apply_mapping_loop (iter : list Any) (mapping : gmap Any Any)
    (when_missing : string) (output : list Any) : result (list Any) :=
  match iter with
  | [] => Returns output
  | item :: iter' =>
      match mapping !! item with
      | Some value => apply_mapping_loop iter' mapping when_missing (output ++ [value])
      | None =>
          if String.eqb when_missing "skip" then
            apply_mapping_loop iter' mapping when_missing output
          else if String.eqb when_missing "include" then
            apply_mapping_loop iter' mapping when_missing (output ++ [item])
          else if String.eqb when_missing "except" then Raises ValueError
          else Raises ValueError
      end
  end.

Definition apply_mapping (iter : list Any) (mapping : gmap Any Any)
    (when_missing : string) : result (list Any) :=
  apply_mapping_loop iter mapping when_missing [].

(** The two attributes that [tokens_to_coords] and [coords_to_tokens] read
    of their [maze_data_cfg] argument, which the source leaves untyped. *)
Record maze_data_cfg := {
  token_node_map : gmap Any Any;
  node_token_map : gmap Any Any
}.

Definition tokens_to_coords (tokens : list Any) (cfg : maze_data_cfg)
    (when_noncoord : string) : result (list Any) :=
  apply_mapping tokens (token_node_map cfg) when_noncoord.

Definition coords_to_tokens (coords : list Any) (cfg : maze_data_cfg)
    (when_noncoord : string) : result (list Any) :=
  apply_mapping coords (node_token_map cfg) when_noncoord.
End apply_mapping.

(* ===================================================================== *)
(** ** [maze_dataset.dataset.rasterized] *)
(* ===================================================================== *)

Definition result_bind {A B} (k : A → result B) (r : result A) : result B :=
  match r with
  | Returns a => k a
  | Raises e => Raises e
  end.
Global Instance result_mbind : MBind result := @result_bind.

(** A numpy array seen along its two leading axes, of lengths [g_x] and
    [g_y]; whatever lies along further axes is the cell.  The lengths are
    kept beside the rows, because a nested list without rows forgets its
    width and numpy does not. *)
Record grid (A : Type) := {
  g_x : nat;
  g_y : nat;
  g_rows : list (list A)
}.
Arguments g_x {A} _.
Arguments g_y {A} _.
Arguments g_rows {A} _.

(** The rows of a grid agree with its recorded shape. *)
Definition grid_wf {A} (a : grid A) : Prop :=
  length (g_rows a) = g_x a ∧ Forall (λ row, length row = g_y a) (g_rows a).

(** [a[i, j]] for indices inside the array. *)
Definition grid_at {A} (a : grid A) (i j : nat) : option A :=
  row ← g_rows a !! i; row !! j.

(** A pixel: the three channels along the last axis of an image. *)
Definition RGB : Type := Z * Z * Z.

(** [np.repeat(a, repeats, axis=0)] and [np.repeat(a, repeats, axis=1)]
    with a scalar count: each row (each cell of a row) [repeats] times in a
    row.  numpy sets the new length of the axis to [repeats] times the old
    one and raises [ValueError] when that is negative; a negative count on
    an axis of length 0 gives an axis of length 0. *)
Definition np_repeat0 {A} (a : grid A) (repeats : Z) : result (grid A) :=
  if repeats * Z.of_nat (g_x a) <? 0 then Raises ValueError
  else Returns {| g_x := g_x a * Z.to_nat repeats;
                  g_y := g_y a;
                  g_rows := row ← g_rows a; replicate (Z.to_nat repeats) row |}.

Definition np_repeat1 {A} (a : grid A) (repeats : Z) : result (grid A) :=
  if repeats * Z.of_nat (g_y a) <? 0 then Raises ValueError
  else Returns {| g_x := g_x a;
                  g_y := g_y a * Z.to_nat repeats;
                  g_rows := (λ row, cell ← row; replicate (Z.to_nat repeats) cell)
                              <$> g_rows a |}.

(** [np.pad(a, ((before0, after0), (before1, after1), (0, 0)),
    mode="constant", constant_values=...)], with [fill] the cell the
    constant makes along the last axis; numpy refuses a negative width. *)
Definition np_pad {A} (a : grid A) (before0 after0 before1 after1 : Z) (fill : A)
    : result (grid A) :=
  if (before0 <? 0) || (after0 <? 0) || (before1 <? 0) || (after1 <? 0)
  then Raises ValueError
  else
    let y := (Z.to_nat before1 + g_y a + Z.to_nat after1)%nat in
    Returns {| g_x := Z.to_nat before0 + g_x a + Z.to_nat after0;
               g_y := y;
               g_rows :=
                 replicate (Z.to_nat before0) (replicate y fill)
                 ++ ((λ row, replicate (Z.to_nat before1) fill ++ row
                             ++ replicate (Z.to_nat after1) fill) <$> g_rows a)
                 ++ replicate (Z.to_nat after0) (replicate y fill) |}.

Section rasterized.
(** [PixelColors.WALL] is imported from [maze_dataset.maze], which is not
    among the sources at hand: the colour is a parameter. *)
Variable WALL : RGB.

Definition _extend_pixels (image : grid RGB) (n_mult n_bdry : Z)
    : result (grid RGB) :=
  let wall_fill := WALL.1.1 in
  if negb ((WALL.1.1 =? wall_fill) && (WALL.1.2 =? wall_fill)
           && (WALL.2 =? wall_fill))
  then Raises AssertionError
  else
    rows ← np_repeat0 image n_mult;
    output ← np_repeat1 rows n_mult;
    np_pad output n_bdry n_bdry n_bdry n_bdry (wall_fill, wall_fill, wall_fill).
End rasterized.

(** A [slice(start, stop)] with step 1; [None] is an absent bound. *)
Record py_slice := { sl_start : option Z; sl_stop : option Z }.

(** Where a bound of a slice falls on an axis of length [n]: an absent
    bound is the given end of the axis, a negative one counts from the far
    end, and either way the bound is clipped to the axis. *)
Definition slice_bound (n dflt : nat) (bound : option Z) : nat :=
  match bound with
  | None => dflt
  | Some z =>
      if z <? 0 then Z.to_nat (Z.max 0 (z + Z.of_nat n))
      else Nat.min (Z.to_nat z) n
  end.

(** [a[s0, s1, :]] *)
Definition grid_slice {A} (s0 s1 : py_slice) (a : grid A) : grid A :=
  let start0 := slice_bound (g_x a) 0 (sl_start s0) in
  let stop0 := slice_bound (g_x a) (g_x a) (sl_stop s0) in
  let start1 := slice_bound (g_y a) 0 (sl_start s1) in
  let stop1 := slice_bound (g_y a) (g_y a) (sl_stop s1) in
  {| g_x := stop0 - start0;
     g_y := stop1 - start1;
     g_rows := (λ row, slice row start1 stop1) <$> slice (g_rows a) start0 stop0 |}.

(** An operation applied to every cell. *)
Definition grid_map {A B} (f : A → B) (a : grid A) : grid B :=
  {| g_x := g_x a; g_y := g_y a; g_rows := map (map f) (g_rows a) |}.

(** numpy broadcasting along one axis: the lengths agree, or one of them
    is 1 and the other one wins. *)
Definition broadcast_len (n m : nat) : option nat :=
  if decide (n = m) then Some n
  else if decide (n = 1%nat) then Some m
  else if decide (m = 1%nat) then Some n
  else None.

(** An axis of length [n] seen at the broadcast length [target]: itself,
    or its single entry over and over. *)
Definition stretch {A} (n target : nat) (l : list A) : list A :=
  if decide (n = target) then l
  else match l with
       | x :: _ => replicate target x
       | [] => []
       end.

(** A binary operation on two arrays, cell by cell after broadcasting;
    [ValueError] when the shapes cannot be broadcast together. *)
Definition np_broadcast2 {A B C} (f : A → B → C) (a : grid A) (b : grid B)
    : result (grid C) :=
  match broadcast_len (g_x a) (g_x b), broadcast_len (g_y a) (g_y b) with
  | Some x, Some y =>
      Returns {| g_x := x;
                 g_y := y;
                 g_rows :=
                   zip_with (λ row_a row_b,
                               zip_with f (stretch (g_y a) y row_a)
                                          (stretch (g_y b) y row_b))
                            (stretch (g_x a) x (g_rows a))
                            (stretch (g_x b) x (g_rows b)) |}
  | _, _ => Raises ValueError
  end.

(** [image == colour] and [image != colour], channel by channel, and
    [np.all(..., axis=2)]. *)
Definition rgb_eq (colour pixel : RGB) : bool * bool * bool :=
  (pixel.1.1 =? colour.1.1, pixel.1.2 =? colour.1.2, pixel.2 =? colour.2).

Definition rgb_ne (colour pixel : RGB) : bool * bool * bool :=
  (negb (pixel.1.1 =? colour.1.1), negb (pixel.1.2 =? colour.1.2),
   negb (pixel.2 =? colour.2)).

Definition all_axis2 (cell : bool * bool * bool) : bool :=
  cell.1.1 && cell.1.2 && cell.2.

(** [np.where(condition, colour, image)] for a colour and an image, with
    the condition given channel by channel. *)
Definition np_where (condition : grid (bool * bool * bool)) (colour : RGB)
    (image : grid RGB) : result (grid RGB) :=
  np_broadcast2 (λ (c : bool * bool * bool) (pixel : RGB),
                   (if c.1.1 then colour.1.1 else pixel.1.1,
                    if c.1.2 then colour.1.2 else pixel.1.2,
                    if c.2 then colour.2 else pixel.2))
                condition image.

(** The keys of the dictionaries [_RIC_PADS] and [_RIC_SLICES]. *)
Inductive ric_direction := ric_left | ric_right | ric_up | ric_down.

Definition _RIC_PADS (d : ric_direction) : (Z * Z) * (Z * Z) :=
  match d with
  | ric_left => ((1, 0), (0, 0))
  | ric_right => ((0, 1), (0, 0))
  | ric_up => ((0, 0), (1, 0))
  | ric_down => ((0, 0), (0, 1))
  end.

Definition _RIC_SLICES (d : ric_direction) : py_slice * py_slice :=
  match d with
  | ric_left => ({| sl_start := Some 1; sl_stop := None |},
                 {| sl_start := None; sl_stop := None |})
  | ric_right => ({| sl_start := None; sl_stop := Some (-1) |},
                  {| sl_start := None; sl_stop := None |})
  | ric_up => ({| sl_start := None; sl_stop := None |},
               {| sl_start := Some 1; sl_stop := None |})
  | ric_down => ({| sl_start := None; sl_stop := None |},
                 {| sl_start := None; sl_stop := Some (-1) |})
  end.

Section remove_isolated_cells.
(** [PixelColors.WALL], a parameter as above. *)
Variable WALL : RGB.

(** One entry of the dictionary [masks]. *)
Definition ric_mask (image : grid RGB) (d : ric_direction) : result (grid bool) :=
  let slices := _RIC_SLICES d in
  let pads := _RIC_PADS d in
  padded ← np_pad (grid_map (rgb_eq WALL) (grid_slice slices.1 slices.2 image))
             pads.1.1 pads.1.2 pads.2.1 pads.2.2 (true, true, true);
  Returns (grid_map all_axis2 padded).

Definition _remove_isolated_cells (image : grid RGB) : result (grid RGB) :=
  mask_left ← ric_mask image ric_left;
  mask_right ← ric_mask image ric_right;
  mask_up ← ric_mask image ric_up;
  mask_down ← ric_mask image ric_down;
  let mask_non_wall := grid_map all_axis2 (grid_map (rgb_ne WALL) image) in
  mask ← np_broadcast2 andb mask_non_wall mask_left;
  mask ← np_broadcast2 andb mask mask_right;
  mask ← np_broadcast2 andb mask mask_up;
  mask ← np_broadcast2 andb mask mask_down;
  np_where (grid_map (λ m : bool, (m, m, m)) mask) WALL image.
End remove_isolated_cells.

(** Where the mask of a direction holds padding rather than a pixel: the
    first or last row, or the first or last column, of an image of shape
    [(x, y, 3)]. *)
Definition ric_edge (x y : nat) (d : ric_direction) (i j : nat) : bool :=
  match d with
  | ric_left => bool_decide (i = 0%nat)
  | ric_right => bool_decide (S i = x)
  | ric_up => bool_decide (j = 0%nat)
  | ric_down => bool_decide (S j = y)
  end.

(** A pixel equal to the wall colour, and one that differs from it in
    every channel. *)
Definition is_wall (WALL pixel : RGB) : bool := all_axis2 (rgb_eq WALL pixel).
Definition is_non_wall (WALL pixel : RGB) : bool := all_axis2 (rgb_ne WALL pixel).

(* ===================================================================== *)
(** ** Reasoning about outcomes *)
(* ===================================================================== *)

Lemma bind_Ok {A B} (m : M A) (k : A → M B) g b g' :
  bind m k g = Ok (b, g') →
  ∃ a g1, m g = Ok (a, g1) ∧ k a g1 = Ok (b, g').
Proof.
  unfold bind. destruct (m g) as [[a g1]| |]; [eauto | done | done].
Qed.

Lemma ret_Ok {A} (a b : A) g g' : ret a g = Ok (b, g') → b = a ∧ g' = g.
Proof. unfold ret. by intros [= -> ->]. Qed.

Lemma or_raise_Ok {A} e (o : option A) a g g' :
  or_raise e o g = Ok (a, g') → o = Some a ∧ g' = g.
Proof. destruct o; simpl; [by intros [= -> ->] | done]. Qed.

(** Peel one layer of a successful monadic computation. *)
Ltac inv_M :=
  repeat match goal with
  | H : bind _ _ _ = Ok (_, _) |- _ =>
      let a := fresh "a" in let g := fresh "g" in
      let H1 := fresh "Hm" in let H2 := fresh "Hk" in
      apply bind_Ok in H as (a & g & H1 & H2)
  | H : ret _ _ = Ok (_, _) |- _ => apply ret_Ok in H as [? ?]; subst
  | H : or_raise _ _ _ = Ok (_, _) |- _ => apply or_raise_Ok in H as [? ?]; subst
  | H : raise _ _ = Ok _ |- _ => discriminate H
  | H : out_of_fuel _ = Ok _ |- _ => discriminate H
  end.

(* ===================================================================== *)
(** ** numpy indexing *)
(* ===================================================================== *)

Lemma np_index_lt n i k : np_index n i = Some k → (k < n)%nat.
Proof.
  unfold np_index. repeat case_match; intros [= <-]; lia.
Qed.

Lemma np_index_nonneg n i k : np_index n i = Some k → 0 ≤ i → k = Z.to_nat i.
Proof.
  unfold np_index. repeat case_match; intros [= <-] ?; lia.
Qed.

Lemma np_index_is_Some n i : - Z.of_nat n ≤ i < Z.of_nat n → is_Some (np_index n i).
Proof.
  intros Hi. unfold np_index. repeat case_match; eauto; lia.
Qed.

Lemma set2_shape {A} (a a' : array2 A) c v rows cols :
  set2 a c v = Some a' →
  length a = rows → Forall (λ row, length row = cols) a →
  length a' = rows ∧ Forall (λ row, length row = cols) a'.
Proof.
  unfold set2. intros H Hl Hf. simplify_option_eq.
  split; [by rewrite length_insert |].
  apply Forall_insert; [done |]. rewrite length_insert.
  match goal with Hp : a !! _ = Some _ |- _ =>
    apply (Forall_lookup_1 _ _ _ _ Hf Hp) end.
Qed.

Lemma set2_is_Some {A} (a : array2 A) c v rows cols :
  length a = rows → Forall (λ row, length row = cols) a →
  - Z.of_nat rows ≤ c.1 < Z.of_nat rows → - Z.of_nat cols ≤ c.2 < Z.of_nat cols →
  is_Some (set2 a c v).
Proof.
  intros Hl Hf H1 H2. unfold set2.
  destruct (np_index_is_Some (length a) c.1) as [i Hi]; [lia |].
  rewrite Hi. simpl.
  destruct (lookup_lt_is_Some_2 a i) as [row Hrow]; [by eapply np_index_lt |].
  rewrite Hrow. simpl.
  assert (length row = cols) as Hrl by apply (Forall_lookup_1 _ _ _ _ Hf Hrow).
  destruct (np_index_is_Some (length row) c.2) as [j Hj]; [lia |].
  rewrite Hj. simpl. eauto.
Qed.

Lemma set3_shape {A} (a a' : array3 A) d c v dim rows cols :
  set3 a d c v = Some a' → has_shape3 dim rows cols a → has_shape3 dim rows cols a'.
Proof.
  unfold set3, has_shape3. intros H [Hl Hf]. simplify_option_eq.
  split; [by rewrite length_insert |].
  apply Forall_insert; [done |].
  match goal with Hp : a !! _ = Some _ |- _ =>
    destruct (Forall_lookup_1 _ _ _ _ Hf Hp) as [? ?] end.
  eapply set2_shape; eauto.
Qed.

Lemma set3_is_Some {A} (a : array3 A) d c v dim rows cols :
  has_shape3 dim rows cols a →
  0 ≤ d < Z.of_nat dim →
  - Z.of_nat rows ≤ c.1 < Z.of_nat rows → - Z.of_nat cols ≤ c.2 < Z.of_nat cols →
  is_Some (set3 a d c v).
Proof.
  intros [Hl Hf] Hd H1 H2. unfold set3.
  destruct (np_index_is_Some (length a) d) as [k Hk]; [lia |].
  rewrite Hk. simpl.
  destruct (lookup_lt_is_Some_2 a k) as [plane Hp]; [by eapply np_index_lt |].
  rewrite Hp. simpl.
  destruct (Forall_lookup_1 _ _ _ _ Hf Hp) as [? ?].
  destruct (set2_is_Some plane c v rows cols) as [p' Hp']; try done.
  rewrite Hp'. simpl. eauto.
Qed.

(** Writing at a position with non-negative indices changes exactly that
    entry. *)
Lemma set2_lookup {A} (a a' : array2 A) (x : Coord) v i j :
  set2 a x v = Some a' → 0 ≤ x.1 → 0 ≤ x.2 →
  (row ← a' !! i; row !! j) =
    if decide (i = Z.to_nat x.1 ∧ j = Z.to_nat x.2) then Some v
    else (row ← a !! i; row !! j).
Proof.
  unfold set2. intros H H1 H2.
  destruct (np_index (length a) x.1) as [i0|] eqn:Hi; [simpl in H | done].
  destruct (a !! i0) as [row|] eqn:Hrow; [simpl in H | done].
  destruct (np_index (length row) x.2) as [j0|] eqn:Hj; [simpl in H | done].
  injection H as <-.
  pose proof (np_index_lt _ _ _ Hi). pose proof (np_index_lt _ _ _ Hj).
  apply np_index_nonneg in Hi; [| done]. apply np_index_nonneg in Hj; [| done].
  subst i0 j0.
  rewrite list_lookup_insert.
  destruct (decide (Z.to_nat x.1 = i ∧ (Z.to_nat x.1 < length a)%nat)) as [[<- _]|Hne].
  - simpl. rewrite list_lookup_insert, Hrow. simpl.
    repeat case_decide; try done; naive_solver.
  - case_decide as Hd; [| done]. destruct Hd as [-> _]. naive_solver.
Qed.

Lemma cl_at_set3 (cl cl' : ConnectionList) (d : nat) (x : Coord) d' r' c' :
  set3 cl (Z.of_nat d) x true = Some cl' → 0 ≤ x.1 → 0 ≤ x.2 →
  cl_at cl' d' r' c' =
    if bool_decide (d' = d ∧ r' = x.1 ∧ c' = x.2) then true else cl_at cl d' r' c'.
Proof.
  unfold set3. intros H H1 H2.
  destruct (np_index (length cl) (Z.of_nat d)) as [k|] eqn:Hk; [simpl in H | done].
  destruct (cl !! k) as [plane|] eqn:Hp; [simpl in H | done].
  destruct (set2 plane x true) as [plane'|] eqn:Hs; [simpl in H | done].
  injection H as <-.
  pose proof (np_index_lt _ _ _ Hk).
  apply np_index_nonneg in Hk; [| lia]. rewrite Nat2Z.id in Hk. subst k.
  unfold cl_at.
  destruct ((r' <? 0) || (c' <? 0)) eqn:Hneg.
  { case_bool_decide; [| done]. lia. }
  apply orb_false_iff in Hneg as [? ?].
  rewrite list_lookup_insert.
  destruct (decide (d = d' ∧ (d < length cl)%nat)) as [[<- _]|Hne].
  - rewrite Hp. simpl.
    rewrite (set2_lookup _ _ _ _ (Z.to_nat r') (Z.to_nat c') Hs H1 H2).
    case_decide as Hd; case_bool_decide as Hb; try done.
    + exfalso. apply Hb. lia.
    + exfalso. apply Hd. lia.
  - case_bool_decide as Hb; [| done]. exfalso. naive_solver.
Qed.

(* ===================================================================== *)
(** ** The loop of [gen_dfs], one iteration at a time *)
(* ===================================================================== *)

Lemma depth_allows_spec d m : depth_allows d m = true ↔ 2 * d ≤ m.
Proof.
  unfold depth_allows, Qle_bool. simpl. rewrite Z.leb_le. lia.
Qed.

Lemma random_choice_Ok {A} (l : list A) x g g' :
  random_choice l g = Ok (x, g') → x ∈ l.
Proof.
  destruct l as [|y l]; [done |]. unfold random_choice. intros H. inv_M.
  apply list_elem_of_In, nth_In, Nat.mod_upper_bound. done.
Qed.

Lemma random_choice_is_Ok {A} (l : list A) g :
  l ≠ [] → ∃ x g', random_choice l g = Ok (x, g').
Proof. destruct l; [done |]. intros _. unfold random_choice, bind. simpl. eauto. Qed.

Lemma elem_of_unvisited_neighbors_deltas grid_shape visited current nd :
  nd ∈ unvisited_neighbors_deltas grid_shape visited current →
  (nd.1 ∉ visited) ∧ in_grid grid_shape.1 grid_shape.2 nd.1
  ∧ nd.2 ∈ NEIGHBORS_MASK ∧ nd.1 = coord_add current nd.2.
Proof.
  unfold unvisited_neighbors_deltas. rewrite list_elem_of_filter.
  intros [(Hv & Hr & Hc) Hin].
  split; [done |]. split; [by split |].
  unfold NEIGHBORS_MASK in *. simpl in Hin.
  rewrite !elem_of_cons, elem_of_nil in Hin.
  rewrite !elem_of_cons, elem_of_nil.
  destruct Hin as [->|[->|[->|[->|[]]]]]; simpl; auto 10.
Qed.

(** The entry that lines 116-122 write joins the current cell and the
    chosen neighbour, and is stored at the one with the smaller coordinate. *)
Lemma carve_edge current delta :
  delta ∈ NEIGHBORS_MASK →
  ∃ (d : nat) (lo : Coord),
    argmax_abs delta = Z.of_nat d
    ∧ (if 0 <? delta.1 + delta.2 then current else coord_add current delta) = lo
    ∧ (d < 2)%nat
    ∧ joins d lo.1 lo.2 current (coord_add current delta).
Proof.
  destruct current as [r c]. unfold NEIGHBORS_MASK, joins, edge_cells, coord_add.
  rewrite !elem_of_cons, elem_of_nil.
  intros [->|[->|[->|[->|[]]]]]; simpl.
  - exists 1%nat, (r, c). simpl.
    repeat split; try lia; try (f_equal; lia);
      solve [left; repeat f_equal; lia | right; repeat f_equal; lia].
  - exists 1%nat, (r, c + -1). simpl.
    repeat split; try lia; try (f_equal; lia);
      solve [left; repeat f_equal; lia | right; repeat f_equal; lia].
  - exists 0%nat, (r, c). simpl.
    repeat split; try lia; try (f_equal; lia);
      solve [left; repeat f_equal; lia | right; repeat f_equal; lia].
  - exists 0%nat, (r + -1, c). simpl.
    repeat split; try lia; try (f_equal; lia);
      solve [left; repeat f_equal; lia | right; repeat f_equal; lia].
Qed.

Lemma dfs_body_step grid_shape max_tree_depth do_forks st g st' g' :
  dfs_body grid_shape max_tree_depth do_forks st g = Ok (st', g') →
  dfs_step grid_shape max_tree_depth do_forks st st'.
Proof.
  unfold dfs_body. destruct (dfs_stack st) as [|current rest] eqn:Hst; [done |].
  destruct (negb _ && _) eqn:Hc; intros H; inv_M.
  - apply andb_true_iff in Hc as [_ Hd]. apply depth_allows_spec in Hd.
    apply random_choice_Ok, elem_of_unvisited_neighbors_deltas in Hm
      as (Hv & Hg & Hmask & Heq).
    destruct (carve_edge current _ Hmask) as (d & lo & Hdim & Hlo & Hd2 & Hj).
    rewrite <- Heq in *. rewrite Hdim, Hlo in H.
    by eapply dfs_carve.
  - eapply dfs_backtrack; [done |].
    apply andb_false_iff in Hc as [Hc|Hc].
    + left. apply negb_false_iff, bool_decide_eq_true in Hc. done.
    + right. destruct (decide (2 * dfs_current_tree_depth st ≤ max_tree_depth)) as [Hle|]; [| lia].
      apply depth_allows_spec in Hle. congruence.
Qed.

(** Invariants of the loop: a property preserved by every pass through the
    body holds when the loop is left, where the loop condition is false. *)
Lemma dfs_loop_invariant (P : dfs_state → Prop) grid_shape n_acc max_tree_depth do_forks :
  (∀ st st', dfs_continue n_acc st = true → P st →
             dfs_step grid_shape max_tree_depth do_forks st st' → P st') →
  ∀ fuel st g st' g',
    P st →
    dfs_loop grid_shape n_acc max_tree_depth do_forks fuel st g = Ok (st', g') →
    P st' ∧ dfs_continue n_acc st' = false.
Proof.
  intros Hstep fuel. induction fuel as [|fuel IH]; intros st g st' g' HP; simpl.
  - destruct (dfs_continue n_acc st) eqn:Hc; intros H; inv_M; done.
  - destruct (dfs_continue n_acc st) eqn:Hc; intros H; inv_M; [| done].
    eapply IH; [| done]. eapply Hstep; eauto using dfs_body_step.
Qed.

(* ===================================================================== *)
(** ** Grid facts *)
(* ===================================================================== *)

Lemma elem_of_all_cells rows cols x : x ∈ all_cells rows cols ↔ in_grid rows cols x.
Proof.
  unfold all_cells, in_grid. destruct x as [r c]. simpl.
  rewrite list_elem_of_bind. split.
  - intros (r' & Hc & Hr). apply list_elem_of_bind in Hc as (c' & Hx & Hc).
    apply list_elem_of_singleton in Hx as [= -> ->].
    apply elem_of_seqZ in Hr, Hc. lia.
  - intros [Hr Hc]. exists r. split; [| apply elem_of_seqZ; lia].
    apply list_elem_of_bind. exists c. split; [set_solver | apply elem_of_seqZ; lia].
Qed.

Lemma NoDup_all_cells rows cols : NoDup (all_cells rows cols).
Proof.
  unfold all_cells. apply NoDup_bind; [| | apply NoDup_seqZ].
  - intros r1 r2 y _ _ H1 H2.
    apply list_elem_of_bind in H1 as (c1 & Hx1 & _).
    apply list_elem_of_bind in H2 as (c2 & Hx2 & _).
    apply list_elem_of_singleton in Hx1, Hx2. congruence.
  - intros r _. apply NoDup_bind; [| | apply NoDup_seqZ].
    + intros c1 c2 y _ _ H1 H2. apply list_elem_of_singleton in H1, H2. congruence.
    + intros c _. apply NoDup_singleton.
Qed.

Lemma length_bind_const {A B} (f : A → list B) (l : list A) k :
  (∀ x, length (f x) = k) → length (l ≫= f) = (length l * k)%nat.
Proof.
  intros Hf. induction l as [|x l IH]; [done |].
  rewrite bind_cons, length_app, IH, Hf. simpl. lia.
Qed.

Lemma length_all_cells rows cols :
  0 ≤ rows → 0 ≤ cols → length (all_cells rows cols) = Z.to_nat (rows * cols).
Proof.
  intros Hr Hc. unfold all_cells.
  rewrite (length_bind_const _ _ (Z.to_nat cols)), length_seqZ; [lia |].
  intros r. rewrite (length_bind_const _ _ 1%nat), length_seqZ; [lia | done].
Qed.

Lemma size_all_cells rows cols :
  0 ≤ rows → 0 ≤ cols →
  size (list_to_set (all_cells rows cols) : gset Coord) = Z.to_nat (rows * cols).
Proof.
  intros Hr Hc. rewrite size_list_to_set by apply NoDup_all_cells.
  by apply length_all_cells.
Qed.

(** A set of grid cells has at most [rows * cols] elements. *)
Lemma size_in_grid (rows cols : Z) (s : gset Coord) :
  0 ≤ rows → 0 ≤ cols →
  (∀ x, x ∈ s → in_grid rows cols x) → (size s ≤ Z.to_nat (rows * cols))%nat.
Proof.
  intros Hr Hc Hs. rewrite <- (size_all_cells rows cols) by done.
  apply subseteq_size. intros x Hx.
  apply elem_of_list_to_set, elem_of_all_cells. auto.
Qed.

Lemma size_add_fresh (x : Coord) (s : gset Coord) :
  x ∉ s → size ({[x]} ∪ s) = S (size s).
Proof.
  intros Hx. rewrite size_union by set_solver. by rewrite size_singleton.
Qed.

Lemma joins_sym d r c a b : joins d r c a b → joins d r c b a.
Proof. unfold joins. tauto. Qed.

(** The entry of an edge between two grid cells lies inside the grid, and
    so does the other end of that entry. *)
Lemma joins_in_grid rows cols d (lo a b : Coord) :
  joins d lo.1 lo.2 a b → in_grid rows cols a → in_grid rows cols b →
  in_grid rows cols lo ∧ in_grid rows cols (edge_cells d lo.1 lo.2).2.
Proof.
  unfold joins, edge_cells. destruct lo as [r c]. simpl.
  intros [H|H] Ha Hb; simplify_eq; done.
Qed.

Lemma joins_nodes_connected cl d r c a b :
  (d < 2)%nat → joins d r c a b → cl_at cl d r c = true →
  nodes_connected cl a b = true.
Proof.
  intros Hd [H|H] Hcl; unfold edge_cells in H; unfold nodes_connected;
    destruct d as [|[|?]]; try lia; simplify_eq; simpl;
    repeat case_bool_decide; simplify_eq; try done; try (exfalso; lia).
  all: try (exfalso; match goal with H : _ ≠ _ |- _ => apply H; f_equal; lia end).
  all: try (rewrite <- Hcl; f_equal; lia).
Qed.

(* ===================================================================== *)
(** ** Invariants of the loop of [gen_dfs] *)
(* ===================================================================== *)

Lemma dfs_step_wf dim grid_shape max_tree_depth do_forks st st' :
  dfs_wf dim grid_shape st →
  dfs_step grid_shape max_tree_depth do_forks st st' →
  dfs_wf dim grid_shape st'.
Proof.
  intros (Hshape & Hvis & Hstack) Hstep.
  destruct Hstep as [current rest chosen d lo cl' Hst Hfresh Hgrid Hdepth Hd Hj Hset
                    |current rest Hst Hback]; unfold dfs_wf; simpl.
  - split; [by eapply set3_shape |]. split.
    + intros x Hx. apply elem_of_union in Hx as [Hx|Hx]; [| by auto].
      apply elem_of_singleton in Hx. by subst.
    + intros x Hx. rewrite Hst in Hstack.
      apply elem_of_cons in Hx as [->|Hx]; [set_solver |].
      apply elem_of_union_r, Hstack. destruct do_forks; set_solver.
  - split; [done |]. split; [done |].
    intros x Hx. apply Hstack. rewrite Hst. set_solver.
Qed.

(** In a carving step from a well-formed state, both ends of the written
    entry are grid cells. *)
Lemma dfs_carve_in_grid dim grid_shape st current rest chosen d (lo : Coord) :
  dfs_wf dim grid_shape st →
  dfs_stack st = current :: rest →
  in_grid grid_shape.1 grid_shape.2 chosen →
  joins d lo.1 lo.2 current chosen →
  in_grid grid_shape.1 grid_shape.2 lo
  ∧ in_grid grid_shape.1 grid_shape.2 (edge_cells d lo.1 lo.2).2.
Proof.
  intros (_ & Hvis & Hstack) Hst Hgrid Hj.
  eapply joins_in_grid; [done | | done].
  apply Hvis, Hstack. rewrite Hst. set_solver.
Qed.

Lemma dfs_step_boundary dim grid_shape max_tree_depth do_forks st st' :
  dfs_wf dim grid_shape st →
  boundary_walls grid_shape.1 grid_shape.2 (dfs_connection_list st) →
  dfs_step grid_shape max_tree_depth do_forks st st' →
  boundary_walls grid_shape.1 grid_shape.2 (dfs_connection_list st').
Proof.
  intros Hwf [Hdown Hright] Hstep.
  destruct Hstep as [current rest chosen d lo cl' Hst Hfresh Hgrid Hdepth Hd Hj Hset
                    |current rest Hst Hback]; simpl; [| done].
  destruct (dfs_carve_in_grid _ _ _ _ _ _ _ _ Hwf Hst Hgrid Hj) as [Hlo Hhi].
  unfold in_grid, edge_cells in *. simpl in *.
  split; intros i Hi; rewrite (cl_at_set3 _ _ _ _ _ _ _ Hset) by lia;
    case_bool_decide as Hb; auto;
    destruct Hb as (<- & Hr & Hc); simpl in *; lia.
Qed.

(** Opening one entry raises the degree of its two ends by at most one and
    leaves every other cell alone. *)
Lemma degree_set3 (cl cl' : ConnectionList) d (lo : Coord) x :
  set3 cl (Z.of_nat d) lo true = Some cl' → 0 ≤ lo.1 → 0 ≤ lo.2 → (d < 2)%nat →
  (degree cl' x ≤ degree cl x + 1)%nat
  ∧ (x ≠ lo → x ≠ (edge_cells d lo.1 lo.2).2 → degree cl' x = degree cl x).
Proof.
  intros Hset H1 H2 Hd. unfold degree, edge_cells.
  rewrite !(cl_at_set3 _ _ _ _ _ _ _ Hset) by lia.
  destruct x as [r c], lo as [r0 c0]. simpl in *.
  destruct d as [|[|?]]; [| | lia]; simpl.
  - split.
    + repeat case_bool_decide; simpl;
        repeat match goal with |- context [cl_at ?a ?b ?c ?d] => destruct (cl_at a b c d) end;
        simpl; lia.
    + intros Hne1 Hne2.
      repeat case_bool_decide; simpl; try done;
        solve [exfalso; apply Hne1; f_equal; lia | exfalso; apply Hne2; f_equal; lia].
  - split.
    + repeat case_bool_decide; simpl;
        repeat match goal with |- context [cl_at ?a ?b ?c ?d] => destruct (cl_at a b c d) end;
        simpl; lia.
    + intros Hne1 Hne2.
      repeat case_bool_decide; simpl; try done;
        solve [exfalso; apply Hne1; f_equal; lia | exfalso; apply Hne2; f_equal; lia].
Qed.

Lemma dfs_step_corridor dim grid_shape max_tree_depth st st' :
  dfs_wf dim grid_shape st → dfs_corridor st →
  dfs_step grid_shape max_tree_depth false st st' →
  dfs_corridor st'.
Proof.
  intros Hwf (Hlen & Hzero & Htwo & Hone) Hstep.
  destruct Hstep as [current rest chosen d lo cl' Hst Hfresh Hgrid Hdepth Hd Hj Hset
                    |current rest Hst Hback]; unfold dfs_corridor; simpl.
  - destruct (dfs_carve_in_grid _ _ _ _ _ _ _ _ Hwf Hst Hgrid Hj) as [Hlo Hhi].
    rewrite Hst in Hlen, Hone. simpl in Hlen.
    assert (rest = []) as -> by (destruct rest; [done | simpl in Hlen; lia]).
    assert (∀ x, (degree cl' x ≤ degree (dfs_connection_list st) x + 1)%nat
                 ∧ (x ≠ current → x ≠ chosen →
                    degree cl' x = degree (dfs_connection_list st) x)) as Hdeg.
    { intros x. destruct (degree_set3 _ _ _ _ x Hset) as [Hle Heq];
        [apply Hlo | apply Hlo | done |].
      split; [done |]. intros Hn1 Hn2. apply Heq.
      - destruct Hj as [Hj|Hj]; unfold edge_cells in Hj; destruct lo; simpl in *;
          simplify_eq; done.
      - destruct Hj as [Hj|Hj]; unfold edge_cells in *; destruct lo; simpl in *;
          simplify_eq; done. }
    split; [done |]. split; [| split].
    + intros x Hx. apply not_elem_of_union in Hx as [Hx1 Hx2].
      apply not_elem_of_singleton in Hx1.
      destruct (Hdeg x) as [_ Heq]. rewrite Heq; [by apply Hzero | | done].
      intros ->. apply Hx2. destruct Hwf as (_ & _ & Hstack).
      apply Hstack. rewrite Hst. set_solver.
    + intros x. destruct (Hdeg x) as [Hle Heq].
      destruct (decide (x = current)) as [->|Hn1].
      { assert (degree (dfs_connection_list st) current ≤ 1)%nat
          by (apply Hone; set_solver). lia. }
      destruct (decide (x = chosen)) as [->|Hn2].
      { rewrite (Hzero chosen Hfresh) in Hle. lia. }
      rewrite Heq by done. apply Htwo.
    + intros x Hx. apply list_elem_of_singleton in Hx as ->.
      destruct (Hdeg chosen) as [Hle _]. rewrite (Hzero chosen Hfresh) in Hle. lia.
  - rewrite Hst in Hlen, Hone. simpl in Hlen.
    split; [lia |]. split; [done |]. split; [done |].
    intros x Hx. apply Hone. set_solver.
Qed.

Lemma cl_le_set3 (cl cl' : ConnectionList) d (lo : Coord) :
  set3 cl (Z.of_nat d) lo true = Some cl' → 0 ≤ lo.1 → 0 ≤ lo.2 → cl_le cl cl'.
Proof.
  intros Hset H1 H2 d' r c Hcl.
  rewrite (cl_at_set3 _ _ _ _ _ _ _ Hset) by done. by case_bool_decide.
Qed.

Lemma nodes_connected_mono cl cl' a b :
  cl_le cl cl' → nodes_connected cl a b = true → nodes_connected cl' a b = true.
Proof.
  unfold nodes_connected. intros Hle. repeat case_bool_decide; auto.
Qed.

Lemma dfs_step_path dim grid_shape max_tree_depth start st st' path :
  dfs_wf dim grid_shape st → dfs_path start st path →
  dfs_step grid_shape max_tree_depth false st st' →
  ∃ path', dfs_path start st' path'.
Proof.
  intros Hwf (Hlast & Hvis & Hstk & HNoDup & Hchain & Hedges) Hstep.
  destruct Hstep as [current rest chosen d lo cl' Hst Hfresh Hgrid Hdepth Hd Hj Hset
                    |current rest Hst Hback].
  - destruct (dfs_carve_in_grid _ _ _ _ _ _ _ _ Hwf Hst Hgrid Hj) as [[Hlo1 Hlo2] _].
    rewrite Hst in Hstk. destruct Hstk as [?|Hstk]; [done |].
    destruct path as [|top path]; [done |]. simpl in Hstk. rewrite take_0 in Hstk.
    injection Hstk as <- ->.
    exists (chosen :: current :: path). unfold dfs_path, simple_path. simpl.
    split; [done |]. split; [by rewrite Hvis |]. split; [by right |].
    assert (cl_le (dfs_connection_list st) cl') as Hmono
      by (eapply cl_le_set3; [done | lia | lia]).
    assert (cl_at cl' d lo.1 lo.2 = true) as Hopen.
    { rewrite (cl_at_set3 _ _ _ _ _ _ _ Hset) by lia. by rewrite bool_decide_eq_true_2. }
    split; [| split].
    + apply NoDup_cons. split; [| done].
      rewrite Hvis in Hfresh. by rewrite elem_of_list_to_set in Hfresh.
    + intros [|i] a b Ha Hb; simpl in *.
      * simplify_eq. eapply joins_nodes_connected; [done | | done].
        by apply joins_sym.
      * eapply nodes_connected_mono; [done |]. by eapply Hchain.
    + intros d' r c Hd' Hcl.
      rewrite (cl_at_set3 _ _ _ _ _ _ _ Hset) in Hcl by lia.
      case_bool_decide as Hb.
      * destruct Hb as (-> & -> & ->). exists 0%nat, chosen, current.
        split; [done |]. split; [done |]. by apply joins_sym.
      * destruct (Hedges d' r c Hd' Hcl) as (i & a & b & Ha & Hb' & Hjab).
        exists (S i), a, b. done.
  - exists path. unfold dfs_path. simpl.
    split; [done |]. split; [done |]. split; [| done].
    rewrite Hst in Hstk. destruct Hstk as [?|Hstk]; [done |].
    destruct path as [|top path]; [done |]. simpl in Hstk. rewrite take_0 in Hstk.
    injection Hstk as <- ->. by left.
Qed.

(** *** The state in which the loop is entered *)

Lemma cl_at_zeros dim rows cols d r c :
  cl_at (replicate dim (replicate rows (replicate cols false))) d r c = false.
Proof.
  unfold cl_at. case_match; [done |].
  destruct (replicate dim _ !! d) as [plane|] eqn:Hp; [| done].
  apply lookup_replicate in Hp as [-> _]. simpl.
  destruct (replicate rows _ !! Z.to_nat r) as [row|] eqn:Hr; [| done].
  apply lookup_replicate in Hr as [-> _]. simpl.
  destruct (replicate cols false !! Z.to_nat c) as [b|] eqn:Hb; [| done].
  by apply lookup_replicate in Hb as [-> _].
Qed.

Lemma degree_zeros dim rows cols x :
  degree (replicate dim (replicate rows (replicate cols false))) x = 0%nat.
Proof. unfold degree. by rewrite !cl_at_zeros. Qed.

Lemma has_shape3_replicate {A} dim rows cols (x : A) :
  has_shape3 dim rows cols (replicate dim (replicate rows (replicate cols x))).
Proof.
  split; [apply length_replicate |].
  apply Forall_replicate. split; [apply length_replicate |].
  apply Forall_replicate, length_replicate.
Qed.

Lemma np_full3_Ok {A} (x : A) dim rows cols g a g' :
  np_full3 x dim rows cols g = Ok (a, g') →
  0 ≤ dim ∧ 0 ≤ rows ∧ 0 ≤ cols ∧ g' = g
  ∧ a = replicate (Z.to_nat dim) (replicate (Z.to_nat rows) (replicate (Z.to_nat cols) x)).
Proof.
  unfold np_full3. case_match eqn:Hneg; intros Hrun; inv_M.
  apply orb_false_iff in Hneg as [Hneg ?]. apply orb_false_iff in Hneg as [? ?].
  repeat split; try done; lia.
Qed.

Lemma np_full3_is_Ok {A} (x : A) dim rows cols g :
  0 ≤ dim → 0 ≤ rows → 0 ≤ cols →
  np_full3 x dim rows cols g
  = Ok (replicate (Z.to_nat dim) (replicate (Z.to_nat rows) (replicate (Z.to_nat cols) x)), g).
Proof.
  intros. unfold np_full3. case_match eqn:Hneg; [| done].
  apply orb_true_iff in Hneg as [Hneg|?]; [apply orb_true_iff in Hneg as [?|?] |]; lia.
Qed.

Lemma np_random_randint_Ok low high g x g' :
  np_random_randint low high g = Ok (x, g') → low ≤ x < high.
Proof.
  unfold np_random_randint. case_match; intros Hrun; inv_M.
  pose proof (Z.mod_pos_bound (Z.of_nat a) (high - low)). lia.
Qed.

Lemma np_random_randint_is_Ok low high g :
  low < high → ∃ x g', np_random_randint low high g = Ok (x, g').
Proof.
  intros. unfold np_random_randint. case_match; [lia |].
  unfold bind, np_draw, ret. eauto.
Qed.

(** The start coordinate is a grid cell when the grid has one and the
    caller's coordinate, if any, is one. *)
Lemma _random_start_coord_in_grid grid_shape start_coord g start g' :
  0 < grid_shape.1 → 0 < grid_shape.2 → start_in_grid grid_shape start_coord →
  _random_start_coord grid_shape start_coord g = Ok (start, g') →
  in_grid grid_shape.1 grid_shape.2 start.
Proof.
  intros Hr Hc Hs. unfold _random_start_coord.
  destruct start_coord as [sc|]; intros H; inv_M; [by apply Hs |].
  apply np_random_randint_Ok in Hm, Hm0. unfold in_grid. simpl. lia.
Qed.

Lemma _random_start_coord_is_Ok grid_shape start_coord g :
  ∃ start g', _random_start_coord grid_shape start_coord g = Ok (start, g').
Proof.
  unfold _random_start_coord. destruct start_coord as [sc|]; [unfold ret; eauto |].
  destruct (np_random_randint_is_Ok 0 (Z.max (grid_shape.1 - 1) 1) g) as (r & g1 & Hr); [lia |].
  destruct (np_random_randint_is_Ok 0 (Z.max (grid_shape.2 - 1) 1) g1) as (c & g2 & Hc); [lia |].
  exists (r, c), g2. unfold bind. rewrite Hr, Hc. done.
Qed.

(* ===================================================================== *)
(** ** Termination of the loop of [gen_dfs] *)
(* ===================================================================== *)

Lemma dfs_step_shape dim rows cols grid_shape max_tree_depth do_forks st st' :
  has_shape3 dim rows cols (dfs_connection_list st) →
  dfs_step grid_shape max_tree_depth do_forks st st' →
  has_shape3 dim rows cols (dfs_connection_list st').
Proof.
  intros Hshape Hstep. destruct Hstep; simpl; [by eapply set3_shape | done].
Qed.

(** The body never fails on a stack that is not empty: the entry it writes
    exists, even when the popped cell is the caller's out-of-grid start,
    because the chosen neighbour is a grid cell. *)
Lemma dfs_body_is_Ok dim grid_shape max_tree_depth do_forks st g :
  has_shape3 dim (Z.to_nat grid_shape.1) (Z.to_nat grid_shape.2)
             (dfs_connection_list st) →
  (2 ≤ dim)%nat → dfs_stack st ≠ [] →
  ∃ st' g', dfs_body grid_shape max_tree_depth do_forks st g = Ok (st', g').
Proof.
  intros Hshape Hdim Hne. unfold dfs_body.
  destruct (dfs_stack st) as [|current rest]; [done |].
  destruct (negb _ && _) eqn:Hc; [| unfold ret; eauto].
  apply andb_true_iff in Hc as [Hnds _].
  apply negb_true_iff, bool_decide_eq_false in Hnds.
  destruct (random_choice_is_Ok _ g Hnds) as (nd & g1 & Hch).
  unfold bind at 1. rewrite Hch.
  apply random_choice_Ok, elem_of_unvisited_neighbors_deltas in Hch
    as (_ & [Hg1 Hg2] & Hmask & Heq).
  destruct (carve_edge current _ Hmask) as (d & lo & Hd & Hlo & Hd2 & Hj).
  rewrite <- Heq in *. rewrite Hd, Hlo.
  destruct nd as [[nr nc] delta]. simpl in *.
  destruct (set3_is_Some (dfs_connection_list st) (Z.of_nat d) lo true _ _ _ Hshape)
    as [cl' Hset].
  - lia.
  - destruct Hj as [Hj|Hj]; unfold edge_cells in Hj; destruct lo, d as [|?];
      simpl in *; simplify_eq; simpl in *; lia.
  - destruct Hj as [Hj|Hj]; unfold edge_cells in Hj; destruct lo, d as [|?];
      simpl in *; simplify_eq; simpl in *; lia.
  - unfold bind, or_raise. rewrite Hset. unfold ret. eauto.
Qed.

Lemma size_difference_fresh (cells visited : gset Coord) x :
  x ∈ cells → x ∉ visited →
  size (cells ∖ visited) = S (size (cells ∖ ({[x]} ∪ visited))).
Proof.
  intros Hx Hfresh. rewrite <- (size_add_fresh x) by set_solver.
  f_equal. apply set_eq. intros y.
  destruct (decide (y = x)) as [->|]; set_solver.
Qed.

(** Every pass through the body lowers the variant: a carving step visits
    a new grid cell, a backtracking step shortens the stack. *)
Lemma dfs_step_measure grid_shape max_tree_depth do_forks st st' :
  dfs_step grid_shape max_tree_depth do_forks st st' →
  (dfs_measure grid_shape st' < dfs_measure grid_shape st)%nat.
Proof.
  intros Hstep. unfold dfs_measure.
  destruct Hstep as [current rest chosen d lo cl' Hst Hfresh Hgrid Hdepth Hd Hj Hset
                    |current rest Hst Hback]; simpl; rewrite Hst; simpl.
  - rewrite (size_difference_fresh _ (dfs_visited_cells st) chosen); [| | done].
    + destruct do_forks; simpl; lia.
    + by apply elem_of_list_to_set, elem_of_all_cells.
  - lia.
Qed.

Lemma dfs_loop_is_Ok dim grid_shape n_acc max_tree_depth do_forks :
  (2 ≤ dim)%nat →
  ∀ fuel st g,
    has_shape3 dim (Z.to_nat grid_shape.1) (Z.to_nat grid_shape.2)
               (dfs_connection_list st) →
    (dfs_measure grid_shape st ≤ fuel)%nat →
    ∃ st' g', dfs_loop grid_shape n_acc max_tree_depth do_forks fuel st g = Ok (st', g').
Proof.
  intros Hdim fuel. induction fuel as [|fuel IH]; intros st g Hshape Hm; simpl.
  - destruct (dfs_continue n_acc st) eqn:Hc; [| unfold ret; eauto].
    unfold dfs_continue in Hc. unfold dfs_measure in Hm.
    destruct (dfs_stack st); [done | simpl in Hm; lia].
  - destruct (dfs_continue n_acc st) eqn:Hc; [| unfold ret; eauto].
    destruct (dfs_body_is_Ok dim grid_shape max_tree_depth do_forks st g)
      as (st1 & g1 & Hbody); [done | done | |].
    { unfold dfs_continue in Hc. by destruct (dfs_stack st). }
    unfold bind. rewrite Hbody.
    pose proof (dfs_body_step _ _ _ _ _ _ _ Hbody) as Hstep.
    apply IH.
    + by eapply dfs_step_shape.
    + apply dfs_step_measure in Hstep. lia.
Qed.



Lemma dfs_measure_init grid_shape cl start :
  0 ≤ grid_shape.1 → 0 ≤ grid_shape.2 →
  (dfs_measure grid_shape (dfs_init cl start) ≤ dfs_fuel grid_shape)%nat.
Proof.
  intros Hr Hc. unfold dfs_measure, dfs_fuel. simpl.
  rewrite <- (size_all_cells grid_shape.1 grid_shape.2) by done.
  assert (size (list_to_set (all_cells grid_shape.1 grid_shape.2) ∖ {[start]} : gset Coord)
          ≤ size (list_to_set (all_cells grid_shape.1 grid_shape.2) : gset Coord))%nat
    by (apply subseteq_size; set_solver).
  lia.
Qed.

(* ===================================================================== *)
(** ** [gen_dfs] as a whole *)
(* ===================================================================== *)

Lemma gen_dfs_Ok fuel grid_shape lattice_dim n_acc max_depth do_forks start_coord
    g maze g' :
  gen_dfs fuel grid_shape lattice_dim n_acc max_depth do_forks start_coord g
    = Ok (maze, g') →
  ∃ start g1 st,
    _random_start_coord grid_shape start_coord g = Ok (start, g1)
    ∧ 0 ≤ lattice_dim ∧ 0 ≤ grid_shape.1 ∧ 0 ≤ grid_shape.2
    ∧ dfs_loop grid_shape (default (grid_shape.1 * grid_shape.2) n_acc)
        (default (2 * (grid_shape.1 * grid_shape.2)) max_depth) do_forks fuel
        (dfs_init (replicate (Z.to_nat lattice_dim)
                     (replicate (Z.to_nat grid_shape.1)
                        (replicate (Z.to_nat grid_shape.2) false))) start) g1
       = Ok (st, g')
    ∧ maze = dfs_result grid_shape start (default (grid_shape.1 * grid_shape.2) n_acc)
               (default (2 * (grid_shape.1 * grid_shape.2)) max_depth) st.
Proof.
  unfold gen_dfs. intros H. inv_M.
  apply np_full3_Ok in Hm0 as (? & ? & ? & -> & ->).
  eauto 10.
Qed.

Lemma gen_dfs_is_Ok fuel grid_shape lattice_dim n_acc max_depth do_forks start_coord g :
  0 ≤ grid_shape.1 → 0 ≤ grid_shape.2 → 2 ≤ lattice_dim →
  (dfs_fuel grid_shape ≤ fuel)%nat →
  ∃ maze g',
    gen_dfs fuel grid_shape lattice_dim n_acc max_depth do_forks start_coord g
      = Ok (maze, g').
Proof.
  intros Hr Hc Hdim Hfuel. unfold gen_dfs.
  destruct (_random_start_coord_is_Ok grid_shape start_coord g) as (start & g1 & Hs).
  unfold bind at 1. rewrite Hs.
  unfold bind at 1. rewrite np_full3_is_Ok by lia.
  match goal with |- context [dfs_loop ?gs ?n ?m ?f fuel ?st] =>
    destruct (dfs_loop_is_Ok (Z.to_nat lattice_dim) gs n m f ltac:(lia) fuel st g1)
      as (st' & g2 & Hloop) end.
  { apply has_shape3_replicate. }
  { etrans; [by apply dfs_measure_init | done]. }
  unfold bind. rewrite Hloop. unfold ret. eauto.
Qed.


(** The state on entry satisfies every invariant. *)
Lemma dfs_init_wf dim grid_shape start :
  in_grid grid_shape.1 grid_shape.2 start →
  dfs_wf dim grid_shape
    (dfs_init (replicate dim (replicate (Z.to_nat grid_shape.1)
                                (replicate (Z.to_nat grid_shape.2) false))) start).
Proof.
  intros Hs. split; [apply has_shape3_replicate |]. simpl.
  split; intros x Hx.
  - apply elem_of_singleton in Hx. by subst.
  - apply list_elem_of_singleton in Hx. set_solver.
Qed.

Lemma boundary_walls_zeros rows cols dim r c :
  boundary_walls rows cols (replicate dim (replicate r (replicate c false))).
Proof. split; intros; apply cl_at_zeros. Qed.

Lemma dfs_init_corridor dim rows cols start :
  dfs_corridor (dfs_init (replicate dim (replicate rows (replicate cols false))) start).
Proof.
  unfold dfs_corridor. simpl. split; [lia |].
  split; [| split]; intros; rewrite degree_zeros; lia.
Qed.

Lemma dfs_init_path dim rows cols start :
  dfs_path start
    (dfs_init (replicate dim (replicate rows (replicate cols false))) start) [start].
Proof.
  unfold dfs_path, simple_path. simpl.
  split; [done |]. split; [set_solver |]. split; [by right |].
  split; [apply NoDup_singleton |]. split.
  - intros [|i] a b Ha Hb; done.
  - intros d r c _ Hcl. by rewrite cl_at_zeros in Hcl.
Qed.

Lemma dfs_result_meta_cells grid_shape start n_acc max_depth st :
  meta_cells (dfs_result grid_shape start n_acc max_depth st)
  = Some (dfs_visited_cells st).
Proof. reflexivity. Qed.

Lemma dfs_result_fully_connected grid_shape start n_acc max_depth st :
  meta_bool "fully_connected" (dfs_result grid_shape start n_acc max_depth st)
  = Some (bool_decide (Z.of_nat (size (dfs_visited_cells st)) = n_acc)).
Proof. reflexivity. Qed.

Lemma dfs_result_n_accessible_cells grid_shape start n_acc max_depth st :
  meta_int "n_accessible_cells" (dfs_result grid_shape start n_acc max_depth st)
  = Some n_acc.
Proof. reflexivity. Qed.

Lemma dfs_result_start_coord grid_shape start n_acc max_depth st :
  generation_meta (dfs_result grid_shape start n_acc max_depth st) !! "start_coord"
  = Some (VCoord start).
Proof. reflexivity. Qed.

(** What [gen_dfs] guarantees of its final loop state when the start is a
    grid cell, whatever the other arguments. *)
Lemma dfs_loop_general grid_shape dim n_acc max_depth do_forks fuel start g st g' :
  in_grid grid_shape.1 grid_shape.2 start →
  dfs_loop grid_shape n_acc max_depth do_forks fuel
    (dfs_init (replicate dim (replicate (Z.to_nat grid_shape.1)
                                (replicate (Z.to_nat grid_shape.2) false))) start) g
    = Ok (st, g') →
  dfs_wf dim grid_shape st
  ∧ boundary_walls grid_shape.1 grid_shape.2 (dfs_connection_list st).
Proof.
  intros Hs Hloop.
  eapply (dfs_loop_invariant
            (λ st, dfs_wf dim grid_shape st
                   ∧ boundary_walls grid_shape.1 grid_shape.2 (dfs_connection_list st)))
    in Hloop as [HP _]; [done | |].
  - intros st1 st2 _ [Hwf Hb] Hstep. split.
    + by eapply dfs_step_wf.
    + by eapply dfs_step_boundary.
  - split; [by apply dfs_init_wf | apply boundary_walls_zeros].
Qed.

Lemma dfs_loop_no_forks grid_shape dim n_acc max_depth fuel start g st g' :
  in_grid grid_shape.1 grid_shape.2 start →
  dfs_loop grid_shape n_acc max_depth false fuel
    (dfs_init (replicate dim (replicate (Z.to_nat grid_shape.1)
                                (replicate (Z.to_nat grid_shape.2) false))) start) g
    = Ok (st, g') →
  dfs_corridor st ∧ ∃ path, dfs_path start st path.
Proof.
  intros Hs Hloop.
  eapply (dfs_loop_invariant
            (λ st, dfs_wf dim grid_shape st ∧ dfs_corridor st
                   ∧ ∃ path, dfs_path start st path))
    in Hloop as [(_ & Hc & Hp) _]; [done | |].
  - intros st1 st2 _ (Hwf & Hc & path & Hp) Hstep. split; [| split].
    + by eapply dfs_step_wf.
    + by eapply dfs_step_corridor.
    + by eapply dfs_step_path.
  - split; [by apply dfs_init_wf |]. split; [apply dfs_init_corridor |].
    eexists. apply dfs_init_path.
Qed.


Lemma dfs_loop_exit grid_shape n_acc max_depth do_forks fuel st g st' g' :
  dfs_loop grid_shape n_acc max_depth do_forks fuel st g = Ok (st', g') →
  dfs_stack st' = [] ∨ n_acc ≤ Z.of_nat (size (dfs_visited_cells st')).
Proof.
  intros Hloop.
  eapply (dfs_loop_invariant (λ _, True)) in Hloop as [_ Hc]; [| done | done].
  unfold dfs_continue in Hc. destruct (dfs_stack st'); [by left |].
  right. apply Z.ltb_ge in Hc. lia.
Qed.

(* ===================================================================== *)
(** ** Claims about [gen_dfs] *)
(* ===================================================================== *)



(** C6, as amended.  Every call of [gen_dfs] with [do_forks=False] on a
    grid with positive sides and at most [2 ^ 52] cells, with
    [lattice_dim >= 2], a start coordinate that is [None] or a cell of the
    grid, and [max_tree_depth] at most [2 ^ 1024] in absolute value, returns
    a maze in which every cell has open-edge degree at most 2, and whose
    carved region is one simple path: the visited cells, listed from the
    last one carved back to the start coordinate, never repeat, consecutive
    ones are joined by an open edge, and the maze has no other open edge. *)
Theorem gen_dfs_no_forks_single_path (fuel : nat) (grid_shape : Coord)
    (lattice_dim : Z) (n_accessible_cells max_tree_depth : option Z)
    (start_coord : option Coord) (g : rng) :
  0 < grid_shape.1 → 0 < grid_shape.2 → 2 ≤ lattice_dim →
  start_in_grid grid_shape start_coord →
  float_exact grid_shape
    (default (2 * (grid_shape.1 * grid_shape.2)) max_tree_depth) →
  (dfs_fuel grid_shape ≤ fuel)%nat →
  ∃ maze g',
    gen_dfs fuel grid_shape lattice_dim n_accessible_cells max_tree_depth
      false start_coord g = Ok (maze, g')
    ∧ (∀ x, (degree (connection_list maze) x ≤ 2)%nat)
    ∧ ∃ path start,
        simple_path (connection_list maze) path
        ∧ meta_cells maze = Some (list_to_set path)
        ∧ generation_meta maze !! "start_coord" = Some (VCoord start)
        ∧ last path = Some start.
Proof.
  intros Hr Hc Hdim Hstart _ Hfuel.
  destruct (gen_dfs_is_Ok fuel grid_shape lattice_dim n_accessible_cells
              max_tree_depth false start_coord g) as (maze & g' & Hgen);
    [lia | lia | done | done |].
  exists maze, g'. split; [done |].
  apply gen_dfs_Ok in Hgen as (start & g1 & st & Hs & _ & _ & _ & Hloop & ->).
  apply _random_start_coord_in_grid in Hs; [| done | done | done].
  apply dfs_loop_no_forks in Hloop as [(_ & _ & Htwo & _) (path & Hp)]; [| done].
  split; [apply Htwo |].
  destruct Hp as (Hlast & Hvis & _ & Hsimple).
  exists path, start. rewrite dfs_result_meta_cells, dfs_result_start_coord.
  simpl. by rewrite Hvis.
Qed.

Lemma gen_dfs_no_forks_single_path_witness :
  (0 < 3 ∧ 0 < 3 ∧ 2 ≤ 2 ∧ start_in_grid (3, 3) (Some (0, 0))
   ∧ float_exact (3, 3) (2 * (3 * 3)) ∧ (dfs_fuel (3, 3)%Z ≤ 20)%nat)
  ∧ ∃ maze g',
      gen_dfs 20 (3, 3) 2 None None false (Some (0, 0)) (const_rng 0) = Ok (maze, g')
      ∧ (∀ x, (degree (connection_list maze) x ≤ 2)%nat)
      ∧ ∃ path start,
          simple_path (connection_list maze) path
          ∧ meta_cells maze = Some (list_to_set path)
          ∧ generation_meta maze !! "start_coord" = Some (VCoord start)
          ∧ last path = Some start.
Proof.
  assert (start_in_grid (3, 3) (Some (0, 0))) as Hs.
  { intros sc [= <-]. unfold in_grid. simpl. lia. }
  assert (float_exact (3, 3) (2 * (3 * 3))) as Hf.
  { unfold float_exact. simpl. lia. }
  split.
  { split; [lia | split; [lia | split; [lia | split; [exact Hs |]]]].
    split; [exact Hf | vm_compute; lia]. }
  apply (gen_dfs_no_forks_single_path 20 (3, 3) 2 None None (Some (0, 0)) (const_rng 0));
    [simpl; lia | simpl; lia | lia | exact Hs | exact Hf | vm_compute; lia].
Defined.

(** C6, as stated, fails: [gen_dfs] does not check [start_coord].  On a
    2 x 2 grid with [do_forks=False] and the start [(0, -1)], left of the
    grid, the first edge is written at [connection_list[1, 0, -1]], which
    numpy reads as the last column: the entry to the right of [(0, 1)].
    The walk then passes through [(0, 0)], [(0, 1)] and [(1, 1)], and the
    returned maze has three open edges at the cell [(0, 1)]. *)
Lemma gen_dfs_no_forks_degree_three :
  ∃ maze g',
    gen_dfs 20 (2, 2) 2 None None false (Some (0, -1)) (const_rng 0) = Ok (maze, g')
    ∧ connection_list maze
      = [[[false; true]; [false; false]]; [[true; true]; [false; false]]]
    ∧ degree (connection_list maze) (0, 1) = 3%nat
    ∧ ¬ ∀ x, (degree (connection_list maze) x ≤ 2)%nat.
Proof.
  eexists _, _. split; [vm_compute; reflexivity |].
  split; [reflexivity |]. split; [reflexivity |].
  intros Hall. specialize (Hall (0, 1)). vm_compute in Hall. lia.
Qed.

(* ===================================================================== *)
(** ** The component walker *)
(* ===================================================================== *)

Lemma has_shape3_dims dim rows cols (a : ConnectionList) :
  has_shape3 dim rows cols a → (0 < dim)%nat → (0 < rows)%nat →
  cl_rows a = rows ∧ cl_cols a = cols.
Proof.
  intros [Hl Hf] Hd Hr.
  destruct a as [|plane a]; [simpl in Hl; lia |].
  apply Forall_cons in Hf as [[Hp Hrow] _]. simpl.
  split; [done |].
  destruct plane as [|row plane]; [simpl in Hp; lia |].
  by apply Forall_cons in Hrow as [? _].
Qed.

Lemma elem_of_open_neighbors cl x y :
  y ∈ open_neighbors cl x ↔
  in_grid (Z.of_nat (cl_rows cl)) (Z.of_nat (cl_cols cl)) y
  ∧ nodes_connected cl x y = true
  ∧ y ∈ map (coord_add x) NEIGHBORS_MASK.
Proof. unfold open_neighbors. rewrite list_elem_of_filter. tauto. Qed.

Lemma nodes_connected_adjacent cl (a b : Coord) :
  nodes_connected cl a b = true → b ∈ map (coord_add a) NEIGHBORS_MASK.
Proof.
  unfold nodes_connected, NEIGHBORS_MASK, coord_add. simpl.
  rewrite !elem_of_cons. destruct a as [r c]. simpl.
  repeat case_bool_decide; try done; intros _; subst.
  - right; right; left. f_equal; lia.
  - left. f_equal; lia.
  - right; right; right; left. f_equal; lia.
  - right; left. f_equal; lia.
Qed.

Lemma elem_of_expand_component (cl : ConnectionList) (s : gset Coord) y :
  y ∈ expand_component cl s ↔ y ∈ s ∨ ∃ x, x ∈ s ∧ y ∈ open_neighbors cl x.
Proof.
  unfold expand_component.
  rewrite elem_of_union, elem_of_list_to_set, list_elem_of_bind.
  setoid_rewrite elem_of_elements. naive_solver.
Qed.

Lemma expand_component_mono (cl cl' : ConnectionList) (s s' : gset Coord) :
  cl_le cl cl' → cl_rows cl = cl_rows cl' → cl_cols cl = cl_cols cl' → s ⊆ s' →
  expand_component cl s ⊆ expand_component cl' s'.
Proof.
  intros Hle Hr Hc Hs y. rewrite !elem_of_expand_component.
  intros [Hy|(x & Hx & Hy)]; [left; auto |].
  right. exists x. split; [auto |].
  apply elem_of_open_neighbors in Hy as (Hg & Hn & Hm).
  apply elem_of_open_neighbors. rewrite <- Hr, <- Hc.
  eauto using nodes_connected_mono.
Qed.

Lemma iter_expand_mono (cl cl' : ConnectionList) (s s' : gset Coord) k :
  cl_le cl cl' → cl_rows cl = cl_rows cl' → cl_cols cl = cl_cols cl' → s ⊆ s' →
  Nat.iter k (expand_component cl) s ⊆ Nat.iter k (expand_component cl') s'.
Proof.
  intros Hle Hr Hc Hs. induction k as [|k IH]; [done |]. simpl.
  by apply expand_component_mono.
Qed.

Lemma iter_expand_le (cl : ConnectionList) (s : gset Coord) k k' :
  (k ≤ k')%nat →
  Nat.iter k (expand_component cl) s ⊆ Nat.iter k' (expand_component cl) s.
Proof.
  induction 1 as [|k' _ IH]; [done |]. simpl.
  etrans; [apply IH |]. intros y Hy. apply elem_of_expand_component. by left.
Qed.

(** *** The walker computes the reachable set *)

Lemma iter_expand_start (cl : ConnectionList) (c : Coord) k :
  c ∈ Nat.iter k (expand_component cl) {[c]}.
Proof.
  apply (iter_expand_le cl {[c]} 0 k); [lia |]. simpl. set_solver.
Qed.

Lemma iter_expand_sound (cl : ConnectionList) (c x : Coord) k :
  x ∈ Nat.iter k (expand_component cl) {[c]} → reachable cl c x.
Proof.
  revert x. induction k as [|k IH]; intros x; simpl.
  - intros Hx. apply elem_of_singleton in Hx as ->. apply rtc_refl.
  - rewrite elem_of_expand_component. intros [Hx|(y & Hy & Hx)]; [by apply IH |].
    eapply rtc_r; [by apply IH | done].
Qed.

Lemma iter_expand_in_grid (cl : ConnectionList) (c x : Coord) k :
  x ∈ Nat.iter k (expand_component cl) {[c]} →
  x ∈ ({[c]} ∪ list_to_set (all_cells (Z.of_nat (cl_rows cl)) (Z.of_nat (cl_cols cl)))
       : gset Coord).
Proof.
  revert x. induction k as [|k IH]; intros x; simpl; [set_solver |].
  rewrite elem_of_expand_component. intros [Hx|(y & Hy & Hx)]; [by apply IH |].
  apply elem_of_open_neighbors in Hx as (Hg & _ & _).
  apply elem_of_union_r, elem_of_list_to_set, elem_of_all_cells. done.
Qed.

(** Each round either finds a new cell or the set has stopped growing. *)
Lemma iter_expand_growth (cl : ConnectionList) (c : Coord) k :
  (k + 1 ≤ size (Nat.iter k (expand_component cl) {[c]}))%nat
  ∨ expand_component cl (Nat.iter k (expand_component cl) {[c]})
    = Nat.iter k (expand_component cl) {[c]}.
Proof.
  induction k as [|k IH].
  { left. change (Nat.iter 0 (expand_component cl) {[c]}) with ({[c]} : gset Coord).
    rewrite size_singleton. lia. }
  simpl. set (s := Nat.iter k (expand_component cl) {[c]}) in *.
  destruct (decide (expand_component cl s = s)) as [Heq|Hne].
  { right. by rewrite !Heq. }
  destruct IH as [Hsize|Heq]; [| done].
  left. assert (s ⊂ expand_component cl s) as Hsub.
  { split.
    - intros y Hy. apply elem_of_expand_component. by left.
    - intros Hback. apply Hne. apply set_eq. intros y. split; [apply Hback |].
      intros Hy. apply elem_of_expand_component. by left. }
  apply subset_size in Hsub. lia.
Qed.

Lemma component_closed (cl : ConnectionList) (c : Coord) :
  expand_component cl (gen_connected_component_from cl c)
  = gen_connected_component_from cl c.
Proof.
  unfold gen_connected_component_from.
  set (n := (cl_rows cl * cl_cols cl)%nat).
  set (s := Nat.iter n (expand_component cl) {[c]}).
  set (u := ({[c]} ∪ list_to_set (all_cells (Z.of_nat (cl_rows cl))
                                            (Z.of_nat (cl_cols cl))) : gset Coord)).
  destruct (iter_expand_growth cl c n) as [Hsize|Heq]; [| done].
  fold s in Hsize.
  assert (s ⊆ u) as Hsu by (intros y Hy; by eapply iter_expand_in_grid).
  assert (size u ≤ n + 1)%nat as Hu.
  { unfold u. rewrite size_union_alt, size_singleton.
    assert (size (list_to_set (all_cells (Z.of_nat (cl_rows cl)) (Z.of_nat (cl_cols cl)))
                  ∖ {[c]} : gset Coord) ≤ n)%nat; [| lia].
    etrans; [apply subseteq_size; apply subseteq_difference_l; reflexivity |].
    rewrite size_all_cells by lia. unfold n. lia. }
  assert (s = u) as Hs.
  { apply set_eq. apply set_subseteq_size_equiv; [done | lia]. }
  apply set_eq. intros y. rewrite elem_of_expand_component.
  split; [| by left]. intros [Hy|(x & Hx & Hy)]; [done |].
  rewrite Hs. apply elem_of_open_neighbors in Hy as (Hg & _ & _).
  apply elem_of_union_r, elem_of_list_to_set, elem_of_all_cells. done.
Qed.

(** The model of the walker returns exactly the cells reachable from the
    start through open edges. *)
Lemma gen_connected_component_from_spec (cl : ConnectionList) (c x : Coord) :
  x ∈ gen_connected_component_from cl c ↔ reachable cl c x.
Proof.
  split; [apply iter_expand_sound |].
  intros Hreach.
  eapply (rtc_ind_r (λ x, x ∈ gen_connected_component_from cl c));
    [| | exact Hreach].
  - apply iter_expand_start.
  - intros y z _ Hstep IH.
    rewrite <- component_closed. apply elem_of_expand_component. right. eauto.
Qed.

Lemma dfs_step_reach dim grid_shape max_tree_depth do_forks start st st' :
  (0 < dim)%nat → 0 < grid_shape.1 → 0 < grid_shape.2 →
  dfs_wf dim grid_shape st → dfs_reach start st →
  dfs_step grid_shape max_tree_depth do_forks st st' →
  dfs_reach start st'.
Proof.
  intros Hdim Hr Hc Hwf Hreach Hstep.
  pose proof (dfs_step_wf _ _ _ _ _ _ Hwf Hstep) as Hwf'.
  destruct Hstep as [current rest chosen d lo cl' Hst Hfresh Hgrid Hdepth Hd Hj Hset
                    |current rest Hst Hback]; unfold dfs_reach in *; simpl in *; [| done].
  destruct (dfs_carve_in_grid _ _ _ _ _ _ _ _ Hwf Hst Hgrid Hj) as [[Hlo1 Hlo2] _].
  destruct Hwf as (Hshape & Hvis & Hstack).
  destruct Hwf' as (Hshape' & _ & _). simpl in Hshape'.
  destruct (has_shape3_dims _ _ _ _ Hshape) as [Hrows Hcols]; [done | lia |].
  destruct (has_shape3_dims _ _ _ _ Hshape') as [Hrows' Hcols']; [done | lia |].
  assert (current ∈ dfs_visited_cells st) as Hcur
    by (apply Hstack; rewrite Hst; set_solver).
  assert (size (dfs_visited_cells st) ≠ 0)%nat as Hpos
    by (apply size_non_empty_iff; set_solver).
  rewrite size_add_fresh by done.
  replace (S (size (dfs_visited_cells st)) - 1)%nat
    with (S (size (dfs_visited_cells st) - 1)) by lia.
  assert (cl_le (dfs_connection_list st) cl') as Hmono
    by (eapply cl_le_set3; [done | lia | lia]).
  assert (∀ v, v ∈ dfs_visited_cells st →
               v ∈ Nat.iter (size (dfs_visited_cells st) - 1)
                            (expand_component cl') {[start]}) as Hold.
  { intros v Hv. eapply iter_expand_mono; [done | | | done | by apply Hreach];
      congruence. }
  intros v Hv. simpl. apply elem_of_expand_component.
  apply elem_of_union in Hv as [Hv|Hv]; [| left; by apply Hold].
  apply elem_of_singleton in Hv as ->.
  right. exists current. split; [by apply Hold |].
  assert (nodes_connected cl' current chosen = true) as Hconn.
  { eapply joins_nodes_connected; [done | done |].
    rewrite (cl_at_set3 _ _ _ _ _ _ _ Hset) by lia. by rewrite bool_decide_eq_true_2. }
  apply elem_of_open_neighbors. rewrite Hrows', Hcols', !Z2Nat.id by lia.
  split; [done |]. split; [done |]. by eapply nodes_connected_adjacent.
Qed.

Lemma dfs_step_bounded grid_shape n_acc max_tree_depth do_forks st st' :
  dfs_continue n_acc st = true → dfs_bounded n_acc st →
  dfs_step grid_shape max_tree_depth do_forks st st' →
  dfs_bounded n_acc st'.
Proof.
  unfold dfs_bounded, dfs_continue. intros Hc Hb Hstep.
  destruct Hstep as [current rest chosen d lo cl' Hst Hfresh Hgrid Hdepth Hd Hj Hset
                    |current rest Hst Hback]; simpl; [| done].
  rewrite Hst in Hc. apply Z.ltb_lt in Hc.
  rewrite size_add_fresh by done. lia.
Qed.

(** The invariants of the loop that hold for every setting of [do_forks]. *)
Lemma dfs_loop_reach grid_shape dim n_acc max_depth do_forks fuel start g st g' :
  (0 < dim)%nat → 0 < grid_shape.1 → 0 < grid_shape.2 →
  in_grid grid_shape.1 grid_shape.2 start →
  dfs_loop grid_shape n_acc max_depth do_forks fuel
    (dfs_init (replicate dim (replicate (Z.to_nat grid_shape.1)
                                (replicate (Z.to_nat grid_shape.2) false))) start) g
    = Ok (st, g') →
  dfs_wf dim grid_shape st ∧ dfs_reach start st ∧ dfs_bounded n_acc st
  ∧ start ∈ dfs_visited_cells st.
Proof.
  intros Hdim Hr Hc Hs Hloop.
  eapply (dfs_loop_invariant
            (λ st, dfs_wf dim grid_shape st ∧ dfs_reach start st ∧ dfs_bounded n_acc st
                   ∧ start ∈ dfs_visited_cells st))
    in Hloop as [HP _]; [done | |].
  - intros st1 st2 Hcont (Hwf & Hreach & Hb & Hin) Hstep.
    split; [by eapply dfs_step_wf |]. split; [by eapply dfs_step_reach |].
    split; [by eapply dfs_step_bounded |].
    destruct Hstep; simpl; set_solver.
  - split; [by apply dfs_init_wf |]. split; [| split].
    + unfold dfs_reach, dfs_init. cbn [dfs_visited_cells dfs_connection_list].
      intros v Hv. by rewrite size_singleton.
    + unfold dfs_bounded, dfs_init. cbn [dfs_visited_cells].
      rewrite size_singleton. lia.
    + unfold dfs_init. cbn [dfs_visited_cells]. set_solver.
Qed.

(* ===================================================================== *)
(** ** Percolation: sampling, clamping and merging *)
(* ===================================================================== *)

Lemma replicateM_Ok {A} (P : A → Prop) (m : M A) n g l g' :
  (∀ g x g', m g = Ok (x, g') → P x) →
  replicateM n m g = Ok (l, g') → length l = n ∧ Forall P l.
Proof.
  intros HP. revert g l g'. induction n as [|n IH]; intros g l g' Hrun; simpl in Hrun; inv_M.
  - done.
  - apply IH in Hm0 as [<- ?]. split; [done |]. apply Forall_cons. eauto.
Qed.

Lemma replicateM_is_Ok {A} (m : M A) n :
  (∀ g, ∃ x g', m g = Ok (x, g')) →
  ∀ g, ∃ l g', replicateM n m g = Ok (l, g').
Proof.
  intros Hm. induction n as [|n IH]; intros g; simpl; [unfold ret; eauto |].
  destruct (Hm g) as (x & g1 & Hx). destruct (IH g1) as (l & g2 & Hl).
  unfold bind. rewrite Hx, Hl. unfold ret. eauto.
Qed.

Lemma np_random_rand3_Ok dim rows cols g samples g' :
  np_random_rand3 dim rows cols g = Ok (samples, g') →
  0 ≤ dim ∧ 0 ≤ rows ∧ 0 ≤ cols
  ∧ has_shape3 (Z.to_nat dim) (Z.to_nat rows) (Z.to_nat cols) samples.
Proof.
  unfold np_random_rand3. case_match eqn:Hneg; intros Hrun; [done |].
  apply orb_false_iff in Hneg as [Hneg ?]. apply orb_false_iff in Hneg as [? ?].
  split; [lia |]. split; [lia |]. split; [lia |].
  eapply replicateM_Ok in Hrun; [exact Hrun |].
  intros g1 plane g1' Hplane. simpl.
  eapply replicateM_Ok in Hplane; [exact Hplane |].
  intros g2 row g2' Hrow. simpl.
  eapply (replicateM_Ok (λ _, True)) in Hrow as [? _]; done.
Qed.

Lemma np_random_rand3_is_Ok dim rows cols g :
  0 ≤ dim → 0 ≤ rows → 0 ≤ cols →
  ∃ samples g', np_random_rand3 dim rows cols g = Ok (samples, g').
Proof.
  intros. unfold np_random_rand3. case_match eqn:Hneg.
  { apply orb_true_iff in Hneg as [Hneg|?]; [apply orb_true_iff in Hneg as [?|?] |]; lia. }
  apply replicateM_is_Ok. intros g1. apply replicateM_is_Ok. intros g2.
  apply replicateM_is_Ok. intros g3. unfold np_random_sample, bind, np_draw, ret. eauto.
Qed.

Lemma below_shape p dim rows cols samples :
  has_shape3 dim rows cols samples → has_shape3 dim rows cols (below p samples).
Proof.
  intros [Hl Hf]. unfold below. split; [by rewrite length_map |].
  apply Forall_fmap. eapply Forall_impl; [exact Hf |].
  intros plane [Hp Hrows]. simpl. split; [by rewrite length_map |].
  apply Forall_fmap. eapply Forall_impl; [exact Hrows |].
  intros row Hrow. simpl. by rewrite length_map.
Qed.


(** The clamped array satisfies the boundary-wall invariant. *)
Lemma _fill_edges_with_walls_boundary dim rows cols (cl : ConnectionList) :
  has_shape3 dim rows cols cl →
  boundary_walls (Z.of_nat rows) (Z.of_nat cols) (_fill_edges_with_walls cl).
Proof.
  intros [Hl Hf]. unfold _fill_edges_with_walls, boundary_walls, cl_at.
  split; intros i Hi.
  - case_match; [done |].
    rewrite list_lookup_imap.
    destruct (cl !! 0%nat) as [plane|] eqn:Hplane; [| done]. simpl.
    destruct (Forall_lookup_1 _ _ _ _ Hf Hplane) as [Hp _].
    replace (Z.to_nat (Z.of_nat rows - 1)) with (pred (length plane)) by lia.
    rewrite list_lookup_insert_eq by lia. simpl.
    destruct (replicate (cl_cols cl) false !! Z.to_nat i) as [b|] eqn:Hb; [| done].
    by apply lookup_replicate in Hb as [-> _].
  - case_match; [done |].
    rewrite list_lookup_imap.
    destruct (cl !! 1%nat) as [plane|] eqn:Hplane; [| done]. simpl.
    destruct (Forall_lookup_1 _ _ _ _ Hf Hplane) as [_ Hrows].
    rewrite list_lookup_fmap.
    destruct (plane !! Z.to_nat i) as [row|] eqn:Hrow; [| done]. simpl.
    pose proof (Forall_lookup_1 _ _ _ _ Hrows Hrow) as Hlen. simpl in Hlen.
    replace (Z.to_nat (Z.of_nat cols - 1)) with (pred (length row)) by lia.
    rewrite list_lookup_insert_eq by lia. done.
Qed.

Lemma cl_at_logical_or a b d r c :
  cl_at (logical_or a b) d r c = true →
  cl_at a d r c = true ∨ cl_at b d r c = true.
Proof.
  unfold cl_at, logical_or. case_match; [done |].
  rewrite lookup_zip_with.
  destruct (a !! d) as [pa|]; [| done]. simpl.
  destruct (b !! d) as [pb|]; [| done]. simpl.
  rewrite lookup_zip_with.
  destruct (pa !! Z.to_nat r) as [ra|]; [| done]. simpl.
  destruct (pb !! Z.to_nat r) as [rb|]; [| done]. simpl.
  rewrite lookup_zip_with.
  destruct (ra !! Z.to_nat c) as [x|]; [| done]. simpl.
  destruct (rb !! Z.to_nat c) as [y|]; [| done]. simpl.
  destruct x, y; auto.
Qed.





(* ===================================================================== *)
(** ** Claims about [gen_dfs_percolation] *)
(* ===================================================================== *)




(* ===================================================================== *)
(** ** The boundary-wall invariant in [gen_wilson] *)
(* ===================================================================== *)

Lemma random_randint_Ok a b g x g' :
  random_randint a b g = Ok (x, g') → a ≤ x ≤ b.
Proof.
  unfold random_randint. case_match eqn:Hab; intros Hrun; inv_M.
  apply Z.ltb_ge in Hab.
  pose proof (Z.mod_pos_bound (Z.of_nat a0) (b - a + 1)). lia.
Qed.

Lemma neighbor_Some rows cols current direction next_cell :
  neighbor rows cols current direction = Some next_cell →
  in_grid rows cols next_cell
  ∧ ((direction = 0 ∧ next_cell = (current.1, current.2 - 1))
     ∨ (direction = 1 ∧ next_cell = (current.1, current.2 + 1))
     ∨ (direction = 2 ∧ next_cell = (current.1 - 1, current.2))
     ∨ (direction = 3 ∧ next_cell = (current.1 + 1, current.2))).
Proof.
  unfold neighbor, in_grid.
  destruct (direction =? 0) eqn:H0; [apply Z.eqb_eq in H0 |
  destruct (direction =? 1) eqn:H1; [apply Z.eqb_eq in H1 |
  destruct (direction =? 2) eqn:H2; [apply Z.eqb_eq in H2 |
  destruct (direction =? 3) eqn:H3; [apply Z.eqb_eq in H3 | done]]]];
  (destruct (_ && _) eqn:Hin; [| done]);
  intros [= <-]; simpl;
  repeat (apply andb_true_iff in Hin as [Hin ?]);
  (split; [lia |]); auto 10.
Qed.

Lemma wilson_pick_in_grid rows cols fuel connected g c g' :
  wilson_pick rows cols fuel connected g = Ok (c, g') → in_grid rows cols c.
Proof.
  revert g. induction fuel as [|fuel IH]; intros g Hrun; simpl in Hrun; [done |].
  inv_M. destruct (negb a1); inv_M; [| by eapply IH].
  apply random_randint_Ok in Hm, Hm0. unfold in_grid. simpl. lia.
Qed.

(** Opening the edge towards a neighbour inside the grid keeps the boundary
    walls. *)
Lemma wilson_connect_boundary rows cols (cl cl' : ConnectionList) direction current next_cell :
  in_grid rows cols current →
  neighbor rows cols current direction = Some next_cell →
  wilson_connect cl direction current next_cell = Some cl' →
  boundary_walls rows cols cl → boundary_walls rows cols cl'.
Proof.
  intros [Hc1 Hc2] Hn Hset [Hdown Hright].
  apply neighbor_Some in Hn as [[Hn1 Hn2] Hdir].
  unfold wilson_connect in Hset.
  destruct Hdir as [[-> ->]|[[-> ->]|[[-> ->]|[-> ->]]]]; simpl in *;
    first [ pose proof (λ d' r' c', cl_at_set3 _ _ 1%nat _ d' r' c' Hset) as Hat
          | pose proof (λ d' r' c', cl_at_set3 _ _ 0%nat _ d' r' c' Hset) as Hat ];
    (split; intros i Hi; rewrite Hat by (simpl; lia);
     case_bool_decide as Hb; auto; simpl in Hb; lia).
Qed.

Lemma wilson_retrace_boundary rows cols fuel st current g st' g' :
  wilson_retrace rows cols fuel st current g = Ok (st', g') →
  in_grid rows cols current →
  boundary_walls rows cols (w_connection_list st) →
  boundary_walls rows cols (w_connection_list st').
Proof.
  revert st current g.
  induction fuel as [|fuel IH]; intros st current g Hrun Hin Hb; simpl in Hrun; inv_M.
  - destruct (negb a); inv_M; done.
  - destruct (negb a); inv_M; [| done].
    destruct (neighbor rows cols current a0) as [next_cell|] eqn:Hn; inv_M; [| done].
    match goal with Hrec : wilson_retrace _ _ _ _ _ _ = Ok _ |- _ =>
      eapply IH in Hrec; [done | by apply neighbor_Some in Hn as [? _] |] end.
    simpl. by eapply wilson_connect_boundary.
Qed.

Lemma wilson_iteration_boundary rows cols inner st g st' g' :
  wilson_iteration rows cols inner st g = Ok (st', g') →
  boundary_walls rows cols (w_connection_list st) →
  boundary_walls rows cols (w_connection_list st').
Proof.
  unfold wilson_iteration, wilson_walk_phase. intros Hrun Hb. inv_M.
  match goal with Hrec : wilson_retrace _ _ _ _ _ _ = Ok _ |- _ =>
    eapply wilson_retrace_boundary in Hrec; [done | | done] end.
  simpl. by eapply wilson_pick_in_grid.
Qed.

Lemma wilson_outer_boundary rows cols inner fuel st g st' g' :
  wilson_outer rows cols inner fuel st g = Ok (st', g') →
  boundary_walls rows cols (w_connection_list st) →
  boundary_walls rows cols (w_connection_list st').
Proof.
  revert st g. induction fuel as [|fuel IH]; intros st g Hrun Hb; simpl in Hrun.
  - destruct (0 <? w_cells_left st); inv_M; done.
  - destruct (0 <? w_cells_left st); inv_M; [| done].
    eapply IH; [done |]. by eapply wilson_iteration_boundary.
Qed.

Lemma gen_wilson_boundary fuel grid_shape g maze g' :
  gen_wilson fuel grid_shape g = Ok (maze, g') →
  boundary_walls grid_shape.1 grid_shape.2 (connection_list maze).
Proof.
  unfold gen_wilson, wilson_init. intros Hrun. inv_M. simpl.
  eapply wilson_outer_boundary; [done |]. simpl.
  match goal with Hz : np_full3 _ _ _ _ _ = Ok _ |- _ =>
    apply np_full3_Ok in Hz as (_ & _ & _ & _ & ->) end.
  apply boundary_walls_zeros.
Qed.

(* ===================================================================== *)
(** ** The boundary-wall invariant in the other generators *)
(* ===================================================================== *)

Lemma gen_dfs_boundary fuel grid_shape lattice_dim n_acc max_depth do_forks
    start_coord g maze g' :
  0 < grid_shape.1 → 0 < grid_shape.2 → start_in_grid grid_shape start_coord →
  gen_dfs fuel grid_shape lattice_dim n_acc max_depth do_forks start_coord g
    = Ok (maze, g') →
  boundary_walls grid_shape.1 grid_shape.2 (connection_list maze).
Proof.
  intros Hr Hc Hstart Hgen.
  apply gen_dfs_Ok in Hgen as (start & g1 & st & Hs & _ & _ & _ & Hloop & ->).
  apply _random_start_coord_in_grid in Hs; [| done | done | done].
  by apply dfs_loop_general in Hloop as [_ Hb].
Qed.

Lemma gen_percolation_boundary grid_shape p lattice_dim start_coord g maze g' :
  gen_percolation grid_shape p lattice_dim start_coord g = Ok (maze, g') →
  boundary_walls grid_shape.1 grid_shape.2 (connection_list maze).
Proof.
  unfold gen_percolation. case_match; intros Hrun; inv_M. simpl.
  match goal with Hz : np_random_rand3 _ _ _ _ = Ok _ |- _ =>
    apply np_random_rand3_Ok in Hz as (_ & Hr & Hc & Hshape) end.
  apply (below_shape p), _fill_edges_with_walls_boundary in Hshape.
  by rewrite !Z2Nat.id in Hshape by lia.
Qed.

Lemma gen_dfs_percolation_boundary fuel grid_shape p lattice_dim n_acc max_depth
    start_coord g maze g' :
  0 < grid_shape.1 → 0 < grid_shape.2 → start_in_grid grid_shape start_coord →
  gen_dfs_percolation fuel grid_shape p lattice_dim n_acc max_depth start_coord g
    = Ok (maze, g') →
  boundary_walls grid_shape.1 grid_shape.2 (connection_list maze).
Proof.
  intros Hr Hc Hstart. unfold gen_dfs_percolation. intros Hrun.
  apply bind_Ok in Hrun as (sc & g1 & Hs & Hrun).
  apply bind_Ok in Hrun as (dfs_maze & g2 & Hgen & Hrun).
  apply bind_Ok in Hrun as (samples & g3 & Hsamples & Hrun).
  apply ret_Ok in Hrun as [-> ->]. simpl.
  pose proof (_random_start_coord_in_grid _ _ _ _ _ Hr Hc Hstart Hs) as Hin.
  pose proof Hgen as Hdfs.
  apply gen_dfs_boundary in Hdfs as [Hdown Hright];
    [| done | done | by intros ? [= <-]].
  apply gen_dfs_Ok in Hgen as (start & g0 & st & Hs0 & Hdim & _ & _ & Hloop & ->).
  simpl in Hs0. apply ret_Ok in Hs0 as [-> ->].
  apply np_random_rand3_Ok in Hsamples as (_ & _ & _ & Hshape).
  rewrite !Nat2Z.id in Hshape.
  apply (below_shape p), _fill_edges_with_walls_boundary in Hshape as [Hpd Hpr].
  apply dfs_loop_general in Hloop as [(Hsh & _ & _) _]; [| done].
  simpl in *.
  destruct (dfs_connection_list st) as [|plane cl] eqn:Hcl.
  { split; intros; unfold logical_or, cl_at; simpl; by case_match. }
  destruct (has_shape3_dims _ _ _ _ Hsh) as [Hrows Hcols]; [| lia |].
  { destruct Hsh as [<- _]. simpl. lia. }
  rewrite Hrows, Hcols, !Z2Nat.id in Hpd, Hpr by lia.
  split; intros i Hi.
  - destruct (cl_at (logical_or _ _) 0 (grid_shape.1 - 1) i) eqn:Hor; [| done].
    apply cl_at_logical_or in Hor as [Hor|Hor].
    + by rewrite Hdown in Hor.
    + by rewrite Hpd in Hor.
  - destruct (cl_at (logical_or _ _) 1 i (grid_shape.2 - 1)) eqn:Hor; [| done].
    apply cl_at_logical_or in Hor as [Hor|Hor].
    + by rewrite Hright in Hor.
    + by rewrite Hpr in Hor.
Qed.

(** C7, as amended.  The connection list of a maze that a generator returns
    satisfies the boundary-wall invariant ([connection_list[0, rows-1, c]]
    is [False] for every column [c] and [connection_list[1, r, cols-1]] is
    [False] for every row [r]) in these cases: every maze returned by
    [gen_wilson] and by [gen_percolation]; and every maze returned by
    [gen_dfs] and by [gen_dfs_percolation] on a grid with positive sides
    when the start coordinate is [None] or a cell of the grid. *)
Theorem generators_boundary_walls (grid_shape : Coord) :
  (∀ fuel lattice_dim n_accessible_cells max_tree_depth do_forks start_coord g maze g',
     0 < grid_shape.1 → 0 < grid_shape.2 → start_in_grid grid_shape start_coord →
     gen_dfs fuel grid_shape lattice_dim n_accessible_cells max_tree_depth
       do_forks start_coord g = Ok (maze, g') →
     boundary_walls grid_shape.1 grid_shape.2 (connection_list maze))
  ∧ (∀ fuel g maze g',
       gen_wilson fuel grid_shape g = Ok (maze, g') →
       boundary_walls grid_shape.1 grid_shape.2 (connection_list maze))
  ∧ (∀ p lattice_dim start_coord g maze g',
       gen_percolation grid_shape p lattice_dim start_coord g = Ok (maze, g') →
       boundary_walls grid_shape.1 grid_shape.2 (connection_list maze))
  ∧ (∀ fuel p lattice_dim n_accessible_cells max_tree_depth start_coord g maze g',
       0 < grid_shape.1 → 0 < grid_shape.2 → start_in_grid grid_shape start_coord →
       gen_dfs_percolation fuel grid_shape p lattice_dim n_accessible_cells
         max_tree_depth start_coord g = Ok (maze, g') →
       boundary_walls grid_shape.1 grid_shape.2 (connection_list maze)).
Proof.
  split; [| split; [| split]]; intros.
  - by eapply gen_dfs_boundary.
  - by eapply gen_wilson_boundary.
  - by eapply gen_percolation_boundary.
  - by eapply gen_dfs_percolation_boundary.
Qed.

(** C7, as stated, fails: [gen_dfs] does not check [start_coord].  On a
    1 x 2 grid with the start [(0, -1)], left of the grid, the only
    neighbour in the grid is [(0, 0)], and the edge towards it is written at
    [connection_list[1, 0, -1]], which numpy reads as
    [connection_list[1, 0, 1]]: an entry of the last column is [True] in
    the returned maze. *)
Lemma gen_dfs_opens_boundary_entry :
  ∃ maze g',
    gen_dfs 10 (1, 2) 2 None None true (Some (0, -1)) (const_rng 0) = Ok (maze, g')
    ∧ connection_list maze = [[[false; false]]; [[false; true]]]
    ∧ cl_at (connection_list maze) 1 0 (2 - 1) = true
    ∧ ¬ boundary_walls 1 2 (connection_list maze).
Proof.
  eexists _, _. split; [vm_compute; reflexivity |].
  split; [reflexivity |]. split; [reflexivity |].
  intros [_ Hright]. specialize (Hright 0 ltac:(lia)). vm_compute in Hright. done.
Qed.

Lemma generators_boundary_walls_witness :
  (∃ maze g',
      gen_dfs 10 (2, 2) 2 None None true None (const_rng 1) = Ok (maze, g')
      ∧ boundary_walls 2 2 (connection_list maze))
  ∧ (∃ maze g',
        gen_wilson 20 (2, 2) (list_rng [0; 0; 1; 1; 0; 2; 0; 1; 0]%nat []) = Ok (maze, g')
        ∧ boundary_walls 2 2 (connection_list maze))
  ∧ (∃ maze g',
        gen_percolation (2, 2) (1 # 2) 2 None (const_rng 0) = Ok (maze, g')
        ∧ boundary_walls 2 2 (connection_list maze))
  ∧ (∃ maze g',
        gen_dfs_percolation 10 (2, 2) (1 # 2) 2 None None None (const_rng 0)
          = Ok (maze, g')
        ∧ boundary_walls 2 2 (connection_list maze)).
Proof.
  assert (start_in_grid (2, 2) None) as Hs by (intros sc [=]).
  destruct (generators_boundary_walls (2, 2)) as (Hdfs & Hwilson & Hperc & Hmix).
  split; [| split; [| split]]; eexists _, _.
  - split; [vm_compute; reflexivity |].
    eapply (Hdfs 10%nat 2 None None true None (const_rng 1));
      [simpl; lia | simpl; lia | exact Hs | vm_compute; reflexivity].
  - split; [vm_compute; reflexivity |].
    eapply (Hwilson 20%nat (list_rng [0; 0; 1; 1; 0; 2; 0; 1; 0]%nat []));
      vm_compute; reflexivity.
  - split; [vm_compute; reflexivity |].
    eapply (Hperc (1 # 2)%Q 2 None (const_rng 0)); vm_compute; reflexivity.
  - split; [vm_compute; reflexivity |].
    eapply (Hmix 10%nat (1 # 2)%Q 2 None None None (const_rng 0));
      [simpl; lia | simpl; lia | exact Hs | vm_compute; reflexivity].
Defined.

(* ===================================================================== *)
(** ** [gen_dfs] with forks explores the whole grid *)
(* ===================================================================== *)

Lemma length_le_size (l : list Coord) (s : gset Coord) :
  NoDup l → (∀ x, x ∈ l → x ∈ s) → (length l ≤ size s)%nat.
Proof.
  intros Hnd Hin. rewrite <- (size_list_to_set (C := gset Coord)) by done.
  apply subseteq_size. intros x Hx. apply Hin. by apply elem_of_list_to_set in Hx.
Qed.

Lemma unvisited_neighbors_deltas_nil grid_shape visited current delta :
  unvisited_neighbors_deltas grid_shape visited current = [] →
  delta ∈ NEIGHBORS_MASK →
  in_grid grid_shape.1 grid_shape.2 (coord_add current delta) →
  coord_add current delta ∈ visited.
Proof.
  intros Hnil Hd [Hg1 Hg2].
  destruct (decide (coord_add current delta ∈ visited)) as [|Hfresh]; [done |].
  exfalso.
  assert ((coord_add current delta, delta)
            ∈ unvisited_neighbors_deltas grid_shape visited current) as Hin.
  { unfold unvisited_neighbors_deltas. apply list_elem_of_filter. simpl.
    split; [done |].
    unfold NEIGHBORS_MASK in *. simpl.
    rewrite !elem_of_cons, elem_of_nil in Hd. rewrite !elem_of_cons.
    destruct Hd as [->|[->|[->|[->|[]]]]]; auto 10. }
  rewrite Hnil in Hin. by apply elem_of_nil in Hin.
Qed.

Lemma dfs_step_explored dim grid_shape max_tree_depth st st' :
  0 ≤ grid_shape.1 → 0 ≤ grid_shape.2 →
  2 * (grid_shape.1 * grid_shape.2) ≤ max_tree_depth →
  dfs_wf dim grid_shape st → dfs_explored grid_shape st →
  dfs_step grid_shape max_tree_depth true st st' →
  dfs_explored grid_shape st'.
Proof.
  intros Hr Hc Hmax (Hshape & Hvis & Hstack) (Hnd & Hdepth & Hclosed) Hstep.
  destruct Hstep as [current rest chosen d lo cl' Hst Hfresh Hgrid Hdep Hd Hj Hset
                    |current rest Hst Hback]; unfold dfs_explored;
    cbn [dfs_stack dfs_visited_cells dfs_current_tree_depth dfs_connection_list].
  - rewrite <- Hst. split; [| split].
    + apply NoDup_cons. split; [| done]. intros Hin. by apply Hfresh, Hstack.
    + rewrite Hdepth. cbn [length]. lia.
    + intros v delta Hv Hns Hdelta Hin.
      apply not_elem_of_cons in Hns as [Hne Hns].
      apply elem_of_union in Hv as [Hv|Hv]; [by apply elem_of_singleton in Hv |].
      apply elem_of_union_r. by apply Hclosed.
  - rewrite Hst in *. apply NoDup_cons in Hnd as [Hcur Hnd].
    split; [done |]. split; [rewrite Hdepth; cbn [length]; lia |].
    intros v delta Hv Hns Hdelta Hin.
    destruct (decide (v = current)) as [->|Hne].
    + destruct Hback as [Hnil|Hdeep].
      * by eapply unvisited_neighbors_deltas_nil.
      * exfalso.
        assert (length (current :: rest) ≤ size (dfs_visited_cells st))%nat as Hlen.
        { apply length_le_size; [by apply NoDup_cons | done]. }
        assert (size (dfs_visited_cells st) ≤ Z.to_nat (grid_shape.1 * grid_shape.2))%nat
          as Hsize by (apply size_in_grid; done).
        rewrite Hdepth in Hdeep. lia.
    + apply Hclosed; try done. by apply not_elem_of_cons.
Qed.

(** The grid is connected: a set of cells that holds one grid cell and is
    closed under stepping to grid neighbours holds every grid cell. *)
Lemma grid_connected (rows cols : Z) (s : gset Coord) (start : Coord) :
  in_grid rows cols start → start ∈ s →
  (∀ v delta, v ∈ s → delta ∈ NEIGHBORS_MASK →
              in_grid rows cols (coord_add v delta) → coord_add v delta ∈ s) →
  ∀ x, in_grid rows cols x → x ∈ s.
Proof.
  intros [Hs1 Hs2] Hstart Hclosed.
  assert (∀ (n : nat) r, Z.abs (r - start.1) = Z.of_nat n → 0 ≤ r < rows →
                         (r, start.2) ∈ s) as Hcol.
  { induction n as [|n IH]; intros r Hn Hr.
    - replace r with start.1 by lia. by destruct start.
    - destruct (decide (start.1 < r)) as [Hlt|Hge].
      + replace (r, start.2) with (coord_add (r - 1, start.2) (1, 0))
          by (unfold coord_add; simpl; f_equal; lia).
        apply Hclosed; [apply IH; lia | unfold NEIGHBORS_MASK; set_solver |].
        unfold in_grid, coord_add. simpl. lia.
      + replace (r, start.2) with (coord_add (r + 1, start.2) (-1, 0))
          by (unfold coord_add; simpl; f_equal; lia).
        apply Hclosed; [apply IH; lia | unfold NEIGHBORS_MASK; set_solver |].
        unfold in_grid, coord_add. simpl. lia. }
  assert (∀ (n : nat) r c, Z.abs (c - start.2) = Z.of_nat n → 0 ≤ r < rows →
                           0 ≤ c < cols → (r, c) ∈ s) as Hrow.
  { induction n as [|n IH]; intros r c Hn Hr Hc.
    - replace c with start.2 by lia.
      apply (Hcol (Z.to_nat (Z.abs (r - start.1)))); lia.
    - destruct (decide (start.2 < c)) as [Hlt|Hge].
      + replace (r, c) with (coord_add (r, c - 1) (0, 1))
          by (unfold coord_add; simpl; f_equal; lia).
        apply Hclosed; [apply IH; lia | unfold NEIGHBORS_MASK; set_solver |].
        unfold in_grid, coord_add. simpl. lia.
      + replace (r, c) with (coord_add (r, c + 1) (0, -1))
          by (unfold coord_add; simpl; f_equal; lia).
        apply Hclosed; [apply IH; lia | unfold NEIGHBORS_MASK; set_solver |].
        unfold in_grid, coord_add. simpl. lia. }
  intros [r c] [Hr Hc]. simpl in *.
  apply (Hrow (Z.to_nat (Z.abs (c - start.2)))); [lia | done | done].
Qed.

Lemma dfs_loop_explored grid_shape dim n_acc max_depth fuel start g st g' :
  0 < grid_shape.1 → 0 < grid_shape.2 →
  2 * (grid_shape.1 * grid_shape.2) ≤ max_depth →
  in_grid grid_shape.1 grid_shape.2 start →
  dfs_loop grid_shape n_acc max_depth true fuel
    (dfs_init (replicate dim (replicate (Z.to_nat grid_shape.1)
                                (replicate (Z.to_nat grid_shape.2) false))) start) g
    = Ok (st, g') →
  dfs_explored grid_shape st.
Proof.
  intros Hr Hc Hmax Hs Hloop.
  eapply (dfs_loop_invariant
            (λ st, dfs_wf dim grid_shape st ∧ dfs_explored grid_shape st))
    in Hloop as [[_ HP] _]; [done | |].
  - intros st1 st2 _ [Hwf He] Hstep. split; [by eapply dfs_step_wf |].
    eapply dfs_step_explored; [| | done | done | done | done]; lia.
  - split; [by apply dfs_init_wf |].
    unfold dfs_explored, dfs_init. simpl.
    split; [apply NoDup_singleton |]. split; [done |].
    intros v delta Hv Hns. apply elem_of_singleton in Hv as ->.
    exfalso. apply Hns. set_solver.
Qed.

(** The size of [visited_cells] when [gen_dfs] returns, in the setting where
    the depth bound cannot bind. *)
Lemma dfs_visited_size_forks grid_shape dim n_acc max_depth fuel start g st g' :
  (0 < dim)%nat → 0 < grid_shape.1 → 0 < grid_shape.2 →
  2 * (grid_shape.1 * grid_shape.2) ≤ max_depth → 1 ≤ n_acc →
  in_grid grid_shape.1 grid_shape.2 start →
  dfs_loop grid_shape n_acc max_depth true fuel
    (dfs_init (replicate dim (replicate (Z.to_nat grid_shape.1)
                                (replicate (Z.to_nat grid_shape.2) false))) start) g
    = Ok (st, g') →
  Z.of_nat (size (dfs_visited_cells st)) = Z.min n_acc (grid_shape.1 * grid_shape.2).
Proof.
  intros Hdim Hr Hc Hmax Hn Hs Hloop.
  pose proof (dfs_loop_explored _ _ _ _ _ _ _ _ _ Hr Hc Hmax Hs Hloop)
    as (_ & _ & Hclosed).
  pose proof (dfs_loop_exit _ _ _ _ _ _ _ _ _ Hloop) as Hexit.
  apply dfs_loop_reach in Hloop as ((_ & Hvis & _) & _ & Hb & Hstart);
    [| done | done | done | done].
  unfold dfs_bounded in Hb.
  assert (size (dfs_visited_cells st) ≤ Z.to_nat (grid_shape.1 * grid_shape.2))%nat
    as Hsize by (apply size_in_grid; [lia | lia | done]).
  destruct Hexit as [Hempty|Hfull]; [| lia].
  assert (dfs_visited_cells st = list_to_set (all_cells grid_shape.1 grid_shape.2))
    as Hall.
  { apply set_eq. intros x. rewrite elem_of_list_to_set, elem_of_all_cells.
    split; [apply Hvis |].
    eapply grid_connected; [exact Hs | done |].
    intros v delta Hv Hd Hin. apply Hclosed; try done.
    rewrite Hempty. apply not_elem_of_nil. }
  rewrite Hall, size_all_cells in * by lia. lia.
Qed.

(** C9, as amended.  Every call of [gen_dfs] on a grid with positive sides
    and at most [2 ^ 52] cells, with [lattice_dim >= 2], a start coordinate
    that is [None] or a cell of the grid, and [max_tree_depth] at most
    [2 ^ 1024] in absolute value, returns a maze whose metadata records the
    resolved [n_accessible_cells] and a [visited_cells] set of at most
    [max(1, n_accessible_cells)] elements (hence never more than
    [n_accessible_cells] when that is at least 1) and of at most
    [rows * cols] elements; [fully_connected] is recorded as [True] exactly
    when [len(visited_cells) == n_accessible_cells]; and when [do_forks] is
    set, [max_tree_depth] is at least [2 * rows * cols] (the default) and
    [n_accessible_cells] is at least 1, the size is
    [min(n_accessible_cells, rows * cols)]. *)
Theorem gen_dfs_visited_count (fuel : nat) (grid_shape : Coord) (lattice_dim : Z)
    (n_accessible_cells max_tree_depth : option Z) (do_forks : bool)
    (start_coord : option Coord) (g : rng) :
  0 < grid_shape.1 → 0 < grid_shape.2 → 2 ≤ lattice_dim →
  start_in_grid grid_shape start_coord →
  float_exact grid_shape
    (default (2 * (grid_shape.1 * grid_shape.2)) max_tree_depth) →
  (dfs_fuel grid_shape ≤ fuel)%nat →
  ∃ maze g' visited,
    gen_dfs fuel grid_shape lattice_dim n_accessible_cells max_tree_depth
      do_forks start_coord g = Ok (maze, g')
    ∧ meta_cells maze = Some visited
    ∧ meta_int "n_accessible_cells" maze
      = Some (default (grid_shape.1 * grid_shape.2) n_accessible_cells)
    ∧ Z.of_nat (size visited)
      ≤ Z.max 1 (default (grid_shape.1 * grid_shape.2) n_accessible_cells)
    ∧ Z.of_nat (size visited) ≤ grid_shape.1 * grid_shape.2
    ∧ meta_bool "fully_connected" maze
      = Some (bool_decide
                (Z.of_nat (size visited)
                 = default (grid_shape.1 * grid_shape.2) n_accessible_cells))
    ∧ (do_forks = true →
       2 * (grid_shape.1 * grid_shape.2)
         ≤ default (2 * (grid_shape.1 * grid_shape.2)) max_tree_depth →
       1 ≤ default (grid_shape.1 * grid_shape.2) n_accessible_cells →
       Z.of_nat (size visited)
       = Z.min (default (grid_shape.1 * grid_shape.2) n_accessible_cells)
               (grid_shape.1 * grid_shape.2)).
Proof.
  intros Hr Hc Hdim Hstart _ Hfuel.
  destruct (gen_dfs_is_Ok fuel grid_shape lattice_dim n_accessible_cells
              max_tree_depth do_forks start_coord g) as (maze & g' & Hgen);
    [lia | lia | done | done |].
  pose proof Hgen as Hinv.
  apply gen_dfs_Ok in Hinv as (start & g1 & st & Hs & _ & _ & _ & Hloop & ->).
  apply _random_start_coord_in_grid in Hs; [| done | done | done].
  exists (dfs_result grid_shape start
            (default (grid_shape.1 * grid_shape.2) n_accessible_cells)
            (default (2 * (grid_shape.1 * grid_shape.2)) max_tree_depth) st),
         g', (dfs_visited_cells st).
  pose proof Hloop as Hgeneral.
  apply dfs_loop_reach in Hgeneral as ((_ & Hvis & _) & _ & Hb & _);
    [| lia | done | done | done].
  split; [done |]. split; [done |]. split; [done |]. split; [exact Hb |].
  split.
  { assert (size (dfs_visited_cells st) ≤ Z.to_nat (grid_shape.1 * grid_shape.2))%nat
      by (apply size_in_grid; [lia | lia | done]). lia. }
  split; [done |].
  intros -> Hmax Hn.
  eapply dfs_visited_size_forks; [| done | done | done | done | done | done]. lia.
Qed.

Lemma gen_dfs_visited_count_witness :
  (0 < 3 ∧ 0 < 3 ∧ 2 ≤ 2 ∧ start_in_grid (3, 3) None
   ∧ float_exact (3, 3) (2 * (3 * 3)) ∧ (dfs_fuel (3, 3)%Z ≤ 20)%nat)
  ∧ ∃ maze g' visited,
      gen_dfs 20 (3, 3) 2 (Some 5) None true None (const_rng 2) = Ok (maze, g')
      ∧ meta_cells maze = Some visited
      ∧ meta_int "n_accessible_cells" maze = Some 5
      ∧ Z.of_nat (size visited) ≤ Z.max 1 5
      ∧ Z.of_nat (size visited) ≤ 3 * 3
      ∧ meta_bool "fully_connected" maze
        = Some (bool_decide (Z.of_nat (size visited) = 5))
      ∧ (true = true → 2 * (3 * 3) ≤ 2 * (3 * 3) → 1 ≤ 5 →
         Z.of_nat (size visited) = Z.min 5 (3 * 3)).
Proof.
  assert (start_in_grid (3, 3) None) as Hs by (intros sc [=]).
  assert (float_exact (3, 3) (2 * (3 * 3))) as Hf.
  { unfold float_exact. simpl. lia. }
  split.
  { split; [lia | split; [lia | split; [lia | split; [exact Hs |]]]].
    split; [exact Hf | vm_compute; lia]. }
  apply (gen_dfs_visited_count 20 (3, 3) 2 (Some 5) None true None (const_rng 2));
    [simpl; lia | simpl; lia | lia | exact Hs | exact Hf | vm_compute; lia].
Defined.

(** C9, as stated, fails: with [do_forks=False] the walk can run into a
    dead end, so the size of [visited_cells] is not a function of the
    arguments.  On a 3 x 3 grid from [(0, 0)] with the default bounds one
    run visits 6 cells and another all 9; no count of "cells reachable
    within the depth bound" fixed by the arguments equals both. *)
Lemma gen_dfs_visited_count_depends_on_choices :
  (∃ maze g' visited,
      gen_dfs 20 (3, 3) 2 None None false (Some (0, 0))
        (list_rng [0; 1; 2; 1; 0]%nat []) = Ok (maze, g')
      ∧ meta_cells maze = Some visited ∧ size visited = 6%nat
      ∧ meta_bool "fully_connected" maze = Some false)
  ∧ (∃ maze g' visited,
        gen_dfs 20 (3, 3) 2 None None false (Some (0, 0)) (const_rng 0)
          = Ok (maze, g')
        ∧ meta_cells maze = Some visited ∧ size visited = 9%nat)
  ∧ ¬ ∃ reachable : Z,
        ∀ g maze g' visited,
          gen_dfs 20 (3, 3) 2 None None false (Some (0, 0)) g = Ok (maze, g') →
          meta_cells maze = Some visited →
          Z.of_nat (size visited) = Z.min 9 reachable.
Proof.
  assert (∃ maze g' visited,
            gen_dfs 20 (3, 3) 2 None None false (Some (0, 0))
              (list_rng [0; 1; 2; 1; 0]%nat []) = Ok (maze, g')
            ∧ meta_cells maze = Some visited ∧ size visited = 6%nat
            ∧ meta_bool "fully_connected" maze = Some false) as Hshort
    by (eexists _, _, _; split; [vm_compute; reflexivity |];
        split; [vm_compute; reflexivity |]; split; vm_compute; reflexivity).
  assert (∃ maze g' visited,
            gen_dfs 20 (3, 3) 2 None None false (Some (0, 0)) (const_rng 0)
              = Ok (maze, g')
            ∧ meta_cells maze = Some visited ∧ size visited = 9%nat) as Hlong
    by (eexists _, _, _; split; [vm_compute; reflexivity |];
        split; vm_compute; reflexivity).
  split; [exact Hshort |]. split; [exact Hlong |].
  intros [reachable Hall].
  destruct Hshort as (m1 & g1 & v1 & Hrun1 & Hv1 & Hsize1 & _).
  destruct Hlong as (m2 & g2 & v2 & Hrun2 & Hv2 & Hsize2).
  pose proof (Hall _ _ _ _ Hrun1 Hv1) as H1.
  pose proof (Hall _ _ _ _ Hrun2 Hv2) as H2.
  lia.
Qed.

(* ===================================================================== *)
(** ** [_random_start_coord] *)
(* ===================================================================== *)

(** Whatever the random source, the drawn start coordinate avoids the last
    row of a grid with two rows or more, and its last column likewise: the
    exclusive upper bound passed to [np.random.randint] is
    [grid_shape - 1]. *)
Lemma _random_start_coord_range grid_shape g start g' :
  _random_start_coord grid_shape None g = Ok (start, g') →
  0 ≤ start.1 < Z.max (grid_shape.1 - 1) 1
  ∧ 0 ≤ start.2 < Z.max (grid_shape.2 - 1) 1.
Proof.
  unfold _random_start_coord. intros Hrun. inv_M. simpl.
  repeat match goal with
  | Hz : np_random_randint _ _ _ = Ok _ |- _ => apply np_random_randint_Ok in Hz
  end. lia.
Qed.

(** C3, at the failing input.  On a 2 x 2 grid with [start_coord=None]
    every random source yields the start coordinate [(0, 0)]: the cells
    [(0, 1)], [(1, 0)] and [(1, 1)] are in bounds and are never drawn. *)
Theorem random_start_coord_never_last (g : rng) :
  ∃ g', _random_start_coord (2, 2) None g = Ok ((0, 0), g').
Proof.
  destruct (_random_start_coord_is_Ok (2, 2) None g) as (start & g' & Hrun).
  exists g'. rewrite Hrun.
  apply _random_start_coord_range in Hrun. destruct start as [r c]. simpl in Hrun.
  do 2 f_equal. f_equal; lia.
Qed.

(* ===================================================================== *)
(** ** The percolation probability *)
(* ===================================================================== *)

(** [gen_percolation] refuses a probability outside the unit interval before
    it does anything else. *)
Lemma gen_percolation_rejects grid_shape (p : Q) lattice_dim start_coord g :
  ¬ (0 <= p ∧ p <= 1)%Q →
  gen_percolation grid_shape p lattice_dim start_coord g = Raise AssertionError.
Proof.
  intros Hp. unfold gen_percolation.
  destruct (Qle_bool 0 p && Qle_bool p 1) eqn:Hb; [| done].
  exfalso. apply Hp. apply andb_true_iff in Hb as [H0 H1].
  by rewrite !Qle_bool_iff in *.
Qed.

Lemma gen_dfs_percolation_is_Ok fuel grid_shape p lattice_dim n_acc max_depth
    start_coord g :
  0 ≤ grid_shape.1 → 0 ≤ grid_shape.2 → 2 ≤ lattice_dim →
  (dfs_fuel grid_shape ≤ fuel)%nat →
  ∃ maze g',
    gen_dfs_percolation fuel grid_shape p lattice_dim n_acc max_depth start_coord g
      = Ok (maze, g').
Proof.
  intros Hr Hc Hdim Hfuel. unfold gen_dfs_percolation.
  destruct (_random_start_coord_is_Ok grid_shape start_coord g) as (start & g1 & Hs).
  unfold bind at 1. rewrite Hs.
  destruct (gen_dfs_is_Ok fuel grid_shape lattice_dim n_acc max_depth true
              (Some start) g1) as (dfs_maze & g2 & Hdfs); [done | done | done | done |].
  unfold bind at 1. rewrite Hdfs.
  destruct (np_random_rand3_is_Ok (Z.of_nat (length (connection_list dfs_maze)))
              (Z.of_nat (cl_rows (connection_list dfs_maze)))
              (Z.of_nat (cl_cols (connection_list dfs_maze))) g2)
    as (samples & g' & Hsamples); [lia | lia | lia |].
  unfold bind. rewrite Hsamples. unfold ret. eauto.
Qed.

(** C4, at the failing input.  With [p = 2] the sibling [gen_percolation]
    raises its assertion error, while [gen_dfs_percolation] raises nothing:
    it runs [gen_dfs], allocates the percolation sample and returns a maze
    whose metadata records [percolation_p = 2]. *)
Theorem gen_dfs_percolation_accepts_invalid_p (g : rng) :
  gen_percolation (2, 2) 2 2 None g = Raise AssertionError
  ∧ ∃ maze g',
      gen_dfs_percolation 10 (2, 2) 2 2 None None None g = Ok (maze, g')
      ∧ generation_meta maze !! "percolation_p" = Some (VFloat 2).
Proof.
  split; [apply gen_percolation_rejects; intros [_ Hp]; by apply Hp |].
  destruct (gen_dfs_percolation_is_Ok 10 (2, 2) 2 2 None None None g)
    as (maze & g' & Hrun); [simpl; lia | simpl; lia | lia | vm_compute; lia |].
  exists maze, g'. split; [done |].
  unfold gen_dfs_percolation in Hrun.
  apply bind_Ok in Hrun as (sc & g1 & _ & Hrun).
  apply bind_Ok in Hrun as (dfs_maze & g2 & _ & Hrun).
  apply bind_Ok in Hrun as (samples & g3 & _ & Hrun).
  apply ret_Ok in Hrun as [-> ->]. simpl.
  rewrite lookup_insert_ne by done. by rewrite lookup_insert_eq.
Qed.

(* ===================================================================== *)
(** ** [gen_wilson] on a walk that closes a loop *)
(* ===================================================================== *)

(** C1, at the failing input.  On a 1 x 3 grid, seed cell [(0, 0)], first
    walk started at [(0, 2)], stepping left to [(0, 1)] and then right, back
    onto [(0, 2)]: [gen_wilson] returns a maze with a single open edge
    instead of [1 * 3 - 1 = 2], in which the cell [(0, 2)] has no open edge
    and is not in the component of [(0, 0)], and whose metadata still records
    [fully_connected = True]. *)
Theorem gen_wilson_isolates_a_cell :
  ∃ maze g',
    gen_wilson 20 (1, 3) (list_rng [0; 0; 0; 2; 0; 1; 0; 1; 0]%nat []) = Ok (maze, g')
    ∧ connection_list maze = [[[false; false; false]]; [[true; false; false]]]
    ∧ count_open_edges (connection_list maze) = 1%nat
    ∧ degree (connection_list maze) (0, 2) = 0%nat
    ∧ ¬ reachable (connection_list maze) (0, 0) (0, 2)
    ∧ meta_bool "fully_connected" maze = Some true.
Proof.
  eexists _, _. split; [vm_compute; reflexivity |].
  split; [reflexivity |]. split; [reflexivity |]. split; [reflexivity |].
  split; [| reflexivity].
  rewrite <- gen_connected_component_from_spec.
  apply (proj1 (bool_decide_eq_false _)). vm_compute. reflexivity.
Qed.

(** C2, at the failing input.  In the same run the first random walk stops
    on the cell [(0, 2)], which it has visited itself and which is not
    connected; the sentinel 4 is written there; and after that first pass
    through the outer loop the cells marked connected are [(0, 0)] and
    [(0, 2)] with no open edge in the maze: neither is reachable from the
    other, they are two components. *)
Theorem gen_wilson_walk_stops_on_own_path :
  ∃ st0 g1,
    wilson_init 1 3 (list_rng [0; 0; 0; 2; 0; 1; 0; 1; 0]%nat []) = Ok (st0, g1)
    ∧ w_connected st0 = [[true; false; false]]
    ∧ (∃ direction_matrix g2,
          wilson_walk_phase 1 3 20 st0 g1
            = Ok (((0, 2), (0, 2), direction_matrix), g2)
          ∧ get2 (w_connected st0) (0, 2) = Some false
          ∧ get2 direction_matrix (0, 2) = Some 4)
    ∧ (∃ st1 g3,
          wilson_iteration 1 3 20 st0 g1 = Ok (st1, g3)
          ∧ w_connected st1 = [[true; false; true]]
          ∧ count_open_edges (w_connection_list st1) = 0%nat
          ∧ ¬ reachable (w_connection_list st1) (0, 0) (0, 2)
          ∧ w_cells_left st1 = 1).
Proof.
  eexists _, _. split; [vm_compute; reflexivity |].
  split; [reflexivity |]. split.
  - eexists _, _. split; [vm_compute; reflexivity |]. split; reflexivity.
  - eexists _, _. split; [vm_compute; reflexivity |].
    split; [reflexivity |]. split; [reflexivity |]. split; [| reflexivity].
    rewrite <- gen_connected_component_from_spec.
    apply (proj1 (bool_decide_eq_false _)). vm_compute. reflexivity.
Qed.

(* ===================================================================== *)
(** ** Malformed grid shapes *)
(* ===================================================================== *)







(* ===================================================================== *)
(** ** Counting the entries of an array *)
(* ===================================================================== *)

Section counting.
Context {A : Type} (P : A → Prop) `{!∀ x, Decision (P x)}.

Lemma filter_length_insert (l : list A) i x y :
  l !! i = Some x →
  (length (filter P (<[i := y]> l)) + (if decide (P x) then 1 else 0)
   = length (filter P l) + (if decide (P y) then 1 else 0))%nat.
Proof.
  intros Hi. pose proof (lookup_lt_Some _ _ _ Hi) as Hlt.
  rewrite insert_take_drop by done.
  rewrite <- (take_drop_middle l i x Hi) at 3.
  rewrite !filter_app, !filter_cons, !length_app.
  do 2 case_decide; simpl; lia.
Qed.

Lemma filter_length_concat_insert (l : list (list A)) i x y :
  l !! i = Some x →
  (length (filter P (concat (<[i := y]> l))) + length (filter P x)
   = length (filter P (concat l)) + length (filter P y))%nat.
Proof.
  intros Hi. pose proof (lookup_lt_Some _ _ _ Hi) as Hlt.
  rewrite insert_take_drop by done.
  rewrite <- (take_drop_middle l i x Hi) at 3.
  rewrite !concat_app, !concat_cons, !filter_app, !length_app. lia.
Qed.

Lemma filter_length_concat2_insert (l : array3 A) i x y :
  l !! i = Some x →
  (length (filter P (concat (concat (<[i := y]> l)))) + length (filter P (concat x))
   = length (filter P (concat (concat l))) + length (filter P (concat y)))%nat.
Proof.
  intros Hi. pose proof (lookup_lt_Some _ _ _ Hi) as Hlt.
  rewrite insert_take_drop by done.
  rewrite <- (take_drop_middle l i x Hi) at 3.
  rewrite !concat_app, !concat_cons, !concat_app, !filter_app, !length_app. lia.
Qed.

(** Writing one entry of a 2-axis array changes the count by that entry. *)
Lemma set2_count (a a' : array2 A) (c : Coord) v :
  set2 a c v = Some a' →
  ∃ old, get2 a c = Some old
    ∧ (length (filter P (concat a')) + (if decide (P old) then 1 else 0)
       = length (filter P (concat a)) + (if decide (P v) then 1 else 0))%nat.
Proof.
  unfold set2, get2. intros Hset.
  destruct (np_index (length a) c.1) as [i|] eqn:Hi; [simpl in *| done].
  destruct (a !! i) as [row|] eqn:Hrow; [simpl in * | done].
  destruct (np_index (length row) c.2) as [j|] eqn:Hj; [simpl in * | done].
  injection Hset as <-.
  destruct (lookup_lt_is_Some_2 row j) as [old Hold]; [by eapply np_index_lt |].
  exists old. split; [done |].
  pose proof (filter_length_concat_insert a i row (<[j := v]> row) Hrow).
  pose proof (filter_length_insert row j old v Hold). lia.
Qed.
End counting.

(** Writing [True] to an entry of a connection list adds one open edge if
    the entry was [False], and none otherwise. *)
Lemma set3_count (cl cl' : ConnectionList) (d : Z) (x : Coord) :
  set3 cl d x true = Some cl' →
  ∃ old : bool,
    (count_open_edges cl' = count_open_edges cl + (if old then 0 else 1))%nat
    ∧ (0 ≤ d → 0 ≤ x.1 → 0 ≤ x.2 → cl_at cl (Z.to_nat d) x.1 x.2 = old).
Proof.
  unfold set3. intros H.
  destruct (np_index (length cl) d) as [k|] eqn:Hk; [simpl in H | done].
  destruct (cl !! k) as [plane|] eqn:Hp; [simpl in H | done].
  destruct (set2 plane x true) as [plane'|] eqn:Hs; [simpl in H | done].
  injection H as <-.
  destruct (set2_count (λ b : bool, b = true) _ _ _ _ Hs) as (old & Hget & Hcount).
  exists old. split.
  - unfold count_open_edges.
    pose proof (filter_length_concat2_insert (λ b : bool, b = true)
                  cl k plane plane' Hp) as Hc.
    destruct old; repeat case_decide; try done; lia.
  - intros Hd H1 H2. unfold cl_at.
    destruct ((x.1 <? 0) || (x.2 <? 0)) eqn:Hneg; [lia |].
    apply np_index_nonneg in Hk; [| done]. subst k. rewrite Hp. simpl.
    unfold get2 in Hget.
    destruct (np_index (length plane) x.1) as [i|] eqn:Hi; [simpl in Hget | done].
    apply np_index_nonneg in Hi; [| done]. subst i.
    destruct (plane !! Z.to_nat x.1) as [row|]; [simpl in * | done].
    destruct (np_index (length row) x.2) as [j|] eqn:Hj; [simpl in Hget | done].
    apply np_index_nonneg in Hj; [| done]. subst j. by rewrite Hget.
Qed.

(* ===================================================================== *)
(** ** The carved region of [gen_dfs] is a tree *)
(* ===================================================================== *)

Lemma count_open_edges_replicate dim rows cols :
  count_open_edges (replicate dim (replicate rows (replicate cols false))) = 0%nat.
Proof.
  unfold count_open_edges.
  induction dim as [|dim IH]; [done |]. simpl.
  rewrite concat_app, filter_app, length_app, IH, Nat.add_0_r. clear IH.
  induction rows as [|rows IH]; [done |]. simpl.
  rewrite filter_app, length_app, IH, Nat.add_0_r. clear IH.
  induction cols as [|cols IH]; [done |]. simpl.
  rewrite filter_cons. by case_decide.
Qed.

Lemma dfs_init_tree dim rows cols start :
  dfs_tree (dfs_init (replicate dim (replicate rows (replicate cols false))) start).
Proof.
  unfold dfs_tree, dfs_init. cbn [dfs_connection_list dfs_visited_cells]. split.
  - intros d r c _. by rewrite cl_at_zeros.
  - by rewrite count_open_edges_replicate, size_singleton.
Qed.

Lemma dfs_step_tree dim grid_shape max_tree_depth do_forks st st' :
  dfs_wf dim grid_shape st → dfs_tree st →
  dfs_step grid_shape max_tree_depth do_forks st st' →
  dfs_tree st'.
Proof.
  intros Hwf [Hedges Hcount] Hstep.
  destruct Hstep as [current rest chosen d lo cl' Hst Hfresh Hgrid Hdepth Hd Hj Hset
                    |current rest Hst Hback]; unfold dfs_tree;
    cbn [dfs_connection_list dfs_visited_cells]; [| done].
  destruct (dfs_carve_in_grid _ _ _ _ _ _ _ _ Hwf Hst Hgrid Hj) as [[Hlo1 Hlo2] _].
  destruct Hwf as (_ & _ & Hstack).
  assert (current ∈ dfs_visited_cells st) as Hcur
    by (apply Hstack; rewrite Hst; set_solver).
  assert ((lo.1, lo.2) = current ∧ (edge_cells d lo.1 lo.2).2 = chosen
          ∨ (lo.1, lo.2) = chosen ∧ (edge_cells d lo.1 lo.2).2 = current) as Hends.
  { destruct Hj as [Hj|Hj]; rewrite Hj; simpl; unfold edge_cells in Hj;
      injection Hj as Hj1 Hj2; rewrite Hj1; auto. }
  split.
  - intros d' r c Hd'. rewrite (cl_at_set3 _ _ _ _ _ _ _ Hset) by lia.
    case_bool_decide as Heq.
    + intros _. destruct Heq as (-> & -> & ->).
      destruct Hends as [[-> ->]|[-> ->]]; set_solver.
    + intros Hopen. destruct (Hedges _ _ _ Hd' Hopen). set_solver.
  - destruct (set3_count _ _ _ _ Hset) as (old & Hc & Hold).
    rewrite Nat2Z.id in Hold. specialize (Hold ltac:(lia) ltac:(lia) ltac:(lia)).
    destruct old.
    + exfalso. destruct (Hedges _ _ _ Hd Hold) as [H1 H2].
      destruct Hends as [[_ Heq]|[Heq _]]; rewrite Heq in *; done.
    + rewrite size_add_fresh by done. lia.
Qed.

(* ===================================================================== *)
(** ** The depth counter of [gen_dfs] *)
(* ===================================================================== *)

Lemma iter_expand_bsteps (cl : ConnectionList) (c x : Coord) k :
  x ∈ Nat.iter k (expand_component cl) {[c]} → bsteps (open_step cl) k c x.
Proof.
  revert x. induction k as [|k IH]; intros x; simpl.
  - intros Hx. apply elem_of_singleton in Hx as ->. apply bsteps_refl.
  - rewrite elem_of_expand_component. intros [Hx|(y & Hy & Hx)].
    + eapply bsteps_weaken; [| by apply IH]. lia.
    + eapply bsteps_r; [by apply IH | done].
Qed.

Lemma dfs_init_depth cl start max_tree_depth :
  dfs_depth start max_tree_depth (dfs_init cl start).
Proof.
  unfold dfs_depth, dfs_init.
  cbn [dfs_stack dfs_visited_cells dfs_connection_list dfs_current_tree_depth].
  split.
  - intros [|j] x Hx; [| done]. injection Hx as <-.
    split; [lia | apply iter_expand_start].
  - intros v Hv. apply elem_of_singleton in Hv as ->. apply iter_expand_start.
Qed.

Lemma dfs_step_depth dim grid_shape max_tree_depth do_forks start st st' :
  (0 < dim)%nat → 0 < grid_shape.1 → 0 < grid_shape.2 →
  dfs_wf dim grid_shape st → dfs_depth start max_tree_depth st →
  dfs_step grid_shape max_tree_depth do_forks st st' →
  dfs_depth start max_tree_depth st'.
Proof.
  intros Hdim Hr Hc Hwf [Hstk Hall] Hstep.
  pose proof (dfs_step_wf _ _ _ _ _ _ Hwf Hstep) as Hwf'.
  destruct Hstep as [current rest chosen d lo cl' Hst Hfresh Hgrid Hdepth Hd Hj Hset
                    |current rest Hst Hback]; unfold dfs_depth; simpl in *.
  2:{ split; [| done]. intros j x Hx.
      destruct (Hstk (S j) x) as [Hlt Hin]; [by rewrite Hst |].
      split; [lia |].
      replace (dfs_current_tree_depth st - 1 - 1 - Z.of_nat j)
        with (dfs_current_tree_depth st - 1 - Z.of_nat (S j)) by lia. done. }
  destruct (dfs_carve_in_grid _ _ _ _ _ _ _ _ Hwf Hst Hgrid Hj) as [[Hlo1 Hlo2] _].
  destruct Hwf as (Hshape & Hvis & Hstack).
  destruct Hwf' as (Hshape' & _ & _). simpl in Hshape'.
  destruct (has_shape3_dims _ _ _ _ Hshape) as [Hrows Hcols]; [done | lia |].
  destruct (has_shape3_dims _ _ _ _ Hshape') as [Hrows' Hcols']; [done | lia |].
  assert (cl_le (dfs_connection_list st) cl') as Hmono
    by (eapply cl_le_set3; [done | lia | lia]).
  assert (∀ k, Nat.iter k (expand_component (dfs_connection_list st)) {[start]}
               ⊆ Nat.iter k (expand_component cl') {[start]}) as Hold.
  { intros k. apply iter_expand_mono; [done | congruence | congruence | done]. }
  destruct (Hstk 0%nat current) as [Hpos Hcur]; [by rewrite Hst |].
  assert (nodes_connected cl' current chosen = true) as Hconn.
  { eapply joins_nodes_connected; [done | done |].
    rewrite (cl_at_set3 _ _ _ _ _ _ _ Hset) by lia. by rewrite bool_decide_eq_true_2. }
  assert (chosen ∈ Nat.iter (Z.to_nat (dfs_current_tree_depth st))
                            (expand_component cl') {[start]}) as Hnew.
  { replace (Z.to_nat (dfs_current_tree_depth st))
      with (S (Z.to_nat (dfs_current_tree_depth st - 1 - Z.of_nat 0))) by lia.
    simpl. apply elem_of_expand_component. right. exists current.
    split; [by apply Hold |].
    apply elem_of_open_neighbors. rewrite Hrows', Hcols', !Z2Nat.id by lia.
    split; [done |]. split; [done |]. by eapply nodes_connected_adjacent. }
  split.
  - intros [|j] x Hx.
    + injection Hx as <-. split; [lia |].
      replace (dfs_current_tree_depth st + 1 - 1 - Z.of_nat 0)
        with (dfs_current_tree_depth st) by lia. done.
    + simpl in Hx.
      assert (∃ i, dfs_stack st !! i = Some x ∧ (i ≤ S j)%nat ∧ (j ≤ i)%nat)
        as (i & Hi & Hle & Hge).
      { rewrite Hst. destruct do_forks.
        - exists j. split; [done | lia].
        - exists (S j). split; [done | lia]. }
      destruct (Hstk i x Hi) as [Hlt Hin]. split; [lia |].
      apply Hold. eapply iter_expand_le; [| exact Hin]. lia.
  - assert (dfs_current_tree_depth st ≤ max_tree_depth / 2) as Hhalf
      by (apply Z.div_le_lower_bound; lia).
    intros v Hv. apply elem_of_union in Hv as [Hv|Hv]; [| by apply Hold, Hall].
    apply elem_of_singleton in Hv as ->.
    eapply iter_expand_le; [| exact Hnew]. lia.
Qed.

(** The invariants of the loop that describe the shape of the carved
    region. *)
Lemma dfs_loop_tree grid_shape dim n_acc max_depth do_forks fuel start g st g' :
  (0 < dim)%nat → 0 < grid_shape.1 → 0 < grid_shape.2 →
  in_grid grid_shape.1 grid_shape.2 start →
  dfs_loop grid_shape n_acc max_depth do_forks fuel
    (dfs_init (replicate dim (replicate (Z.to_nat grid_shape.1)
                                (replicate (Z.to_nat grid_shape.2) false))) start) g
    = Ok (st, g') →
  dfs_tree st ∧ dfs_depth start max_depth st.
Proof.
  intros Hdim Hr Hc Hs Hloop.
  eapply (dfs_loop_invariant
            (λ st, dfs_wf dim grid_shape st ∧ dfs_tree st
                   ∧ dfs_depth start max_depth st))
    in Hloop as [(_ & Ht & Hd) _]; [done | |].
  - intros st1 st2 _ (Hwf & Ht & Hd) Hstep. split; [| split].
    + by eapply dfs_step_wf.
    + by eapply dfs_step_tree.
    + by eapply dfs_step_depth.
  - split; [by apply dfs_init_wf |]. split; [apply dfs_init_tree |].
    apply dfs_init_depth.
Qed.

(* ===================================================================== *)
(** ** Further properties of [gen_dfs] *)
(* ===================================================================== *)



(** X2. On a grid with positive sides and at most [2 ^ 52] cells, with
    [lattice_dim >= 2] and a start coordinate that is [None] or a cell of
    the grid, [gen_dfs] with forks allowed and bounds that do not bind
    ([n_accessible_cells] at least [rows * cols], and [max_tree_depth] at
    least [2 * rows * cols] and at most [2 ^ 1024]; the defaults are such)
    returns a spanning tree of the grid: [visited_cells] is the whole grid,
    every cell is reached from the start along open edges, and exactly
    [rows * cols - 1] entries are open.  [fully_connected] is recorded as
    [True] exactly when [n_accessible_cells] equals [rows * cols]. *)
Theorem gen_dfs_spanning_tree (fuel : nat) (grid_shape : Coord) (lattice_dim : Z)
    (n_accessible_cells max_tree_depth : option Z)
    (start_coord : option Coord) (g : rng) :
  0 < grid_shape.1 → 0 < grid_shape.2 → 2 ≤ lattice_dim →
  start_in_grid grid_shape start_coord →
  float_exact grid_shape
    (default (2 * (grid_shape.1 * grid_shape.2)) max_tree_depth) →
  (dfs_fuel grid_shape ≤ fuel)%nat →
  grid_shape.1 * grid_shape.2
    ≤ default (grid_shape.1 * grid_shape.2) n_accessible_cells →
  2 * (grid_shape.1 * grid_shape.2)
    ≤ default (2 * (grid_shape.1 * grid_shape.2)) max_tree_depth →
  ∃ maze g' start,
    gen_dfs fuel grid_shape lattice_dim n_accessible_cells max_tree_depth
      true start_coord g = Ok (maze, g')
    ∧ generation_meta maze !! "start_coord" = Some (VCoord start)
    ∧ meta_cells maze = Some (list_to_set (all_cells grid_shape.1 grid_shape.2))
    ∧ (∀ x, in_grid grid_shape.1 grid_shape.2 x →
            reachable (connection_list maze) start x)
    ∧ Z.of_nat (count_open_edges (connection_list maze))
      = grid_shape.1 * grid_shape.2 - 1
    ∧ meta_bool "fully_connected" maze
      = Some (bool_decide
                (default (grid_shape.1 * grid_shape.2) n_accessible_cells
                 = grid_shape.1 * grid_shape.2)).
Proof.
  intros Hr Hc Hdim Hstart _ Hfuel Hn Hmax.
  destruct (gen_dfs_is_Ok fuel grid_shape lattice_dim n_accessible_cells
              max_tree_depth true start_coord g) as (maze & g' & Hgen);
    [lia | lia | done | done |].
  pose proof Hgen as Hinv.
  apply gen_dfs_Ok in Hinv as (start & g1 & st & Hs & _ & _ & _ & Hloop & ->).
  apply _random_start_coord_in_grid in Hs; [| done | done | done].
  eexists _, g', start. split; [exact Hgen |].
  pose proof Hloop as Hsize.
  apply dfs_visited_size_forks in Hsize; [| lia | done | done | done | lia | done].
  rewrite Z.min_r in Hsize by done.
  pose proof Hloop as Hloop'.
  apply dfs_loop_reach in Hloop' as ((_ & Hvis & _) & Hreach & _ & _);
    [| lia | done | done | done].
  apply dfs_loop_tree in Hloop as [[_ Hcount] _]; [| lia | done | done | done].
  assert (dfs_visited_cells st = list_to_set (all_cells grid_shape.1 grid_shape.2))
    as Hall.
  { apply set_eq. apply set_subseteq_size_equiv.
    - intros x Hx. apply elem_of_list_to_set, elem_of_all_cells. by apply Hvis.
    - rewrite size_all_cells by lia. lia. }
  split; [done |]. split; [by rewrite dfs_result_meta_cells, Hall |].
  split; [| split].
  - intros x Hx. eapply iter_expand_sound. apply Hreach.
    rewrite Hall. by apply elem_of_list_to_set, elem_of_all_cells.
  - cbn [connection_list dfs_result]. lia.
  - rewrite dfs_result_fully_connected. f_equal.
    apply bool_decide_ext. lia.
Qed.

Lemma gen_dfs_spanning_tree_witness :
  (0 < 3 ∧ 0 < 4 ∧ 2 ≤ 2 ∧ start_in_grid (3, 4) None
   ∧ float_exact (3, 4) (2 * (3 * 4))
   ∧ (dfs_fuel (3, 4)%Z ≤ 30)%nat ∧ 3 * 4 ≤ 3 * 4 ∧ 2 * (3 * 4) ≤ 2 * (3 * 4))
  ∧ ∃ maze g' start,
      gen_dfs 30 (3, 4) 2 None None true None (const_rng 3) = Ok (maze, g')
      ∧ generation_meta maze !! "start_coord" = Some (VCoord start)
      ∧ meta_cells maze = Some (list_to_set (all_cells 3 4))
      ∧ (∀ x, in_grid 3 4 x → reachable (connection_list maze) start x)
      ∧ Z.of_nat (count_open_edges (connection_list maze)) = 3 * 4 - 1
      ∧ meta_bool "fully_connected" maze = Some (bool_decide (3 * 4 = 3 * 4)).
Proof.
  assert (start_in_grid (3, 4) None) as Hs by (intros sc [=]).
  assert (float_exact (3, 4) (2 * (3 * 4))) as Hf.
  { unfold float_exact. simpl. lia. }
  split.
  { split; [lia | split; [lia | split; [lia | split; [exact Hs |]]]].
    split; [exact Hf |]. split; [vm_compute; lia | lia]. }
  apply (gen_dfs_spanning_tree 30 (3, 4) 2 None None None (const_rng 3));
    [simpl; lia | simpl; lia | lia | exact Hs | exact Hf | vm_compute; lia
    | simpl; lia | simpl; lia].
Defined.

(** X3. [max_tree_depth] bounds the distance from the start.  On a grid
    with positive sides and at most [2 ^ 52] cells, with
    [lattice_dim >= 2], a start coordinate that is [None] or a cell of the
    grid, and [max_tree_depth] at most [2 ^ 1024] in absolute value,
    [gen_dfs] returns a maze in which every visited cell is reached from
    the start coordinate by a walk of at most [max_tree_depth // 2] open
    edges (none when that number is negative). *)
Theorem gen_dfs_depth_bound (fuel : nat) (grid_shape : Coord) (lattice_dim : Z)
    (n_accessible_cells max_tree_depth : option Z) (do_forks : bool)
    (start_coord : option Coord) (g : rng) :
  0 < grid_shape.1 → 0 < grid_shape.2 → 2 ≤ lattice_dim →
  start_in_grid grid_shape start_coord →
  float_exact grid_shape
    (default (2 * (grid_shape.1 * grid_shape.2)) max_tree_depth) →
  (dfs_fuel grid_shape ≤ fuel)%nat →
  ∃ maze g' start visited,
    gen_dfs fuel grid_shape lattice_dim n_accessible_cells max_tree_depth
      do_forks start_coord g = Ok (maze, g')
    ∧ generation_meta maze !! "start_coord" = Some (VCoord start)
    ∧ meta_cells maze = Some visited
    ∧ ∀ v, v ∈ visited →
           bsteps (open_step (connection_list maze))
             (Z.to_nat (default (2 * (grid_shape.1 * grid_shape.2)) max_tree_depth / 2))
             start v.
Proof.
  intros Hr Hc Hdim Hstart _ Hfuel.
  destruct (gen_dfs_is_Ok fuel grid_shape lattice_dim n_accessible_cells
              max_tree_depth do_forks start_coord g) as (maze & g' & Hgen);
    [lia | lia | done | done |].
  pose proof Hgen as Hinv.
  apply gen_dfs_Ok in Hinv as (start & g1 & st & Hs & _ & _ & _ & Hloop & ->).
  apply _random_start_coord_in_grid in Hs; [| done | done | done].
  eexists _, g', start, (dfs_visited_cells st). split; [exact Hgen |].
  apply dfs_loop_tree in Hloop as [_ [_ Hall]]; [| lia | done | done | done].
  split; [done |]. split; [done |].
  intros v Hv. by apply iter_expand_bsteps, Hall.
Qed.

Lemma gen_dfs_depth_bound_witness :
  (0 < 4 ∧ 0 < 4 ∧ 2 ≤ 2 ∧ start_in_grid (4, 4) (Some (0, 0))
   ∧ float_exact (4, 4) 5 ∧ (dfs_fuel (4, 4)%Z ≤ 40)%nat)
  ∧ ∃ maze g' start visited,
      gen_dfs 40 (4, 4) 2 None (Some 5) true (Some (0, 0)) (const_rng 0)
        = Ok (maze, g')
      ∧ generation_meta maze !! "start_coord" = Some (VCoord start)
      ∧ meta_cells maze = Some visited
      ∧ ∀ v, v ∈ visited →
             bsteps (open_step (connection_list maze)) (Z.to_nat (5 / 2)) start v.
Proof.
  assert (start_in_grid (4, 4) (Some (0, 0))) as Hs.
  { intros sc [= <-]. unfold in_grid. simpl. lia. }
  assert (float_exact (4, 4) 5) as Hf.
  { unfold float_exact. simpl. lia. }
  split.
  { split; [lia | split; [lia | split; [lia | split; [exact Hs |]]]].
    split; [exact Hf | vm_compute; lia]. }
  apply (gen_dfs_depth_bound 40 (4, 4) 2 None (Some 5) true (Some (0, 0)) (const_rng 0));
    [simpl; lia | simpl; lia | lia | exact Hs | exact Hf | vm_compute; lia].
Defined.

(** X4. Bounds that leave no room: when [n_accessible_cells] is at most
    1, or [max_tree_depth] is below 2 and not below [- 2 ^ 1024] (so that
    [max_tree_depth / 2] is in the range of a float), [gen_dfs] carves
    nothing.  It returns the all-walls connection list with
    [visited_cells] holding the start coordinate alone, for every grid
    shape without a negative side, every [lattice_dim] that is not
    negative and every start coordinate, inside the grid or not. *)
Theorem gen_dfs_degenerate_bounds (fuel : nat) (grid_shape : Coord) (lattice_dim : Z)
    (n_accessible_cells max_tree_depth : option Z) (do_forks : bool)
    (start_coord : option Coord) (g : rng) :
  0 ≤ grid_shape.1 → 0 ≤ grid_shape.2 → 0 ≤ lattice_dim → (1 ≤ fuel)%nat →
  default (grid_shape.1 * grid_shape.2) n_accessible_cells ≤ 1
  ∨ - 2 ^ 1024 ≤ default (2 * (grid_shape.1 * grid_shape.2)) max_tree_depth < 2 →
  ∃ maze g' start,
    gen_dfs fuel grid_shape lattice_dim n_accessible_cells max_tree_depth
      do_forks start_coord g = Ok (maze, g')
    ∧ _random_start_coord grid_shape start_coord g = Ok (start, g')
    ∧ connection_list maze
      = replicate (Z.to_nat lattice_dim)
          (replicate (Z.to_nat grid_shape.1)
             (replicate (Z.to_nat grid_shape.2) false))
    ∧ meta_cells maze = Some {[start]}
    ∧ meta_bool "fully_connected" maze
      = Some (bool_decide
                (default (grid_shape.1 * grid_shape.2) n_accessible_cells = 1)).
Proof.
  intros Hr Hc Hdim Hfuel Hbounds.
  destruct (_random_start_coord_is_Ok grid_shape start_coord g) as (start & g1 & Hs).
  set (n := default (grid_shape.1 * grid_shape.2) n_accessible_cells) in *.
  set (m := default (2 * (grid_shape.1 * grid_shape.2)) max_tree_depth) in *.
  set (cl := replicate (Z.to_nat lattice_dim)
               (replicate (Z.to_nat grid_shape.1)
                  (replicate (Z.to_nat grid_shape.2) false))).
  assert (∃ st, dfs_loop grid_shape n m do_forks fuel (dfs_init cl start) g1
                = Ok (st, g1)
                ∧ dfs_connection_list st = cl
                ∧ dfs_visited_cells st = {[start]}) as (st & Hloop & Hcl & Hvis).
  { destruct fuel as [|fuel]; [lia |].
    destruct (decide (n ≤ 1)) as [Hn|Hn].
    - exists (dfs_init cl start). split; [| done].
      cbn [dfs_loop]. unfold dfs_continue, dfs_init.
      cbn [dfs_stack dfs_visited_cells]. rewrite size_singleton.
      destruct (Z.ltb_spec (Z.of_nat 1) n); [lia | done].
    - assert (m < 2) as Hm by (destruct Hbounds as [?|[_ ?]]; [done | done]).
      exists {| dfs_connection_list := cl; dfs_visited_cells := {[start]};
                dfs_stack := []; dfs_current_tree_depth := 1 - 1 |}.
      split; [| done].
      cbn [dfs_loop]. unfold dfs_continue at 1, dfs_init.
      cbn [dfs_stack dfs_visited_cells]. rewrite size_singleton.
      destruct (Z.ltb_spec (Z.of_nat 1) n); [| lia].
      unfold bind, dfs_body. cbn [dfs_stack dfs_current_tree_depth].
      assert (depth_allows 1 m = false) as ->.
      { destruct (depth_allows 1 m) eqn:Hd; [| done].
        apply depth_allows_spec in Hd. lia. }
      rewrite andb_false_r. unfold ret.
      cbn [dfs_connection_list dfs_visited_cells].
      by destruct fuel. }
  exists (dfs_result grid_shape start n m st), g1, start.
  split; [| split; [done |]].
  - unfold gen_dfs. fold n m. unfold bind at 1. rewrite Hs.
    unfold bind at 1. rewrite np_full3_is_Ok by done. fold cl.
    unfold bind. rewrite Hloop. done.
  - split; [done |]. split; [by rewrite dfs_result_meta_cells, Hvis |].
    rewrite dfs_result_fully_connected, Hvis, size_singleton.
    f_equal. apply bool_decide_ext. lia.
Qed.

Lemma gen_dfs_degenerate_bounds_witness :
  (0 ≤ 3 ∧ 0 ≤ 3 ∧ 0 ≤ 2 ∧ (1 ≤ 1)%nat ∧ (3 * 3 ≤ 1 ∨ - 2 ^ 1024 ≤ 1 < 2))
  ∧ ∃ maze g' start,
      gen_dfs 1 (3, 3) 2 None (Some 1) true (Some (1, 1)) (const_rng 0)
        = Ok (maze, g')
      ∧ _random_start_coord (3, 3) (Some (1, 1)) (const_rng 0) = Ok (start, g')
      ∧ connection_list maze
        = replicate (Z.to_nat 2) (replicate (Z.to_nat 3) (replicate (Z.to_nat 3) false))
      ∧ meta_cells maze = Some {[start]}
      ∧ meta_bool "fully_connected" maze = Some (bool_decide (3 * 3 = 1)).
Proof.
  split; [split; [lia | split; [lia | split; [lia | split; [lia | right; lia]]]] |].
  apply (gen_dfs_degenerate_bounds 1 (3, 3) 2 None (Some 1) true (Some (1, 1))
           (const_rng 0)); [simpl; lia | simpl; lia | lia | lia | right; simpl; lia].
Defined.

(* ===================================================================== *)
(** ** Further properties of [gen_wilson] *)
(* ===================================================================== *)

Lemma count_unconnected_replicate rows cols :
  count_unconnected (replicate rows (replicate cols false)) = (rows * cols)%nat.
Proof.
  unfold count_unconnected.
  induction rows as [|rows IH]; [done |]. cbn [replicate concat].
  rewrite filter_app, length_app, IH. cbn [Nat.mul]. f_equal. clear IH.
  induction cols as [|cols IH]; [done |]. cbn [replicate].
  rewrite filter_cons, decide_True by done. cbn [length]. by rewrite IH.
Qed.

(** Marking an unmarked cell lowers the number of unmarked cells by one. *)
Lemma count_unconnected_mark (connected connected' : array2 bool) (c : Coord) :
  get2 connected c = Some false →
  set2 connected c true = Some connected' →
  (count_unconnected connected' + 1 = count_unconnected connected)%nat.
Proof.
  intros Hget Hset.
  destruct (set2_count (λ b : bool, b = false) _ _ _ _ Hset) as (old & Hold & Hc).
  rewrite Hget in Hold. injection Hold as <-.
  unfold count_unconnected. repeat case_decide; try done; lia.
Qed.

Lemma wilson_connect_count (cl cl' : ConnectionList) direction current next_cell :
  wilson_connect cl direction current next_cell = Some cl' →
  (count_open_edges cl' ≤ count_open_edges cl + 1)%nat.
Proof.
  unfold wilson_connect. intros Hset.
  repeat case_match;
    first [ apply set3_count in Hset as ([] & -> & _); lia
          | injection Hset as <-; lia ].
Qed.

Lemma wilson_retrace_inv rows cols fuel st current g st' g' :
  wilson_retrace rows cols fuel st current g = Ok (st', g') →
  wilson_inv rows cols st → wilson_inv rows cols st'.
Proof.
  revert st current g.
  induction fuel as [|fuel IH]; intros st current g Hrun Hinv; simpl in Hrun; inv_M.
  - destruct (negb a); inv_M; done.
  - destruct (negb a) eqn:Ha; inv_M; [| done].
    apply negb_true_iff in Ha. subst a.
    match goal with
    | Hget : get2 (w_connected st) current = Some false,
      Hset : set2 (w_connected st) current true = Some ?c' |- _ =>
        pose proof (count_unconnected_mark _ _ _ Hget Hset) as Hmark
    end.
    destruct Hinv as [Hleft Hedges].
    destruct (neighbor rows cols current a0) as [next_cell|] eqn:Hn; inv_M.
    + match goal with Hrec : wilson_retrace _ _ _ _ _ _ = Ok _ |- _ =>
        eapply IH in Hrec; [done |] end.
      match goal with Hc : wilson_connect _ _ _ _ = Some _ |- _ =>
        apply wilson_connect_count in Hc end.
      unfold wilson_inv. simpl. lia.
    + unfold wilson_inv. simpl. lia.
Qed.

Lemma wilson_iteration_inv rows cols inner st g st' g' :
  wilson_iteration rows cols inner st g = Ok (st', g') →
  wilson_inv rows cols st → wilson_inv rows cols st'.
Proof.
  unfold wilson_iteration. intros Hrun Hinv. inv_M.
  match goal with Hrec : wilson_retrace _ _ _ _ _ _ = Ok _ |- _ =>
    eapply wilson_retrace_inv in Hrec; [done |] end.
  exact Hinv.
Qed.

Lemma wilson_outer_inv rows cols inner fuel st g st' g' :
  wilson_outer rows cols inner fuel st g = Ok (st', g') →
  wilson_inv rows cols st →
  wilson_inv rows cols st' ∧ w_cells_left st' = 0.
Proof.
  revert st g. induction fuel as [|fuel IH]; intros st g Hrun Hinv; simpl in Hrun.
  - destruct (0 <? w_cells_left st) eqn:Hc; inv_M.
    split; [done |]. apply Z.ltb_ge in Hc. destruct Hinv as [Hleft _]. lia.
  - destruct (0 <? w_cells_left st) eqn:Hc; inv_M.
    + eapply IH; [done |]. by eapply wilson_iteration_inv.
    + split; [done |]. apply Z.ltb_ge in Hc. destruct Hinv as [Hleft _]. lia.
Qed.

Lemma np_full2_Ok {A} (x : A) rows cols g a g' :
  np_full2 x rows cols g = Ok (a, g') →
  0 ≤ rows ∧ 0 ≤ cols ∧ g' = g
  ∧ a = replicate (Z.to_nat rows) (replicate (Z.to_nat cols) x).
Proof.
  unfold np_full2. case_match eqn:Hneg; intros Hrun; inv_M.
  apply orb_false_iff in Hneg as [? ?]. repeat split; try done; lia.
Qed.

Lemma wilson_init_inv rows cols g st g' :
  wilson_init rows cols g = Ok (st, g') → wilson_inv rows cols st.
Proof.
  unfold wilson_init. intros Hrun. inv_M.
  match goal with Hz : np_full3 _ _ _ _ _ = Ok _ |- _ =>
    apply np_full3_Ok in Hz as (_ & Hr & Hc & _ & ->) end.
  match goal with Hz : np_full2 false _ _ _ = Ok _ |- _ =>
    apply np_full2_Ok in Hz as (_ & _ & _ & ->) end.
  match goal with Hset : set2 _ _ true = Some _ |- _ =>
    destruct (set2_count (λ b : bool, b = false) _ _ _ _ Hset)
      as (old & Hold & Hcount) end.
  pose proof (count_unconnected_replicate (Z.to_nat rows) (Z.to_nat cols)) as Hrep.
  unfold count_unconnected in Hrep. rewrite Hrep in Hcount.
  assert (old = false) as ->.
  { unfold get2 in Hold.
    apply bind_Some in Hold as (i & _ & Hold).
    apply bind_Some in Hold as (row & Hrow & Hold).
    apply bind_Some in Hold as (j & _ & Hold).
    apply lookup_replicate in Hrow as [-> _].
    by apply lookup_replicate in Hold as [-> _]. }
  unfold wilson_inv, count_unconnected.
  cbn [w_cells_left w_connected w_connection_list].
  rewrite count_open_edges_replicate.
  rewrite decide_True in Hcount by done.
  rewrite decide_False in Hcount by done. nia.
Qed.

(** X5. Whenever [gen_wilson] returns, the maze has at most
    [rows * cols - 1] open edges: the retrace opens at most one edge for
    each cell it marks as connected, and [rows * cols - 1] cells are
    marked after the seed. *)
Theorem gen_wilson_edge_count (fuel : nat) (grid_shape : Coord) (g g' : rng)
    (maze : LatticeMaze) :
  gen_wilson fuel grid_shape g = Ok (maze, g') →
  Z.of_nat (count_open_edges (connection_list maze))
  ≤ grid_shape.1 * grid_shape.2 - 1.
Proof.
  unfold gen_wilson. intros Hrun. inv_M. simpl.
  match goal with Hz : wilson_init _ _ _ = Ok _ |- _ =>
    apply wilson_init_inv in Hz end.
  match goal with Hz : wilson_outer _ _ _ _ _ _ = Ok _ |- _ =>
    eapply wilson_outer_inv in Hz as [[_ Hedges] Hzero]; [| done] end.
  lia.
Qed.

Lemma gen_wilson_edge_count_witness :
  ∃ maze g',
    gen_wilson 40 (2, 3)
      (list_rng [1; 2; 0; 0; 1; 5; 3; 0; 2; 1; 4; 4; 0; 1; 3; 2; 1; 1; 0; 2;
                 3; 1; 1; 0; 0; 2; 1; 3; 5; 1; 2; 2; 0; 1; 3]%nat []) = Ok (maze, g')
    ∧ Z.of_nat (count_open_edges (connection_list maze)) ≤ 2 * 3 - 1.
Proof.
  eexists _, _. split; [vm_compute; reflexivity |].
  eapply (gen_wilson_edge_count 40 (2, 3)
            (list_rng [1; 2; 0; 0; 1; 5; 3; 0; 2; 1; 4; 4; 0; 1; 3; 2; 1; 1; 0; 2;
                       3; 1; 1; 0; 0; 2; 1; 3; 5; 1; 2; 2; 0; 1; 3]%nat [])).
  vm_compute. reflexivity.
Defined.

(** X6. [gen_wilson] refuses a grid without cells: when a side of
    [grid_shape] is zero or negative the call raises [ValueError], from
    [np.zeros] for a negative side and from [random.randint(0, -1)] for a
    zero one. *)
Theorem gen_wilson_empty_grid (fuel : nat) (grid_shape : Coord) (g : rng) :
  grid_shape.1 ≤ 0 ∨ grid_shape.2 ≤ 0 →
  gen_wilson fuel grid_shape g = Raise ValueError.
Proof.
  intros Hempty. unfold gen_wilson, wilson_init, np_full3, np_full2.
  unfold bind at 1. unfold bind at 1.
  destruct (grid_shape.1 <? 0) eqn:Hr; [done |].
  destruct (grid_shape.2 <? 0) eqn:Hc; [done |].
  apply Z.ltb_ge in Hr, Hc. simpl. unfold ret at 1.
  unfold bind at 1. unfold ret at 1. unfold bind at 1. unfold ret at 1.
  unfold bind at 1. unfold random_randint at 1.
  destruct (grid_shape.1 - 1 <? 0) eqn:Hr1; [done |].
  apply Z.ltb_ge in Hr1.
  unfold bind at 1, py_draw at 1, ret at 1.
  unfold bind at 1. unfold random_randint at 1.
  destruct (grid_shape.2 - 1 <? 0) eqn:Hc1; [done |].
  apply Z.ltb_ge in Hc1. lia.
Qed.

Lemma gen_wilson_empty_grid_witness :
  (0 ≤ 0 ∨ 4 ≤ 0) ∧ gen_wilson 5 (0, 4) (const_rng 0) = Raise ValueError.
Proof.
  split; [left; lia |].
  apply (gen_wilson_empty_grid 5 (0, 4) (const_rng 0)). left. simpl. lia.
Defined.

(** The four moves of [neighbor] from a grid cell, and when each stays in
    the grid. *)
Lemma neighbor_is_Some rows cols (current : Coord) :
  in_grid rows cols current →
  (0 < current.2 → neighbor rows cols current 0 = Some (current.1, current.2 - 1))
  ∧ (current.2 < cols - 1 →
     neighbor rows cols current 1 = Some (current.1, current.2 + 1))
  ∧ (0 < current.1 → neighbor rows cols current 2 = Some (current.1 - 1, current.2))
  ∧ (current.1 < rows - 1 →
     neighbor rows cols current 3 = Some (current.1 + 1, current.2)).
Proof.
  intros [Hr Hc]. unfold neighbor.
  change (0 =? 0) with true. change (1 =? 0) with false. change (1 =? 1) with true.
  change (2 =? 0) with false. change (2 =? 1) with false. change (2 =? 2) with true.
  change (3 =? 0) with false. change (3 =? 1) with false. change (3 =? 2) with false.
  change (3 =? 3) with true. cbv iota.
  repeat split; intros Hd;
    match goal with |- (if ?b then _ else _) = _ =>
      assert (b = true) as ->
        by (repeat (apply andb_true_intro; split);
            first [apply Z.leb_le | apply Z.ltb_lt]; lia)
    end; done.
Qed.

(** The re-roll loop turns through the directions until the first one
    whose neighbour lies in the grid. *)
Lemma wilson_redirect_turns rows cols current cell g k :
  ∀ fuel direction,
    (k ≤ fuel)%nat → 0 ≤ direction ≤ 3 →
    (∀ i, (i < k)%nat →
          neighbor rows cols current ((direction + Z.of_nat i) mod 4) = None) →
    neighbor rows cols current ((direction + Z.of_nat k) mod 4) = Some cell →
    wilson_redirect rows cols fuel current direction
      (neighbor rows cols current direction) g
    = Ok (((direction + Z.of_nat k) mod 4, cell), g).
Proof.
  induction k as [|k IH]; intros fuel direction Hfuel Hdir Hnone Hsome.
  - rewrite Z.add_0_r, Z.mod_small in * by lia. rewrite Hsome. by destruct fuel.
  - destruct fuel as [|fuel]; [lia |].
    pose proof (Hnone 0%nat ltac:(lia)) as H0.
    rewrite Z.add_0_r, Z.mod_small in H0 by lia. rewrite H0.
    cbn [wilson_redirect].
    assert (∀ i, (direction + Z.of_nat (S i)) mod 4
                 = ((direction + 1) mod 4 + Z.of_nat i) mod 4) as Hshift.
    { intros i. rewrite Zplus_mod_idemp_l. f_equal. lia. }
    rewrite Hshift. apply IH.
    + lia.
    + pose proof (Z.mod_pos_bound (direction + 1) 4). lia.
    + intros i Hi. rewrite <- Hshift. apply Hnone. lia.
    + by rewrite <- Hshift.
Qed.

(** X7. The re-roll loop of the random walk of [gen_wilson] (lines
    210-212) ends within three turns: from any cell of a grid with at
    least two cells, and any direction drawn by [random.randint(0, 3)], it
    settles on a direction whose neighbour lies in the grid, and consumes
    no randomness. *)
Theorem wilson_redirect_finds_neighbor (rows cols : Z) (fuel : nat)
    (current : Coord) (direction : Z) (g : rng) :
  in_grid rows cols current → 2 ≤ rows * cols → 0 ≤ direction ≤ 3 →
  (3 ≤ fuel)%nat →
  ∃ d cell,
    wilson_redirect rows cols fuel current direction
      (neighbor rows cols current direction) g = Ok ((d, cell), g)
    ∧ 0 ≤ d ≤ 3
    ∧ neighbor rows cols current d = Some cell
    ∧ in_grid rows cols cell.
Proof.
  intros Hin Hcells Hdir Hfuel.
  pose proof (neighbor_is_Some rows cols current Hin) as (Hleft & Hright & Hup & Hdown).
  assert (∃ k cell, (k ≤ 3)%nat
            ∧ (∀ i, (i < k)%nat →
                    neighbor rows cols current ((direction + Z.of_nat i) mod 4) = None)
            ∧ neighbor rows cols current ((direction + Z.of_nat k) mod 4) = Some cell)
    as (k & cell & Hk & Hnone & Hsome).
  { destruct (neighbor rows cols current ((direction + Z.of_nat 0) mod 4))
      as [cell|] eqn:H0.
    { exists 0%nat, cell. split; [lia |]. split; [intros; lia | done]. }
    destruct (neighbor rows cols current ((direction + Z.of_nat 1) mod 4))
      as [cell|] eqn:H1.
    { exists 1%nat, cell. split; [lia |]. split; [| done].
      intros i Hi. by replace i with 0%nat by lia. }
    destruct (neighbor rows cols current ((direction + Z.of_nat 2) mod 4))
      as [cell|] eqn:H2.
    { exists 2%nat, cell. split; [lia |]. split; [| done].
      intros i Hi. assert (i = 0 ∨ i = 1)%nat as [-> | ->] by lia; done. }
    destruct (neighbor rows cols current ((direction + Z.of_nat 3) mod 4))
      as [cell|] eqn:H3.
    { exists 3%nat, cell. split; [lia |]. split; [| done].
      intros i Hi. assert (i = 0 ∨ i = 1 ∨ i = 2)%nat as [-> | [-> | ->]] by lia; done. }
    exfalso.
    assert (∀ d, 0 ≤ d ≤ 3 → neighbor rows cols current d = None) as Hall.
    { intros d Hd.
      assert (direction = 0 ∨ direction = 1 ∨ direction = 2 ∨ direction = 3)
        as [-> | [-> | [-> | ->]]] by lia;
        assert (d = 0 ∨ d = 1 ∨ d = 2 ∨ d = 3) as [-> | [-> | [-> | ->]]] by lia;
        first [exact H0 | exact H1 | exact H2 | exact H3]. }
    assert (0 < current.2 ∨ current.2 < cols - 1 ∨ 0 < current.1 ∨ current.1 < rows - 1)
      as [Hs|[Hs|[Hs|Hs]]] by (destruct Hin; nia).
    - apply Hleft in Hs. rewrite Hall in Hs by lia. done.
    - apply Hright in Hs. rewrite Hall in Hs by lia. done.
    - apply Hup in Hs. rewrite Hall in Hs by lia. done.
    - apply Hdown in Hs. rewrite Hall in Hs by lia. done. }
  exists ((direction + Z.of_nat k) mod 4), cell.
  split; [apply wilson_redirect_turns; [lia | done | done | done] |].
  split; [pose proof (Z.mod_pos_bound (direction + Z.of_nat k) 4); lia |].
  split; [done |]. by apply neighbor_Some in Hsome as [? _].
Qed.

Lemma wilson_redirect_finds_neighbor_witness :
  (in_grid 1 2 (0, 0) ∧ 2 ≤ 1 * 2 ∧ 0 ≤ 2 ≤ 3 ∧ (3 ≤ 3)%nat)
  ∧ ∃ d cell,
      wilson_redirect 1 2 3 (0, 0) 2 (neighbor 1 2 (0, 0) 2) (const_rng 0)
        = Ok ((d, cell), const_rng 0)
      ∧ 0 ≤ d ≤ 3
      ∧ neighbor 1 2 (0, 0) d = Some cell
      ∧ in_grid 1 2 cell.
Proof.
  assert (in_grid 1 2 (0, 0)) as Hin by (unfold in_grid; simpl; lia).
  split; [split; [exact Hin | split; [lia | split; [lia | lia]]] |].
  apply (wilson_redirect_finds_neighbor 1 2 3 (0, 0) 2 (const_rng 0));
    [exact Hin | lia | lia | lia].
Defined.

(* ===================================================================== *)
(** ** Lists: [index] and slices *)
(* ===================================================================== *)

Section list_index.
Context {A : Type} `{EqDecision A}.

Lemma list_index_Returns (l : list A) (value : A) i :
  list_index l value = Returns i ↔
  l !! i = Some value ∧ ∀ j, (j < i)%nat → l !! j ≠ Some value.
Proof.
  unfold list_index.
  destruct (list_find (λ x, x = value) l) as [[i' x]|] eqn:Hfind.
  - apply list_find_Some in Hfind as (Hi & -> & Hfirst). split.
    + intros [= <-]. split; [done |]. intros j Hj Hl. by eapply Hfirst.
    + intros [Hl Hmin]. f_equal.
      destruct (Nat.lt_trichotomy i i') as [Hlt|[->|Hlt]]; [| done |].
      * exfalso. by eapply Hfirst.
      * exfalso. by eapply Hmin.
  - split; [done |]. intros [Hl _]. exfalso.
    apply list_find_None in Hfind. eapply Forall_lookup_1 in Hfind; [| done]. done.
Qed.

Lemma list_index_Raises (l : list A) (value : A) e :
  list_index l value = Raises e ↔ e = ValueError ∧ (value ∉ l).
Proof.
  unfold list_index.
  destruct (list_find (λ x, x = value) l) as [[i' x]|] eqn:Hfind.
  - apply list_find_Some in Hfind as (Hi & -> & _). split; [done |].
    intros [_ Hnot]. exfalso. apply Hnot. by eapply list_elem_of_lookup_2.
  - apply list_find_None in Hfind. split.
    + intros [= <-]. split; [done |]. intros Hin.
      eapply Forall_forall in Hfind; [| done]. done.
    + by intros [-> _].
Qed.

(** The first occurrence splits the list. *)
Lemma list_index_split (l : list A) (value : A) i :
  list_index l value = Returns i ↔
  ∃ pre post, l = pre ++ value :: post ∧ (value ∉ pre) ∧ length pre = i.
Proof.
  rewrite list_index_Returns. split.
  - intros [Hl Hmin]. exists (take i l), (drop (S i) l).
    split; [by rewrite take_drop_middle |].
    pose proof (lookup_lt_Some _ _ _ Hl).
    split; [| rewrite length_take; lia].
    intros Hin. apply elem_of_take in Hin as (j & Hj & Hlt). by eapply Hmin.
  - intros (pre & post & -> & Hnot & <-). split.
    + by rewrite list_lookup_middle.
    + intros j Hj Hl. rewrite lookup_app_l in Hl by done.
      apply Hnot. by eapply list_elem_of_lookup_2.
Qed.

Lemma list_index_is_Returns (l : list A) (value : A) :
  value ∈ l → ∃ i, list_index l value = Returns i.
Proof.
  intros Hin. destruct (list_index l value) as [i|e] eqn:Hidx; [eauto |].
  apply list_index_Raises in Hidx as [_ Hnot]. done.
Qed.
End list_index.

Lemma slice_app3 {A} (l1 l2 l3 : list A) :
  slice (l1 ++ l2 ++ l3) (length l1) (length l1 + length l2) = l2.
Proof.
  unfold slice. rewrite drop_app_length.
  replace (length l1 + length l2 - length l1)%nat with (length l2) by lia.
  by rewrite take_app_length.
Qed.

(* ===================================================================== *)
(** ** [tokens_between] and the functions built on it *)
(* ===================================================================== *)

Lemma tokens_between_exclusive_inv (tokens : list string)
    (start_value end_value : string) (between : list string) :
  tokens_between tokens start_value end_value false false = Returns between →
  between ≠ []
  ∧ ∃ pre post,
      tokens = pre ++ start_value :: between ++ end_value :: post
      ∧ (start_value ∉ pre)
      ∧ (end_value ∉ pre) ∧ end_value ≠ start_value ∧ (end_value ∉ between).
Proof.
  unfold tokens_between. cbn [negb Nat.b2n].
  destruct (list_index tokens start_value) as [i|e] eqn:Hi; [| done].
  destruct (list_index tokens end_value) as [j|e] eqn:Hj; [| done].
  destruct (Nat.ltb_spec (i + 1) (j + 0)) as [Hlt|]; [| done].
  intros [= <-].
  apply list_index_split in Hi as (pre & post & Htok & Hnot & Hlen).
  apply list_index_Returns in Hj as [Hend Hmin].
  assert (post !! (j - i - 1)%nat = Some end_value) as Hpost.
  { rewrite Htok in Hend. rewrite lookup_app_r in Hend by lia.
    rewrite lookup_cons_ne_0 in Hend by lia.
    rewrite <- Hend. f_equal. lia. }
  assert (slice tokens (i + 1) (j + 0) = take (j - i - 1) post) as Hslice.
  { unfold slice. rewrite Htok.
    replace (i + 1)%nat with (length (pre ++ [start_value]))
      by (rewrite length_app; simpl; lia).
    rewrite (cons_middle start_value pre post), app_assoc, drop_app_length.
    f_equal. rewrite length_app. simpl. lia. }
  rewrite Hslice. split.
  { pose proof (lookup_lt_Some _ _ _ Hpost).
    intros Hnil. apply (f_equal length) in Hnil.
    rewrite length_take in Hnil. simpl in Hnil. lia. }
  exists pre, (drop (S (j - i - 1)) post).
  split; [by rewrite take_drop_middle |]. split; [done |].
  assert (∀ k, (k < j)%nat → tokens !! k ≠ Some end_value) as Hmin' by done.
  split; [| split].
  + intros Hin. apply list_elem_of_lookup in Hin as [k Hk].
    pose proof (lookup_lt_Some _ _ _ Hk).
    apply (Hmin' k); [lia |]. rewrite Htok. by rewrite lookup_app_l.
  + intros ->. apply (Hmin' i); [lia |]. rewrite Htok, <- Hlen.
    by rewrite list_lookup_middle.
  + intros Hin. apply elem_of_take in Hin as (k & Hk & Hlt').
    apply (Hmin' (i + 1 + k)%nat); [lia |]. rewrite Htok.
    rewrite lookup_app_r by lia.
    replace (i + 1 + k - length pre)%nat with (S k) by lia. done.
Qed.

Lemma tokens_between_exclusive_intro (pre between post : list string)
    (start_value end_value : string) :
  between ≠ [] → (start_value ∉ pre) →
  (end_value ∉ pre) → end_value ≠ start_value → (end_value ∉ between) →
  tokens_between (pre ++ start_value :: between ++ end_value :: post)
    start_value end_value false false = Returns between.
Proof.
  unfold tokens_between. cbn [negb Nat.b2n].
  intros Hne Hs He1 He2 He3.
  rewrite (proj2 (list_index_split _ start_value (length pre)))
    by (exists pre, (between ++ end_value :: post); done).
  rewrite (proj2 (list_index_split _ end_value
                    (length (pre ++ start_value :: between)))).
  2:{ exists (pre ++ start_value :: between), post.
      split; [by rewrite <- app_assoc |]. split; [| done].
      rewrite elem_of_app, elem_of_cons. naive_solver. }
  rewrite length_app. cbn [length].
  destruct between as [|b between]; [done |]. cbn [length].
  destruct (Nat.ltb_spec (length pre + 1)
              (length pre + S (S (length between)) + 0)) as [_|]; [| lia].
  f_equal.
  pose proof (slice_app3 (pre ++ [start_value]) (b :: between) (end_value :: post))
    as Hslice.
  rewrite length_app in Hslice. cbn [length] in Hslice.
  rewrite <- app_assoc in Hslice. cbn [app] in Hslice.
  rewrite <- Hslice at 2. f_equal. lia.
Qed.

(** X8. [tokens_between] with both ends excluded (the default) returns
    exactly when the list reads [pre ++ start :: between ++ end :: post]
    with [between] not empty, [start] absent from [pre] and [end] absent
    from everything up to that point; it then returns [between].  Start
    and end are located by their first occurrences.  [get_adj_list_tokens]
    is this call between the two adjacency-list markers. *)
Theorem tokens_between_exclusive (tokens : list string)
    (start_value end_value : string) (between : list string) :
  (tokens_between tokens start_value end_value false false = Returns between ↔
   between ≠ []
   ∧ ∃ pre post,
       tokens = pre ++ start_value :: between ++ end_value :: post
       ∧ (start_value ∉ pre)
       ∧ (end_value ∉ pre) ∧ end_value ≠ start_value ∧ (end_value ∉ between))
  ∧ ∀ SPECIAL_TOKENS,
      start_value = SPECIAL_TOKENS "adj_list_start" →
      end_value = SPECIAL_TOKENS "adj_list_end" →
      get_adj_list_tokens SPECIAL_TOKENS tokens
      = tokens_between tokens start_value end_value false false.
Proof.
  split; [split |].
  - apply tokens_between_exclusive_inv.
  - intros (Hne & pre & post & -> & Hs & He1 & He2 & He3).
    by apply tokens_between_exclusive_intro.
  - by intros SPECIAL_TOKENS -> ->.
Qed.

(** X9. The exceptions of [tokens_between], for every setting of the
    include flags: [ValueError] exactly when the start or the end value is
    missing from the list; otherwise the slice or an [AssertionError], and
    never an [IndexError].  With both ends excluded a start immediately
    followed by the end raises [AssertionError]: an empty range is an error,
    not an empty list. *)
Theorem tokens_between_errors (tokens : list string)
    (start_value end_value : string) (include_start include_end : bool) :
  (tokens_between tokens start_value end_value include_start include_end
     = Raises ValueError
   ↔ (start_value ∉ tokens) ∨ (end_value ∉ tokens))
  ∧ (start_value ∈ tokens → end_value ∈ tokens →
     (∃ between,
        tokens_between tokens start_value end_value include_start include_end
          = Returns between ∧ between ≠ [])
     ∨ tokens_between tokens start_value end_value include_start include_end
         = Raises AssertionError)
  ∧ (∀ pre post,
       (start_value ∉ pre) → (end_value ∉ pre) → end_value ≠ start_value →
       tokens_between (pre ++ start_value :: end_value :: post)
         start_value end_value false false = Raises AssertionError).
Proof.
  split; [| split].
  - unfold tokens_between.
    destruct (list_index tokens start_value) as [i|e] eqn:Hi.
    + destruct (list_index tokens end_value) as [j|e] eqn:Hj.
      * apply list_index_Returns in Hi as [Hi _], Hj as [Hj _].
        apply list_elem_of_lookup_2 in Hi, Hj.
        split; [by case_match | tauto].
      * apply list_index_Raises in Hj as [-> Hj]. tauto.
    + apply list_index_Raises in Hi as [-> Hi]. tauto.
  - intros Hs He. unfold tokens_between.
    destruct (list_index_is_Returns _ _ Hs) as [i Hi].
    destruct (list_index_is_Returns _ _ He) as [j Hj].
    rewrite Hi, Hj.
    destruct (Nat.ltb_spec (i + Nat.b2n (negb include_start))
                (j + Nat.b2n include_end)) as [Hlt|]; [left | by right].
    eexists. split; [done |].
    apply list_index_Returns in Hj as [Hj _].
    pose proof (lookup_lt_Some _ _ _ Hj) as Hlen.
    intros Hnil. apply (f_equal length) in Hnil. unfold slice in Hnil.
    rewrite length_take, length_drop in Hnil. simpl in Hnil.
    destruct include_start, include_end; simpl in *; lia.
  - intros pre post Hs He Hne. unfold tokens_between. cbn [negb Nat.b2n].
    rewrite (proj2 (list_index_split _ start_value (length pre)))
      by (exists pre, (end_value :: post); done).
    rewrite (proj2 (list_index_split _ end_value (length (pre ++ [start_value])))).
    2:{ exists (pre ++ [start_value]), post.
        split; [by rewrite <- app_assoc |]. split; [| done].
        rewrite elem_of_app, list_elem_of_singleton. naive_solver. }
    rewrite length_app. cbn [length].
    destruct (Nat.ltb_spec (length pre + 1) (length pre + 1 + 0)); [lia | done].
Qed.

(** X10. [get_origin_token] and [get_target_token] return the token that
    follows the first start marker, provided the matching end marker first
    occurs later and not right after it.  The subscript [[0]] never raises
    [IndexError], because [tokens_between] never returns an empty list. *)
Theorem get_origin_target_token (SPECIAL_TOKENS : string → string)
    (tokens : list string) (token : string) :
  (get_origin_token SPECIAL_TOKENS tokens = Returns token ↔
   ∃ pre rest post,
     tokens = pre ++ SPECIAL_TOKENS "origin_start" :: token :: rest
                  ++ SPECIAL_TOKENS "origin_end" :: post
     ∧ (SPECIAL_TOKENS "origin_start" ∉ pre)
     ∧ (SPECIAL_TOKENS "origin_end"
         ∉ (pre ++ SPECIAL_TOKENS "origin_start" :: token :: rest)))
  ∧ (get_target_token SPECIAL_TOKENS tokens = Returns token ↔
     ∃ pre rest post,
       tokens = pre ++ SPECIAL_TOKENS "target_start" :: token :: rest
                    ++ SPECIAL_TOKENS "target_end" :: post
       ∧ (SPECIAL_TOKENS "target_start" ∉ pre)
       ∧ (SPECIAL_TOKENS "target_end"
           ∉ (pre ++ SPECIAL_TOKENS "target_start" :: token :: rest)))
  ∧ get_origin_token SPECIAL_TOKENS tokens ≠ Raises IndexError
  ∧ get_target_token SPECIAL_TOKENS tokens ≠ Raises IndexError.
Proof.
  assert (∀ s e,
            (match tokens_between tokens s e false false with
             | Raises e => Raises e
             | Returns between => first_item between
             end = Returns token
             ↔ ∃ pre rest post,
                 tokens = pre ++ s :: token :: rest ++ e :: post
                 ∧ (s ∉ pre) ∧ (e ∉ (pre ++ s :: token :: rest)))
            ∧ match tokens_between tokens s e false false with
              | Raises e => Raises e
              | Returns between => first_item between
              end ≠ Raises IndexError) as Hboth.
  { intros s e. split; [split |].
    - destruct (tokens_between tokens s e false false) as [between|err] eqn:Hb;
        [| done].
      apply tokens_between_exclusive_inv in Hb
        as (Hne & pre & post & -> & Hs & He1 & He2 & He3).
      destruct between as [|t rest]; [done |]. intros [= ->].
      exists pre, rest, post. split; [done |]. split; [done |].
      rewrite elem_of_app, elem_of_cons. naive_solver.
    - intros (pre & rest & post & -> & Hs & He).
      rewrite elem_of_app, elem_of_cons in He.
      pose proof (tokens_between_exclusive_intro pre (token :: rest) post s e)
        as Hb.
      cbn [app] in Hb. rewrite Hb; [done | done | done | | |]; naive_solver.
    - destruct (tokens_between tokens s e false false) as [between|err] eqn:Hb.
      + apply tokens_between_exclusive_inv in Hb as [Hne _].
        by destruct between.
      + unfold tokens_between in Hb.
        destruct (list_index tokens s) as [i|e1] eqn:Hi.
        * destruct (list_index tokens e) as [j|e2] eqn:Hj.
          -- case_match; [done |]. by injection Hb as <-.
          -- apply list_index_Raises in Hj as [-> _]. by injection Hb as <-.
        * apply list_index_Raises in Hi as [-> _]. by injection Hb as <-. }
  unfold get_origin_token, get_target_token.
  split; [apply Hboth |]. split; [apply Hboth |]. split; apply Hboth.
Qed.

(* ===================================================================== *)
(** ** The path and its context *)
(* ===================================================================== *)

(** X11. [get_path_tokens] raises [ValueError] exactly when the
    [path_start] token is missing, and nothing else.  Without [trim_end] it
    returns the list from the first [path_start] on, that token included.
    With [trim_end] it returns what lies strictly between the first
    [path_start] and the first [path_end] (or the end of the list when
    there is no [path_end]), so the result never contains [path_end]; when
    the first [path_end] comes before the first [path_start] the result is
    empty. *)
Theorem get_path_tokens_spec (SPECIAL_TOKENS : string → string)
    (tokens : list string) :
  let path_start := SPECIAL_TOKENS "path_start" in
  let path_end := SPECIAL_TOKENS "path_end" in
  (∀ trim_end e,
     get_path_tokens SPECIAL_TOKENS tokens trim_end = Raises e
     ↔ e = ValueError ∧ (path_start ∉ tokens))
  ∧ (∀ pre post,
       (path_start ∉ pre) → tokens = pre ++ path_start :: post →
       get_path_tokens SPECIAL_TOKENS tokens false = Returns (path_start :: post)
       ∧ ∃ path rest,
           get_path_tokens SPECIAL_TOKENS tokens true = Returns path
           ∧ post = path ++ rest
           ∧ (path_end ∉ path)
           ∧ (path_end ∈ (pre ++ [path_start]) → path = [])
           ∧ ((path_end ∉ (pre ++ [path_start])) →
              rest = [] ∨ head rest = Some path_end)).
Proof.
  intros path_start path_end. split.
  - intros trim_end e. unfold get_path_tokens. fold path_start path_end.
    case_bool_decide as Hin; simpl.
    + destruct (list_index_is_Returns _ _ Hin) as [i Hi]. rewrite Hi.
      split; [| tauto].
      case_bool_decide as Hend; rewrite ?andb_true_r, ?andb_false_r.
      * destruct trim_end; [| done].
        destruct (list_index_is_Returns _ _ Hend) as [j Hj]. by rewrite Hj.
      * done.
    + split; [by intros [= <-] | by intros [-> _]].
  - intros pre post Hpre ->. unfold get_path_tokens. fold path_start path_end.
    assert (list_index (pre ++ path_start :: post) path_start = Returns (length pre))
      as Hi by (apply list_index_split; eauto).
    rewrite bool_decide_eq_true_2 by (rewrite elem_of_app, elem_of_cons; auto).
    rewrite Hi. cbn [negb andb Nat.b2n]. split.
    { by rewrite Nat.add_0_r, drop_app_length. }
    assert (drop (length pre + 1) (pre ++ path_start :: post) = post) as Hdrop.
    { rewrite (cons_middle path_start pre post), app_assoc.
      rewrite drop_app_length'; [done |]. rewrite length_app. simpl. lia. }
    case_bool_decide as Hend.
    + destruct (list_index_is_Returns _ _ Hend) as [j Hj]. rewrite Hj.
      unfold slice. rewrite Hdrop.
      exists (take (j - (length pre + 1)) post), (drop (j - (length pre + 1)) post).
      split; [done |]. split; [by rewrite take_drop |].
      apply list_index_Returns in Hj as [Hj Hmin].
      split; [| split].
      * intros Hin. apply elem_of_take in Hin as (k & Hk & Hlt).
        apply (Hmin (length pre + 1 + k)%nat); [lia |].
        rewrite lookup_app_r by lia.
        replace (length pre + 1 + k - length pre)%nat with (S k) by lia. done.
      * intros Hin. apply list_elem_of_lookup in Hin as [k Hk].
        pose proof (lookup_lt_Some _ _ _ Hk) as Hlen.
        rewrite length_app in Hlen. simpl in Hlen.
        assert (j ≤ k)%nat as Hjk.
        { destruct (decide (j ≤ k)%nat); [done |]. exfalso.
          apply (Hmin k); [lia |].
          rewrite (cons_middle path_start pre post), app_assoc.
          by rewrite lookup_app_l by (rewrite length_app; simpl; lia). }
        replace (j - (length pre + 1))%nat with 0%nat by lia. done.
      * intros Hnot.
        assert (length pre + 1 ≤ j)%nat as Hle.
        { destruct (decide (length pre + 1 ≤ j)%nat); [done |]. exfalso.
          apply Hnot. eapply list_elem_of_lookup_2 with (i := j).
          rewrite (cons_middle path_start pre post), app_assoc in Hj.
          by rewrite lookup_app_l in Hj by (rewrite length_app; simpl; lia). }
        right. rewrite head_lookup, lookup_drop, Nat.add_0_r.
        rewrite lookup_app_r in Hj by lia.
        replace (j - length pre)%nat with (S (j - (length pre + 1))) in Hj by lia.
        done.
    + rewrite Hdrop. exists post, []. split; [done |].
      split; [by rewrite app_nil_r |].
      rewrite !elem_of_app, elem_of_cons in Hend.
      split; [tauto |]. split; [| by left].
      intros Hin. exfalso. apply Hend.
      apply elem_of_app in Hin as [Hin|Hin]; [by left |].
      apply list_elem_of_singleton in Hin. right. by left.
Qed.

Lemma get_path_tokens_spec_witness :
  let SPECIAL_TOKENS := λ key : string, ("<" +:+ key +:+ ">")%string in
  let tokens := ["<adj_list_start>"; "<path_start>"; "(0,0)"; "(0,1)";
                 "<path_end>"; "<-->"]%string in
  (("<path_start>"%string ∉ ["<adj_list_start>"%string])
   ∧ tokens = ["<adj_list_start>"%string]
                ++ "<path_start>"%string
                   :: ["(0,0)"; "(0,1)"; "<path_end>"; "<-->"]%string)
  ∧ get_path_tokens SPECIAL_TOKENS tokens false
    = Returns ["<path_start>"; "(0,0)"; "(0,1)"; "<path_end>"; "<-->"]%string
  ∧ get_path_tokens SPECIAL_TOKENS tokens true = Returns ["(0,0)"; "(0,1)"]%string.
Proof.
  intros SPECIAL_TOKENS tokens.
  assert ("<path_start>"%string ∉ ["<adj_list_start>"%string]) as Hpre
    by (apply (proj1 (bool_decide_eq_true _)); vm_compute; reflexivity).
  split; [split; [exact Hpre | reflexivity] |].
  destruct (get_path_tokens_spec SPECIAL_TOKENS tokens) as [_ Hspec].
  destruct (Hspec ["<adj_list_start>"%string]
              ["(0,0)"; "(0,1)"; "<path_end>"; "<-->"]%string Hpre eq_refl)
    as [Hfalse _].
  split; [exact Hfalse | vm_compute; reflexivity].
Defined.

(** X12. [get_tokens_up_to_path_start] raises [ValueError] exactly when
    [path_start] is missing.  Otherwise it returns the list up to and
    including the first [path_start], followed with
    [include_start_coord] by the one token after it, if there is one: when
    [path_start] is the last token both settings return the same list.
    Whenever [get_context_tokens] returns, its result is the tail of that
    prefix that begins at the first [adj_list_start]. *)
Theorem get_tokens_up_to_path_start_spec (SPECIAL_TOKENS : string → string)
    (tokens : list string) :
  let path_start := SPECIAL_TOKENS "path_start" in
  (∀ include_start_coord e,
     get_tokens_up_to_path_start SPECIAL_TOKENS tokens include_start_coord
       = Raises e
     ↔ e = ValueError ∧ (path_start ∉ tokens))
  ∧ (∀ pre post,
       (path_start ∉ pre) → tokens = pre ++ path_start :: post →
       get_tokens_up_to_path_start SPECIAL_TOKENS tokens false
         = Returns (pre ++ [path_start])
       ∧ get_tokens_up_to_path_start SPECIAL_TOKENS tokens true
         = Returns (pre ++ path_start :: take 1 post))
  ∧ (∀ context,
       get_context_tokens SPECIAL_TOKENS tokens = Returns context →
       ∃ before,
         get_tokens_up_to_path_start SPECIAL_TOKENS tokens false
           = Returns (before ++ context)
         ∧ (SPECIAL_TOKENS "adj_list_start" ∉ before)
         ∧ head context = Some (SPECIAL_TOKENS "adj_list_start")
         ∧ last context = Some path_start).
Proof.
  intros path_start. split; [| split].
  - intros include_start_coord e. unfold get_tokens_up_to_path_start.
    fold path_start.
    destruct (list_index tokens path_start) as [i|e'] eqn:Hi.
    + apply list_index_Returns in Hi as [Hi _].
      apply list_elem_of_lookup_2 in Hi.
      split; [by destruct include_start_coord | tauto].
    + apply list_index_Raises in Hi as [-> Hi].
      split; [by intros [= <-] | by intros [-> _]].
  - intros pre post Hpre ->. unfold get_tokens_up_to_path_start. fold path_start.
    rewrite (proj2 (list_index_split _ path_start (length pre))) by eauto.
    split; f_equal.
    + rewrite (cons_middle path_start pre post), app_assoc.
      apply take_app_length'. rewrite length_app. simpl. lia.
    + rewrite (cons_middle path_start pre post), app_assoc.
      replace (length pre + 1 + 1)%nat with (length (pre ++ [path_start]) + 1)%nat
        by (rewrite length_app; simpl; lia).
      by rewrite take_app_add, <- app_assoc.
  - intros context. unfold get_context_tokens, tokens_between,
      get_tokens_up_to_path_start. fold path_start. cbn [negb Nat.b2n].
    destruct (list_index tokens (SPECIAL_TOKENS "adj_list_start")) as [i|e] eqn:Hi;
      [| done].
    destruct (list_index tokens path_start) as [j|e] eqn:Hj; [| done].
    destruct (Nat.ltb_spec (i + 0) (j + 1)) as [Hlt|]; [| done].
    intros [= <-]. exists (take i tokens).
    apply list_index_Returns in Hi as [Hi Hmin], Hj as [Hj _].
    pose proof (lookup_lt_Some _ _ _ Hj) as Hlen.
    unfold slice. rewrite Nat.add_0_r.
    assert (take (j + 1 - i) (drop i tokens) = drop i (take (j + 1) tokens)) as ->.
    { rewrite <- (take_drop i tokens) at 2.
      rewrite take_app_ge by (rewrite length_take; lia).
      rewrite length_take, Nat.min_l by lia.
      rewrite drop_app_length'; [done |]. rewrite length_take. lia. }
    split; [| split; [| split]].
    + f_equal. rewrite <- (take_drop i (take (j + 1) tokens)) at 1.
      f_equal. rewrite take_take. f_equal. lia.
    + intros Hin. apply elem_of_take in Hin as (k & Hk & Hlt'). by eapply Hmin.
    + rewrite head_lookup, lookup_drop, Nat.add_0_r.
      rewrite lookup_take. case_decide; [done | lia].
    + rewrite last_lookup, length_drop, length_take, lookup_drop.
      rewrite lookup_take, Nat.min_l by lia.
      replace (i + Init.Nat.pred (j + 1 - i))%nat with j by lia.
      case_decide; [done | lia].
Qed.

Lemma get_tokens_up_to_path_start_spec_witness :
  let SPECIAL_TOKENS := λ key : string, ("<" +:+ key +:+ ">")%string in
  let tokens := ["pad"; "<adj_list_start>"; "(0,0)"; "<path_start>"]%string in
  (("<path_start>"%string ∉ ["pad"; "<adj_list_start>"; "(0,0)"]%string)
   ∧ tokens = ["pad"; "<adj_list_start>"; "(0,0)"]%string
                ++ ["<path_start>"%string])
  ∧ get_context_tokens SPECIAL_TOKENS tokens
    = Returns ["<adj_list_start>"; "(0,0)"; "<path_start>"]%string
  ∧ get_tokens_up_to_path_start SPECIAL_TOKENS tokens false = Returns tokens
  ∧ get_tokens_up_to_path_start SPECIAL_TOKENS tokens true = Returns tokens.
Proof.
  intros SPECIAL_TOKENS tokens.
  assert ("<path_start>"%string ∉ ["pad"; "<adj_list_start>"; "(0,0)"]%string)
    as Hpre by (apply (proj1 (bool_decide_eq_true _)); vm_compute; reflexivity).
  split; [split; [exact Hpre | reflexivity] |].
  split; [vm_compute; reflexivity |].
  destruct (get_tokens_up_to_path_start_spec SPECIAL_TOKENS tokens)
    as (_ & Hspec & _).
  exact (Hspec ["pad"; "<adj_list_start>"; "(0,0)"]%string [] Hpre eq_refl).
Defined.

(* ===================================================================== *)
(** ** [apply_mapping] *)
(* ===================================================================== *)

Section apply_mapping_facts.
Context {Any : Type} `{Countable Any}.
Implicit Types (iter output : list Any) (mapping : gmap Any Any).

(** The loop in the mode ["skip"]. *)
Lemma apply_mapping_loop_skip iter mapping output :
  apply_mapping_loop iter mapping "skip" output
  = Returns (output ++ omap (λ item, mapping !! item) iter).
Proof.
  revert output. induction iter as [|item iter IH]; intros output.
  - by rewrite app_nil_r.
  - cbn [apply_mapping_loop omap list_omap].
    destruct (mapping !! item) as [value|].
    + by rewrite IH, <- app_assoc.
    + by rewrite IH.
Qed.

(** The loop in the mode ["include"]. *)
Lemma apply_mapping_loop_include iter mapping output :
  apply_mapping_loop iter mapping "include" output
  = Returns (output ++ map (λ item, default item (mapping !! item)) iter).
Proof.
  revert output. induction iter as [|item iter IH]; intros output.
  - by rewrite app_nil_r.
  - cbn [apply_mapping_loop map].
    destruct (mapping !! item) as [value|]; cbn [String.eqb Ascii.eqb Bool.eqb];
      cbn [default from_option]; by rewrite IH, <- app_assoc.
Qed.

(** The loop on items that are all keys of the mapping, in any mode. *)
Lemma apply_mapping_loop_total iter mapping when_missing output :
  Forall (λ item, is_Some (mapping !! item)) iter →
  apply_mapping_loop iter mapping when_missing output
  = Returns (output ++ omap (λ item, mapping !! item) iter)
    ∧ length (omap (λ item, mapping !! item) iter) = length iter.
Proof.
  intros Hall. revert output.
  induction Hall as [|item iter [value Hitem] _ IH]; intros output.
  - by rewrite app_nil_r.
  - cbn [apply_mapping_loop omap list_omap]. rewrite Hitem.
    destruct (IH (output ++ [value])) as [-> Hlen].
    split; [by rewrite <- app_assoc | cbn [length]; by rewrite Hlen].
Qed.

(** The loop stops at the first missing item in every mode but the two
    lenient ones. *)
Lemma apply_mapping_loop_missing iter mapping when_missing output :
  when_missing ≠ "skip"%string → when_missing ≠ "include"%string →
  ¬ Forall (λ item, is_Some (mapping !! item)) iter →
  apply_mapping_loop iter mapping when_missing output = Raises ValueError.
Proof.
  intros Hskip Hincl Hmiss. revert output.
  induction iter as [|item iter IH]; intros output.
  - exfalso. apply Hmiss. constructor.
  - cbn [apply_mapping_loop].
    destruct (mapping !! item) as [value|] eqn:Hitem.
    + apply IH. intros Hall. apply Hmiss. constructor; [by eexists | done].
    + apply String.eqb_neq in Hskip, Hincl. rewrite Hskip, Hincl.
      by destruct (String.eqb when_missing "except").
Qed.

(** X13. What [apply_mapping] returns in each mode.  ["skip"] keeps the
    images of the items that are keys of the mapping, in order, and drops
    the others; ["include"] maps those items and passes the others through
    unchanged; both always return.  Every other value of [when_missing],
    ["except"] or not, returns the images when all items are keys and
    raises [ValueError] otherwise: an invalid mode goes unnoticed as long
    as no item is missing. *)
Theorem apply_mapping_modes (iter : list Any) (mapping : gmap Any Any)
    (when_missing : string) :
  apply_mapping iter mapping "skip"
    = Returns (omap (λ item, mapping !! item) iter)
  ∧ apply_mapping iter mapping "include"
    = Returns (map (λ item, default item (mapping !! item)) iter)
  ∧ (when_missing ≠ "skip"%string → when_missing ≠ "include"%string →
     if decide (Forall (λ item, is_Some (mapping !! item)) iter)
     then apply_mapping iter mapping when_missing
          = Returns (omap (λ item, mapping !! item) iter)
          ∧ length (omap (λ item, mapping !! item) iter) = length iter
     else apply_mapping iter mapping when_missing = Raises ValueError).
Proof.
  unfold apply_mapping. split; [| split].
  - by rewrite apply_mapping_loop_skip.
  - by rewrite apply_mapping_loop_include.
  - intros Hskip Hincl. case_decide as Hall.
    + by apply (apply_mapping_loop_total iter mapping when_missing []).
    + by apply apply_mapping_loop_missing.
Qed.

(** X14. Round trip through a configuration whose two maps invert each
    other on the coordinates at hand: [tokens_to_coords] undoes
    [coords_to_tokens], whatever the modes passed to either. *)
Theorem coords_tokens_round_trip (coords : list Any) (cfg : maze_data_cfg)
    (when_noncoord when_noncoord' : string) :
  Forall (λ coord, ∃ token, node_token_map cfg !! coord = Some token
                            ∧ token_node_map cfg !! token = Some coord) coords →
  ∃ tokens,
    coords_to_tokens coords cfg when_noncoord = Returns tokens
    ∧ length tokens = length coords
    ∧ tokens_to_coords tokens cfg when_noncoord' = Returns coords.
Proof.
  intros Hinv. unfold coords_to_tokens, tokens_to_coords, apply_mapping.
  exists (omap (λ coord, node_token_map cfg !! coord) coords).
  destruct (apply_mapping_loop_total coords (node_token_map cfg) when_noncoord [])
    as [-> Hlen].
  { eapply Forall_impl; [exact Hinv |]. intros coord (token & -> & _). eauto. }
  split; [done |]. split; [done |].
  assert (Forall (λ token, is_Some (token_node_map cfg !! token))
            (omap (λ coord, node_token_map cfg !! coord) coords)
          ∧ omap (λ token, token_node_map cfg !! token)
              (omap (λ coord, node_token_map cfg !! coord) coords) = coords)
    as [Hall Hback].
  { clear Hlen. induction Hinv as [|coord coords (token & Hn & Ht) _ [IH1 IH2]];
      [done |].
    cbn [omap list_omap]. rewrite Hn. cbn [omap list_omap]. rewrite Ht.
    split; [constructor; [by eexists | done] | by rewrite IH2]. }
  destruct (apply_mapping_loop_total _ (token_node_map cfg) when_noncoord' [] Hall)
    as [-> _].
  by rewrite Hback.
Qed.
End apply_mapping_facts.

Lemma coords_tokens_round_trip_witness :
  let cfg : @maze_data_cfg string _ _ :=
    {| token_node_map := {[ "(0,0)" := "c00"; "(0,1)" := "c01" ]}%string;
       node_token_map := {[ "c00" := "(0,0)"; "c01" := "(0,1)" ]}%string |} in
  coords_to_tokens ["c01"; "c00"; "c01"]%string cfg "except"
  = Returns ["(0,1)"; "(0,0)"; "(0,1)"]%string
  ∧ ∃ tokens,
      coords_to_tokens ["c01"; "c00"; "c01"]%string cfg "except" = Returns tokens
      ∧ length tokens = 3%nat
      ∧ tokens_to_coords tokens cfg "strict" = Returns ["c01"; "c00"; "c01"]%string.
Proof.
  intros cfg. split; [vm_compute; reflexivity |].
  apply (coords_tokens_round_trip ["c01"; "c00"; "c01"]%string cfg "except" "strict").
  repeat constructor; eexists; split; vm_compute; reflexivity.
Defined.

(* ===================================================================== *)
(** ** numpy on grids: [repeat] and [pad] *)
(* ===================================================================== *)

Lemma lookup_bind_replicate {A} (l : list A) (n i : nat) :
  (0 < n)%nat → (l ≫= replicate n) !! i = l !! (i / n)%nat.
Proof.
  intros Hn. revert i. induction l as [|a l IH]; intros i; [done |].
  cbn [mbind list_bind foldr]. change (foldr _ _ l) with (l ≫= replicate n).
  destruct (decide (i < n)%nat) as [Hlt|Hge].
  - rewrite lookup_app_l by (by rewrite length_replicate).
    rewrite Nat.div_small by done. simpl.
    by apply lookup_replicate_2.
  - rewrite lookup_app_r by (rewrite length_replicate; lia).
    rewrite length_replicate, IH.
    replace i with ((i - n) + 1 * n)%nat at 2 by lia.
    rewrite Nat.div_add by lia.
    by replace ((i - n) / n + 1)%nat with (S ((i - n) / n)) by lia.
Qed.

Lemma length_bind_replicate {A} (l : list A) (n : nat) :
  length (l ≫= replicate n) = (length l * n)%nat.
Proof.
  induction l as [|a l IH]; [done |].
  cbn [mbind list_bind foldr]. change (foldr _ _ l) with (l ≫= replicate n).
  rewrite length_app, length_replicate, IH. simpl. lia.
Qed.

Lemma np_repeat0_spec {A} (a out : grid A) (repeats : Z) :
  grid_wf a → np_repeat0 a repeats = Returns out →
  grid_wf out
  ∧ g_x out = (g_x a * Z.to_nat repeats)%nat ∧ g_y out = g_y a
  ∧ ∀ i j, (i < g_x out)%nat →
           grid_at out i j = grid_at a (i / Z.to_nat repeats) j.
Proof.
  intros [Hx Hy]. unfold np_repeat0.
  destruct (_ <? 0); [done |]. intros [= <-].
  unfold grid_wf, grid_at. cbn [g_x g_y g_rows].
  split; [split |].
  - by rewrite length_bind_replicate, Hx.
  - apply Forall_forall. intros row Hin.
    apply list_elem_of_bind in Hin as (row' & Hin & Hrow').
    apply elem_of_replicate in Hin as [-> _].
    by eapply Forall_forall in Hy.
  - split; [done |]. split; [done |]. intros i j Hi.
    rewrite lookup_bind_replicate; [done |].
    destruct (Z.to_nat repeats); lia.
Qed.

Lemma np_repeat1_spec {A} (a out : grid A) (repeats : Z) :
  grid_wf a → np_repeat1 a repeats = Returns out →
  grid_wf out
  ∧ g_x out = g_x a ∧ g_y out = (g_y a * Z.to_nat repeats)%nat
  ∧ ∀ i j, (j < g_y out)%nat →
           grid_at out i j = grid_at a i (j / Z.to_nat repeats).
Proof.
  intros [Hx Hy]. unfold np_repeat1.
  destruct (_ <? 0); [done |]. intros [= <-].
  unfold grid_wf, grid_at. cbn [g_x g_y g_rows].
  split; [split |].
  - by rewrite length_fmap.
  - apply Forall_fmap. eapply Forall_impl; [exact Hy |].
    intros row Hrow. simpl. by rewrite length_bind_replicate, Hrow.
  - split; [done |]. split; [done |]. intros i j Hj.
    rewrite list_lookup_fmap. destruct (g_rows a !! i) as [row|]; [simpl | done].
    apply lookup_bind_replicate. destruct (Z.to_nat repeats); lia.
Qed.

Lemma np_pad_spec {A} (a out : grid A) (before0 after0 before1 after1 : Z) fill :
  grid_wf a → np_pad a before0 after0 before1 after1 fill = Returns out →
  (0 ≤ before0 ∧ 0 ≤ after0 ∧ 0 ≤ before1 ∧ 0 ≤ after1)
  ∧ grid_wf out
  ∧ g_x out = (Z.to_nat before0 + g_x a + Z.to_nat after0)%nat
  ∧ g_y out = (Z.to_nat before1 + g_y a + Z.to_nat after1)%nat
  ∧ ∀ i j, (i < g_x out)%nat → (j < g_y out)%nat →
           grid_at out i j =
             if decide ((Z.to_nat before0 ≤ i < Z.to_nat before0 + g_x a)%nat
                        ∧ (Z.to_nat before1 ≤ j < Z.to_nat before1 + g_y a)%nat)
             then grid_at a (i - Z.to_nat before0) (j - Z.to_nat before1)
             else Some fill.
Proof.
  intros [Hx Hy]. unfold np_pad.
  destruct (_ || _) eqn:Hneg; [done |]. intros [= <-].
  repeat (apply orb_false_iff in Hneg as [Hneg ?]).
  split; [lia |]. unfold grid_wf, grid_at. cbn [g_x g_y g_rows].
  set (b0 := Z.to_nat before0). set (a0 := Z.to_nat after0).
  set (b1 := Z.to_nat before1). set (a1 := Z.to_nat after1).
  split; [split |].
  - rewrite !length_app, !length_replicate, length_fmap. lia.
  - rewrite !Forall_app. split; [| split].
    + apply Forall_replicate. by rewrite length_replicate.
    + apply Forall_fmap. eapply Forall_impl; [exact Hy |].
      intros row Hrow. simpl in *. rewrite !length_app, !length_replicate. lia.
    + apply Forall_replicate. by rewrite length_replicate.
  - split; [done |]. split; [done |]. intros i j Hi Hj.
    destruct (decide (i < b0)%nat) as [Hlo|Hlo].
    { rewrite lookup_app_l by (by rewrite length_replicate).
      rewrite lookup_replicate_2 by done. simpl.
      rewrite lookup_replicate_2 by done. case_decide; [lia | done]. }
    rewrite lookup_app_r by (rewrite length_replicate; lia).
    rewrite length_replicate.
    destruct (decide (i < b0 + g_x a)%nat) as [Hmid|Hhi].
    2:{ rewrite lookup_app_r by (rewrite length_fmap; lia).
        rewrite lookup_replicate_2 by (rewrite length_fmap; lia). simpl.
        rewrite lookup_replicate_2 by done. case_decide; [lia | done]. }
    rewrite lookup_app_l by (rewrite length_fmap; lia).
    rewrite list_lookup_fmap.
    destruct (lookup_lt_is_Some_2 (g_rows a) (i - b0)) as [row Hrow]; [lia |].
    rewrite Hrow. simpl.
    assert (length row = g_y a) as Hlen by (by eapply Forall_lookup_1 in Hy).
    destruct (decide (j < b1)%nat) as [Hjl|Hjl].
    { rewrite lookup_app_l by (by rewrite length_replicate).
      rewrite lookup_replicate_2 by done. case_decide; [lia | done]. }
    rewrite lookup_app_r by (rewrite length_replicate; lia).
    rewrite length_replicate.
    destruct (decide (j < b1 + g_y a)%nat) as [Hjm|Hjh].
    + rewrite lookup_app_l by lia. case_decide; [done | lia].
    + rewrite lookup_app_r by lia.
      rewrite lookup_replicate_2 by lia. case_decide; [lia | done].
Qed.

(* ===================================================================== *)
(** ** [_extend_pixels] *)
(* ===================================================================== *)

(** X15. [_extend_pixels] on an image of shape [(x, y, 3)], with a wall
    colour of one value in all channels and counts that are not negative,
    returns an image of shape [(n_mult * x + 2 * n_bdry,
    n_mult * y + 2 * n_bdry, 3)], as its annotation says.  The outer
    [n_bdry] rows and columns are wall, and inside them pixel [(i, j)] of
    the input fills the [n_mult] by [n_mult] block at
    [(n_bdry + n_mult * i, n_bdry + n_mult * j)]. *)
Theorem _extend_pixels_spec (WALL : RGB) (image : grid RGB) (n_mult n_bdry : Z) :
  grid_wf image →
  WALL.1.2 = WALL.1.1 → WALL.2 = WALL.1.1 → 0 ≤ n_mult → 0 ≤ n_bdry →
  ∃ output,
    _extend_pixels WALL image n_mult n_bdry = Returns output
    ∧ grid_wf output
    ∧ Z.of_nat (g_x output) = n_mult * Z.of_nat (g_x image) + 2 * n_bdry
    ∧ Z.of_nat (g_y output) = n_mult * Z.of_nat (g_y image) + 2 * n_bdry
    ∧ ∀ i j, 0 ≤ i < Z.of_nat (g_x output) → 0 ≤ j < Z.of_nat (g_y output) →
             grid_at output (Z.to_nat i) (Z.to_nat j) =
               if decide (n_bdry ≤ i < n_bdry + n_mult * Z.of_nat (g_x image)
                          ∧ n_bdry ≤ j < n_bdry + n_mult * Z.of_nat (g_y image))
               then grid_at image (Z.to_nat ((i - n_bdry) / n_mult))
                                  (Z.to_nat ((j - n_bdry) / n_mult))
               else Some WALL.
Proof.
  intros Hwf H1 H2 Hmult Hbdry. unfold _extend_pixels.
  rewrite H1, H2, !Z.eqb_refl. cbn [andb negb].
  destruct (np_repeat0 _ _) as [rows|e] eqn:Hrows.
  2:{ unfold np_repeat0 in Hrows.
      destruct (_ <? 0) eqn:Hlt in Hrows; [apply Z.ltb_lt in Hlt; nia | done]. }
  apply np_repeat0_spec in Hrows as (Hwf0 & Hx0 & Hy0 & Hat0); [| done].
  cbn [mbind result_mbind result_bind].
  destruct (np_repeat1 _ _) as [cells|e] eqn:Hcells.
  2:{ unfold np_repeat1 in Hcells.
      destruct (_ <? 0) eqn:Hlt in Hcells; [apply Z.ltb_lt in Hlt; nia | done]. }
  apply np_repeat1_spec in Hcells as (Hwf1 & Hx1 & Hy1 & Hat1); [| done].
  cbn [mbind result_mbind result_bind].
  destruct (np_pad _ _ _ _ _ _) as [output|e] eqn:Hpad.
  2:{ unfold np_pad in Hpad. destruct (Z.ltb_spec n_bdry 0); [lia | done]. }
  apply np_pad_spec in Hpad as (_ & Hwf2 & Hx2 & Hy2 & Hat2); [| done].
  unfold RGB in *.
  exists output. split; [done |]. split; [done |].
  assert (Z.of_nat (g_x output) = n_mult * Z.of_nat (g_x image) + 2 * n_bdry) as Hx.
  { rewrite Hx2, Hx1, Hx0, !Nat2Z.inj_add, Nat2Z.inj_mul, !Z2Nat.id by lia. lia. }
  assert (Z.of_nat (g_y output) = n_mult * Z.of_nat (g_y image) + 2 * n_bdry) as Hy.
  { rewrite Hy2, Hy1, Hy0, !Nat2Z.inj_add, Nat2Z.inj_mul, !Z2Nat.id by lia. lia. }
  split; [done |]. split; [done |].
  assert (Z.of_nat (g_x cells) = n_mult * Z.of_nat (g_x image)) as Hxc.
  { rewrite Hx1, Hx0, Nat2Z.inj_mul, !Z2Nat.id by lia. lia. }
  assert (Z.of_nat (g_y cells) = n_mult * Z.of_nat (g_y image)) as Hyc.
  { rewrite Hy1, Hy0, Nat2Z.inj_mul, !Z2Nat.id by lia. lia. }
  intros i j Hi Hj.
  rewrite Hat2 by lia.
  assert ((WALL.1.1, WALL.1.1, WALL.1.1) = WALL) as ->.
  { destruct WALL as [[r gr] b]. simpl in *. by subst. }
  repeat case_decide; try done; try lia.
  assert (0 < n_mult) as Hpos by nia.
  assert (∀ k, n_bdry ≤ k →
               ((Z.to_nat k - Z.to_nat n_bdry) / Z.to_nat n_mult)%nat
               = Z.to_nat ((k - n_bdry) / n_mult)) as Hdiv.
  { intros k Hk. rewrite <- Z2Nat.inj_sub by lia.
    rewrite <- (Nat2Z.id (_ / _)), Nat2Z.inj_div, !Z2Nat.id by lia. done. }
  rewrite Hat1 by lia. rewrite Hat0 by lia.
  by rewrite !Hdiv by lia.
Qed.

Lemma _extend_pixels_spec_witness :
  let image := {| g_x := 1; g_y := 2;
                  g_rows := [[(255, 255, 255); (255, 0, 0)]] |} in
  (grid_wf image ∧ 0 ≤ 2 ∧ 0 ≤ 1)
  ∧ ∃ output,
      _extend_pixels (0, 0, 0) image 2 1 = Returns output
      ∧ grid_wf output
      ∧ Z.of_nat (g_x output) = 2 * 1 + 2 * 1
      ∧ Z.of_nat (g_y output) = 2 * 2 + 2 * 1
      ∧ grid_at output 0 0 = Some (0, 0, 0)
      ∧ grid_at output 2 4 = Some (255, 0, 0).
Proof.
  intros image.
  assert (grid_wf image) as Hwf by (split; [done | by repeat constructor]).
  split; [split; [exact Hwf | lia] |].
  destruct (_extend_pixels_spec (0, 0, 0) image 2 1 Hwf eq_refl eq_refl)
    as (output & Hrun & Hwf' & Hx & Hy & Hat); [lia | lia |].
  exists output. split; [exact Hrun |]. split; [exact Hwf' |].
  split; [exact Hx |]. split; [exact Hy |].
  split.
  - apply (Hat 0 0); rewrite ?Hx, ?Hy; simpl; lia.
  - apply (Hat 2 4); rewrite ?Hx, ?Hy; simpl; lia.
Defined.

(** X16. The exceptions of [_extend_pixels]: [AssertionError] exactly when
    the channels of the wall colour are not all equal, whatever the other
    arguments; otherwise [ValueError] exactly when [n_bdry] is negative, or
    [n_mult] is negative and the image has a row or a column ([np.repeat]
    with a negative count raises only on an axis that is not empty); and no
    other exception. *)
Theorem _extend_pixels_errors (WALL : RGB) (image : grid RGB) (n_mult n_bdry : Z) :
  (_extend_pixels WALL image n_mult n_bdry = Raises AssertionError
   ↔ ¬ (WALL.1.2 = WALL.1.1 ∧ WALL.2 = WALL.1.1))
  ∧ (_extend_pixels WALL image n_mult n_bdry = Raises ValueError
     ↔ (WALL.1.2 = WALL.1.1 ∧ WALL.2 = WALL.1.1)
       ∧ ((n_mult < 0 ∧ (0 < g_x image ∨ 0 < g_y image)%nat) ∨ n_bdry < 0))
  ∧ _extend_pixels WALL image n_mult n_bdry ≠ Raises IndexError.
Proof.
  unfold _extend_pixels, np_repeat0, np_repeat1, np_pad.
  rewrite Z.eqb_refl. cbn [andb].
  destruct (Z.eqb_spec WALL.1.2 WALL.1.1) as [H1|H1]; cbn [andb negb];
    [| intuition congruence].
  destruct (Z.eqb_spec WALL.2 WALL.1.1) as [H2|H2]; cbn [andb negb];
    [| intuition congruence].
  destruct (Z.ltb_spec (n_mult * Z.of_nat (g_x image)) 0) as [Hm|Hm];
    cbn [mbind result_mbind result_bind g_x g_y].
  { assert (n_mult < 0) by nia. assert (0 < g_x image)%nat by nia.
    intuition congruence. }
  destruct (Z.ltb_spec (n_mult * Z.of_nat (g_y image)) 0) as [Hm'|Hm'];
    cbn [mbind result_mbind result_bind g_x g_y].
  { assert (n_mult < 0) by nia. assert (0 < g_y image)%nat by nia.
    intuition congruence. }
  assert (¬ (n_mult < 0 ∧ (0 < g_x image ∨ 0 < g_y image)%nat)) as Hrep
    by (intros [? [?|?]]; nia).
  destruct (Z.ltb_spec n_bdry 0) as [Hb|Hb]; cbn [orb];
    [intuition congruence |].
  intuition (try congruence; try lia).
Qed.

(* ===================================================================== *)
(** ** numpy on grids: slices, maps and broadcasting *)
(* ===================================================================== *)

Lemma lookup_slice {A} (l : list A) (start stop i : nat) :
  (i < stop - start)%nat → slice l start stop !! i = l !! (start + i)%nat.
Proof.
  intros Hi. unfold slice. rewrite lookup_take.
  case_decide; [by rewrite lookup_drop | lia].
Qed.

Lemma length_slice {A} (l : list A) (start stop : nat) :
  (stop ≤ length l)%nat → length (slice l start stop) = (stop - start)%nat.
Proof. intros Hs. unfold slice. rewrite length_take, length_drop. lia. Qed.

Lemma slice_bound_le (n dflt : nat) bound :
  (dflt ≤ n)%nat → (slice_bound n dflt bound ≤ n)%nat.
Proof. intros Hd. unfold slice_bound. repeat case_match; lia. Qed.

(** Two grids of one shape with the same cells are the same grid. *)
Lemma grid_ext {A} (a b : grid A) :
  grid_wf a → grid_wf b → g_x a = g_x b → g_y a = g_y b →
  (∀ i j, (i < g_x a)%nat → (j < g_y a)%nat → grid_at a i j = grid_at b i j) →
  a = b.
Proof.
  destruct a as [ax ay ra], b as [bx by' rb]. unfold grid_wf, grid_at.
  cbn [g_x g_y g_rows]. intros [Hax Hay] [Hbx Hby] <- <- Hat. f_equal.
  apply list_eq_same_length with ax; [done | done |].
  intros i row_a row_b Hi Ha Hb.
  pose proof (Forall_lookup_1 _ _ _ _ Hay Ha) as Hla.
  pose proof (Forall_lookup_1 _ _ _ _ Hby Hb) as Hlb. simpl in Hla, Hlb.
  apply list_eq_same_length with ay; [done | done |].
  intros j pa pb Hj Hpa Hpb.
  specialize (Hat i j Hi Hj). rewrite Ha, Hb in Hat. simpl in Hat. congruence.
Qed.

Lemma grid_map_spec {A B} (f : A → B) (a : grid A) :
  grid_wf a →
  grid_wf (grid_map f a)
  ∧ ∀ i j, grid_at (grid_map f a) i j = f <$> grid_at a i j.
Proof.
  intros [Hx Hy]. unfold grid_wf, grid_at, grid_map. cbn [g_x g_y g_rows].
  split; [split |].
  - by rewrite length_map.
  - apply Forall_fmap. eapply Forall_impl; [exact Hy |].
    intros row Hrow. simpl in *. by rewrite length_map.
  - intros i j. rewrite list_lookup_fmap.
    destruct (g_rows a !! i) as [row|]; [simpl | done].
    apply list_lookup_fmap.
Qed.

Lemma grid_slice_spec {A} (s0 s1 : py_slice) (a : grid A) :
  grid_wf a →
  grid_wf (grid_slice s0 s1 a)
  ∧ ∀ i j, (i < g_x (grid_slice s0 s1 a))%nat → (j < g_y (grid_slice s0 s1 a))%nat →
           grid_at (grid_slice s0 s1 a) i j
           = grid_at a (slice_bound (g_x a) 0 (sl_start s0) + i)
                       (slice_bound (g_y a) 0 (sl_start s1) + j).
Proof.
  intros [Hx Hy]. unfold grid_wf, grid_at, grid_slice. cbn [g_x g_y g_rows].
  pose proof (slice_bound_le (g_x a) (g_x a) (sl_stop s0) ltac:(lia)) as Hs0.
  pose proof (slice_bound_le (g_y a) (g_y a) (sl_stop s1) ltac:(lia)) as Hs1.
  split; [split |].
  - rewrite length_fmap, length_slice by lia. done.
  - apply Forall_fmap, Forall_forall. intros row Hin. simpl.
    apply length_slice.
    assert (row ∈ g_rows a) as Hin'.
    { unfold slice in Hin. apply elem_of_take in Hin as (k & Hk & _).
      rewrite lookup_drop in Hk. by eapply list_elem_of_lookup_2. }
    eapply Forall_forall in Hy; [| done]. simpl in Hy. lia.
  - intros i j Hi Hj. rewrite list_lookup_fmap, lookup_slice by done.
    destruct (g_rows a !! _) as [row|]; [simpl | done].
    by apply lookup_slice.
Qed.

(** Broadcasting an array against one of its own shape, or against one
    that is a single row (column) wide where the first has none. *)
Lemma np_broadcast2_spec {A B C} (f : A → B → C) (a : grid A) (b : grid B) :
  grid_wf a → grid_wf b →
  g_x b = g_x a ∨ (g_x b = 1%nat ∧ g_x a = 0%nat) →
  g_y b = g_y a ∨ (g_y b = 1%nat ∧ g_y a = 0%nat) →
  ∃ out,
    np_broadcast2 f a b = Returns out
    ∧ grid_wf out ∧ g_x out = g_x a ∧ g_y out = g_y a
    ∧ ∀ i j, (i < g_x a)%nat → (j < g_y a)%nat →
             grid_at out i j
             = (pa ← grid_at a i j; pb ← grid_at b i j; Some (f pa pb)).
Proof.
  intros [Hax Hay] [Hbx Hby] Hx Hy. unfold np_broadcast2.
  assert (broadcast_len (g_x a) (g_x b) = Some (g_x a)) as ->.
  { unfold broadcast_len. repeat case_decide; try done; lia. }
  assert (broadcast_len (g_y a) (g_y b) = Some (g_y a)) as ->.
  { unfold broadcast_len. repeat case_decide; try done; lia. }
  eexists. split; [done |].
  unfold grid_wf, grid_at. cbn [g_x g_y g_rows].
  assert (∀ {T} (l : list T) n, stretch n n l = l) as Hsame
    by (intros T l n; unfold stretch; by rewrite decide_True).
  rewrite !Hsame.
  assert (∀ {T} n (l : list T) m,
            length l = m → (m = n ∨ (m = 1 ∧ n = 0))%nat →
            length (stretch m n l) = n
            ∧ ((0 < n)%nat → stretch m n l = l)) as Hstretch.
  { intros T n l m Hl [->|[-> ->]]; [by rewrite Hsame |].
    unfold stretch. rewrite decide_False by done.
    destruct l; [done |]. split; [done | lia]. }
  destruct (Hstretch _ (g_x a) (g_rows b) (g_x b) Hbx Hx) as [Hlen Hpos].
  split; [split |].
  - rewrite length_zip_with. lia.
  - apply Forall_forall. intros row Hin.
    apply list_elem_of_lookup in Hin as [i Hi].
    apply lookup_zip_with_Some in Hi as (ra & rb & -> & Ha & Hb).
    pose proof (Forall_lookup_1 _ _ _ _ Hay Ha) as Hla. simpl in Hla.
    assert (rb ∈ g_rows b) as Hin.
    { assert (0 < g_x a)%nat as Hgt
        by (apply lookup_lt_Some in Ha; lia).
      rewrite Hpos in Hb by done. by eapply list_elem_of_lookup_2. }
    eapply Forall_forall in Hby; [| exact Hin]. simpl in Hby.
    destruct (Hstretch _ (g_y a) rb (g_y b) Hby Hy) as [Hlr _].
    rewrite Hsame, length_zip_with. lia.
  - split; [done |]. split; [done |]. intros i j Hi Hj.
    rewrite Hpos by lia. rewrite lookup_zip_with.
    destruct (g_rows a !! i) as [ra|] eqn:Ha; [simpl | done].
    destruct (g_rows b !! i) as [rb|] eqn:Hb; simpl.
    2:{ by destruct (ra !! j). }
    pose proof (Forall_lookup_1 _ _ _ _ Hby Hb) as Hlb. simpl in Hlb.
    destruct (Hstretch _ (g_y a) rb (g_y b) Hlb Hy) as [_ Hposy].
    rewrite Hsame, Hposy by lia. rewrite lookup_zip_with.
    destruct (ra !! j); [simpl | done]. by destruct (rb !! j).
Qed.

(* ===================================================================== *)
(** ** [_remove_isolated_cells] *)
(* ===================================================================== *)

Lemma slice_bound_from1 (n : nat) : slice_bound n 0 (Some 1) = Nat.min 1 n.
Proof. unfold slice_bound. change (1 <? 0) with false. cbv iota. lia. Qed.

Lemma slice_bound_to_last (n : nat) : slice_bound n n (Some (-1)) = (n - 1)%nat.
Proof. unfold slice_bound. change (-1 <? 0) with true. cbv iota. lia. Qed.

(** A slice of the image compared with the wall colour, padded with
    [True] and reduced along the channels. *)
Lemma ric_mask_general (WALL : RGB) (image : grid RGB) (s0 s1 : py_slice)
    (before0 after0 before1 after1 : nat) :
  grid_wf image →
  let start0 := slice_bound (g_x image) 0 (sl_start s0) in
  let len0 := (slice_bound (g_x image) (g_x image) (sl_stop s0) - start0)%nat in
  let start1 := slice_bound (g_y image) 0 (sl_start s1) in
  let len1 := (slice_bound (g_y image) (g_y image) (sl_stop s1) - start1)%nat in
  ∃ padded,
    np_pad (grid_map (rgb_eq WALL) (grid_slice s0 s1 image))
      (Z.of_nat before0) (Z.of_nat after0) (Z.of_nat before1) (Z.of_nat after1)
      (true, true, true) = Returns padded
    ∧ grid_wf (grid_map all_axis2 padded)
    ∧ g_x padded = (before0 + len0 + after0)%nat
    ∧ g_y padded = (before1 + len1 + after1)%nat
    ∧ ∀ i j, (i < g_x padded)%nat → (j < g_y padded)%nat →
             grid_at (grid_map all_axis2 padded) i j =
               if decide ((before0 ≤ i < before0 + len0)%nat
                          ∧ (before1 ≤ j < before1 + len1)%nat)
               then is_wall WALL
                      <$> grid_at image (start0 + (i - before0)) (start1 + (j - before1))
               else Some true.
Proof.
  intros Hwf start0 len0 start1 len1.
  pose proof (grid_slice_spec s0 s1 image Hwf) as [Hwf_s Hat_s].
  pose proof (grid_map_spec (rgb_eq WALL) _ Hwf_s) as [Hwf_e Hat_e].
  destruct (np_pad _ _ _ _ _ _) as [padded|e] eqn:Hpad.
  2:{ unfold np_pad in Hpad.
      destruct (Z.ltb_spec (Z.of_nat before0) 0); [lia |].
      destruct (Z.ltb_spec (Z.of_nat after0) 0); [lia |].
      destruct (Z.ltb_spec (Z.of_nat before1) 0); [lia |].
      destruct (Z.ltb_spec (Z.of_nat after1) 0); [lia | done]. }
  apply np_pad_spec in Hpad as (_ & Hwf_p & Hx & Hy & Hat_p); [| done].
  pose proof (grid_map_spec all_axis2 _ Hwf_p) as [Hwf_m Hat_m].
  rewrite !Nat2Z.id in *.
  change (g_x (grid_map (rgb_eq WALL) (grid_slice s0 s1 image))) with len0 in *.
  change (g_y (grid_map (rgb_eq WALL) (grid_slice s0 s1 image))) with len1 in *.
  exists padded. split; [done |]. split; [done |]. split; [done |].
  split; [done |]. intros i j Hi Hj.
  rewrite Hat_m, Hat_p by done.
  case_decide as Hrange; [| done].
  rewrite Hat_e, Hat_s.
  - unfold is_wall. by destruct (grid_at image _ _).
  - change (g_x (grid_slice s0 s1 image)) with len0. lia.
  - change (g_y (grid_slice s0 s1 image)) with len1. lia.
Qed.

(** What a mask of [_remove_isolated_cells] holds at a pixel: [True] on
    the padded edge, and elsewhere whether the pixel itself is wall: the
    slice drops the row (column) that the padding puts back, so nothing is
    shifted. *)
Lemma ric_mask_spec (WALL : RGB) (image : grid RGB) (d : ric_direction) :
  grid_wf image →
  ∃ mask,
    ric_mask WALL image d = Returns mask
    ∧ grid_wf mask
    ∧ (g_x mask = g_x image ∨ (g_x mask = 1%nat ∧ g_x image = 0%nat))
    ∧ (g_y mask = g_y image ∨ (g_y mask = 1%nat ∧ g_y image = 0%nat))
    ∧ ∀ i j, (i < g_x image)%nat → (j < g_y image)%nat →
             grid_at mask i j
             = (pixel ← grid_at image i j;
                Some (ric_edge (g_x image) (g_y image) d i j || is_wall WALL pixel)).
Proof.
  intros Hwf. unfold ric_mask.
  assert (∀ i j, (i < g_x image)%nat → (j < g_y image)%nat →
                 ∃ pixel, grid_at image i j = Some pixel) as Hpixel.
  { intros i j Hi Hj. destruct Hwf as [Hx Hy]. unfold grid_at.
    destruct (lookup_lt_is_Some_2 (g_rows image) i) as [row Hrow]; [lia |].
    pose proof (Forall_lookup_1 _ _ _ _ Hy Hrow) as Hl. simpl in Hl.
    destruct (lookup_lt_is_Some_2 row j) as [pixel Hp]; [lia |].
    rewrite Hrow. simpl. eauto. }
  destruct d; cbn [_RIC_PADS _RIC_SLICES fst snd].
  - destruct (ric_mask_general WALL image
                {| sl_start := Some 1; sl_stop := None |}
                {| sl_start := None; sl_stop := None |} 1 0 0 0 Hwf)
      as (padded & Hpad & Hwf_m & Hx & Hy & Hat).
    change (Z.of_nat 1) with 1 in Hpad. change (Z.of_nat 0) with 0 in Hpad.
    rewrite Hpad. clear Hpad.
    cbn [mbind result_mbind result_bind]. eexists. split; [done |].
    cbn [sl_start sl_stop] in *. rewrite slice_bound_from1 in *.
    cbn [slice_bound] in *.
    split; [done |]. cbn [grid_map g_x g_y].
    split; [lia |]. split; [lia |]. intros i j Hi Hj.
    rewrite Hat by lia. destruct (Hpixel i j Hi Hj) as [pixel Hp].
    cbn [ric_edge]. rewrite Hp. cbn [mbind option_bind].
    case_decide; case_bool_decide; try lia; [| done].
    replace (1 `min` g_x image + (i - 1))%nat with i by lia.
    replace (0 + (j - 0))%nat with j by lia. by rewrite Hp.
  - destruct (ric_mask_general WALL image
                {| sl_start := None; sl_stop := Some (-1) |}
                {| sl_start := None; sl_stop := None |} 0 1 0 0 Hwf)
      as (padded & Hpad & Hwf_m & Hx & Hy & Hat).
    change (Z.of_nat 1) with 1 in Hpad. change (Z.of_nat 0) with 0 in Hpad.
    rewrite Hpad. clear Hpad.
    cbn [mbind result_mbind result_bind]. eexists. split; [done |].
    cbn [sl_start sl_stop] in *. rewrite slice_bound_to_last in *.
    cbn [slice_bound] in *.
    split; [done |]. cbn [grid_map g_x g_y].
    split; [lia |]. split; [lia |]. intros i j Hi Hj.
    rewrite Hat by lia. destruct (Hpixel i j Hi Hj) as [pixel Hp].
    cbn [ric_edge]. rewrite Hp. cbn [mbind option_bind].
    case_decide; case_bool_decide; try lia; [| done].
    replace (0 + (i - 0))%nat with i by lia.
    replace (0 + (j - 0))%nat with j by lia. by rewrite Hp.
  - destruct (ric_mask_general WALL image
                {| sl_start := None; sl_stop := None |}
                {| sl_start := Some 1; sl_stop := None |} 0 0 1 0 Hwf)
      as (padded & Hpad & Hwf_m & Hx & Hy & Hat).
    change (Z.of_nat 1) with 1 in Hpad. change (Z.of_nat 0) with 0 in Hpad.
    rewrite Hpad. clear Hpad.
    cbn [mbind result_mbind result_bind]. eexists. split; [done |].
    cbn [sl_start sl_stop] in *. rewrite slice_bound_from1 in *.
    cbn [slice_bound] in *.
    split; [done |]. cbn [grid_map g_x g_y].
    split; [lia |]. split; [lia |]. intros i j Hi Hj.
    rewrite Hat by lia. destruct (Hpixel i j Hi Hj) as [pixel Hp].
    cbn [ric_edge]. rewrite Hp. cbn [mbind option_bind].
    case_decide; case_bool_decide; try lia; [| done].
    replace (0 + (i - 0))%nat with i by lia.
    replace (1 `min` g_y image + (j - 1))%nat with j by lia. by rewrite Hp.
  - destruct (ric_mask_general WALL image
                {| sl_start := None; sl_stop := None |}
                {| sl_start := None; sl_stop := Some (-1) |} 0 0 0 1 Hwf)
      as (padded & Hpad & Hwf_m & Hx & Hy & Hat).
    change (Z.of_nat 1) with 1 in Hpad. change (Z.of_nat 0) with 0 in Hpad.
    rewrite Hpad. clear Hpad.
    cbn [mbind result_mbind result_bind]. eexists. split; [done |].
    cbn [sl_start sl_stop] in *. rewrite slice_bound_to_last in *.
    cbn [slice_bound] in *.
    split; [done |]. cbn [grid_map g_x g_y].
    split; [lia |]. split; [lia |]. intros i j Hi Hj.
    rewrite Hat by lia. destruct (Hpixel i j Hi Hj) as [pixel Hp].
    cbn [ric_edge]. rewrite Hp. cbn [mbind option_bind].
    case_decide; case_bool_decide; try lia; [| done].
    replace (0 + (i - 0))%nat with i by lia.
    replace (0 + (j - 0))%nat with j by lia. by rewrite Hp.
Qed.

Lemma is_non_wall_is_wall (WALL pixel : RGB) :
  is_non_wall WALL pixel = true → is_wall WALL pixel = false.
Proof.
  unfold is_non_wall, is_wall, all_axis2, rgb_ne, rgb_eq. simpl.
  by destruct (pixel.1.1 =? WALL.1.1).
Qed.

(** The mask that [_remove_isolated_cells] combines, pixel by pixel. *)
Lemma ric_combined_mask (WALL : RGB) (image : grid RGB) :
  grid_wf image →
  ∃ mask_left mask_right mask_up mask_down m1 m2 m3 mask,
    ric_mask WALL image ric_left = Returns mask_left
    ∧ ric_mask WALL image ric_right = Returns mask_right
    ∧ ric_mask WALL image ric_up = Returns mask_up
    ∧ ric_mask WALL image ric_down = Returns mask_down
    ∧ np_broadcast2 andb
        (grid_map all_axis2 (grid_map (rgb_ne WALL) image)) mask_left = Returns m1
    ∧ np_broadcast2 andb m1 mask_right = Returns m2
    ∧ np_broadcast2 andb m2 mask_up = Returns m3
    ∧ np_broadcast2 andb m3 mask_down = Returns mask
    ∧ grid_wf mask ∧ g_x mask = g_x image ∧ g_y mask = g_y image
    ∧ ∀ i j, (i < g_x image)%nat → (j < g_y image)%nat →
             grid_at mask i j
             = (pixel ← grid_at image i j;
                Some (is_non_wall WALL pixel
                      && (ric_edge (g_x image) (g_y image) ric_left i j
                          || is_wall WALL pixel)
                      && (ric_edge (g_x image) (g_y image) ric_right i j
                          || is_wall WALL pixel)
                      && (ric_edge (g_x image) (g_y image) ric_up i j
                          || is_wall WALL pixel)
                      && (ric_edge (g_x image) (g_y image) ric_down i j
                          || is_wall WALL pixel))).
Proof.
  intros Hwf.
  destruct (ric_mask_spec WALL image ric_left Hwf)
    as (ml & Hml & Hwl & Hxl & Hyl & Hatl).
  destruct (ric_mask_spec WALL image ric_right Hwf)
    as (mr & Hmr & Hwr & Hxr & Hyr & Hatr).
  destruct (ric_mask_spec WALL image ric_up Hwf)
    as (mu & Hmu & Hwu & Hxu & Hyu & Hatu).
  destruct (ric_mask_spec WALL image ric_down Hwf)
    as (md & Hmd & Hwd & Hxd & Hyd & Hatd).
  pose proof (grid_map_spec (rgb_ne WALL) image Hwf) as [Hwf_n Hat_n].
  pose proof (grid_map_spec all_axis2 _ Hwf_n) as [Hwf_nw Hat_nw].
  set (nw := grid_map all_axis2 (grid_map (rgb_ne WALL) image)) in *.
  assert (g_x nw = g_x image ∧ g_y nw = g_y image) as [Hxn Hyn] by done.
  destruct (np_broadcast2_spec andb nw ml Hwf_nw Hwl) as (m1 & Hm1 & Hw1 & Hx1 & Hy1 & Hat1);
    [by rewrite Hxn | by rewrite Hyn |].
  destruct (np_broadcast2_spec andb m1 mr Hw1 Hwr) as (m2 & Hm2 & Hw2 & Hx2 & Hy2 & Hat2);
    [by rewrite Hx1, Hxn | by rewrite Hy1, Hyn |].
  destruct (np_broadcast2_spec andb m2 mu Hw2 Hwu) as (m3 & Hm3 & Hw3 & Hx3 & Hy3 & Hat3);
    [by rewrite Hx2, Hx1, Hxn | by rewrite Hy2, Hy1, Hyn |].
  destruct (np_broadcast2_spec andb m3 md Hw3 Hwd) as (m4 & Hm4 & Hw4 & Hx4 & Hy4 & Hat4);
    [by rewrite Hx3, Hx2, Hx1, Hxn | by rewrite Hy3, Hy2, Hy1, Hyn |].
  exists ml, mr, mu, md, m1, m2, m3, m4.
  repeat (split; [done |]).
  split; [congruence |]. split; [congruence |].
  intros i j Hi Hj.
  rewrite Hat4, Hat3, Hat2, Hat1 by congruence.
  rewrite Hat_nw, Hat_n, Hatl, Hatr, Hatu, Hatd by done.
  destruct (grid_at image i j) as [pixel|]; [| done].
  reflexivity.
Qed.

(** X17. [_remove_isolated_cells] returns its argument unchanged on every
    image of shape [(x, y, 3)] other than a single pixel: each of the four
    direction masks holds, away from the edge it pads, whether the pixel
    itself is wall, and a pixel cannot both differ from the wall colour in
    every channel and equal it.  A non-wall cell enclosed by walls is
    therefore kept.  Only the image of one pixel is changed, to wall, when
    that pixel differs from the wall colour in all three channels. *)
Theorem _remove_isolated_cells_spec (WALL : RGB) (image : grid RGB) :
  grid_wf image →
  ∃ output,
    _remove_isolated_cells WALL image = Returns output
    ∧ grid_wf output ∧ g_x output = g_x image ∧ g_y output = g_y image
    ∧ ((g_x image, g_y image) ≠ (1%nat, 1%nat) → output = image)
    ∧ (∀ pixel,
         g_x image = 1%nat → g_y image = 1%nat →
         grid_at image 0 0 = Some pixel →
         grid_at output 0 0
         = Some (if is_non_wall WALL pixel then WALL else pixel)).
Proof.
  intros Hwf.
  destruct (ric_combined_mask WALL image Hwf)
    as (ml & mr & mu & md & m1 & m2 & m3 & mask & Hml & Hmr & Hmu & Hmd
        & Hm1 & Hm2 & Hm3 & Hmask & Hwm & Hxm & Hym & Hatm).
  unfold _remove_isolated_cells, np_where.
  rewrite Hml, Hmr, Hmu, Hmd. cbn [mbind result_mbind result_bind].
  rewrite Hm1. cbn [mbind result_mbind result_bind].
  rewrite Hm2. cbn [mbind result_mbind result_bind].
  rewrite Hm3. cbn [mbind result_mbind result_bind].
  rewrite Hmask. cbn [mbind result_mbind result_bind].
  pose proof (grid_map_spec (λ m : bool, (m, m, m)) mask Hwm) as [Hwc Hatc].
  match goal with |- context [np_broadcast2 ?f ?c image] =>
    destruct (np_broadcast2_spec f c image Hwc Hwf)
      as (output & Hout & Hwo & Hxo & Hyo & Hato)
  end; [left; by rewrite <- Hxm | left; by rewrite <- Hym |].
  cbn [grid_map g_x g_y] in Hxo, Hyo, Hato. unfold RGB in *.
  exists output. split; [exact Hout |]. split; [done |].
  split; [by rewrite Hxo, Hxm |]. split; [by rewrite Hyo, Hym |].
  assert (∀ i j pixel, (i < g_x image)%nat → (j < g_y image)%nat →
            grid_at image i j = Some pixel →
            grid_at output i j
            = Some (if is_non_wall WALL pixel
                       && (ric_edge (g_x image) (g_y image) ric_left i j
                           || is_wall WALL pixel)
                       && (ric_edge (g_x image) (g_y image) ric_right i j
                           || is_wall WALL pixel)
                       && (ric_edge (g_x image) (g_y image) ric_up i j
                           || is_wall WALL pixel)
                       && (ric_edge (g_x image) (g_y image) ric_down i j
                           || is_wall WALL pixel)
                    then WALL else pixel)) as Hpixel.
  { intros i j pixel Hi Hj Hp.
    rewrite Hato by (by rewrite ?Hxm, ?Hym).
    rewrite Hatc, Hatm, Hp by done. cbn [mbind option_bind fmap option_map].
    f_equal. destruct WALL as [[w1 w2] w3], pixel as [[p1 p2] p3].
    by case_match. }
  split.
  - intros Hshape.
    apply grid_ext; [done | done | by rewrite Hxo, Hxm | by rewrite Hyo, Hym |].
    intros i j Hi Hj. rewrite Hxo, Hxm in Hi. rewrite Hyo, Hym in Hj.
    destruct Hwf as [Hx Hy].
    destruct (lookup_lt_is_Some_2 (g_rows image) i) as [row Hrow]; [lia |].
    pose proof (Forall_lookup_1 _ _ _ _ Hy Hrow) as Hl. simpl in Hl.
    destruct (lookup_lt_is_Some_2 row j) as [pixel Hp]; [lia |].
    assert (grid_at image i j = Some pixel) as Hat
      by (unfold grid_at; rewrite Hrow; done).
    rewrite (Hpixel i j pixel Hi Hj Hat), Hat. f_equal.
    destruct (is_non_wall WALL pixel) eqn:Hnw; [| done].
    rewrite (is_non_wall_is_wall _ _ Hnw), !orb_false_r. cbn [ric_edge andb].
    assert (i ≠ 0 ∨ S i ≠ g_x image ∨ j ≠ 0 ∨ S j ≠ g_y image)%nat as Hedge.
    { destruct (decide (g_x image = 1%nat)), (decide (g_y image = 1%nat));
        [exfalso; apply Hshape; congruence | lia | lia | lia]. }
    repeat case_bool_decide; try done; lia.
  - intros pixel Hx1 Hy1 Hp.
    rewrite (Hpixel 0%nat 0%nat pixel) by (done || lia).
    cbn [ric_edge]. rewrite !bool_decide_eq_true_2 by lia.
    cbn [orb]. by rewrite !andb_true_r.
Qed.

Lemma _remove_isolated_cells_spec_witness :
  let image := {| g_x := 3; g_y := 3;
                  g_rows := [[(0, 0, 0); (0, 0, 0); (0, 0, 0)];
                             [(0, 0, 0); (255, 255, 255); (0, 0, 0)];
                             [(0, 0, 0); (0, 0, 0); (0, 0, 0)]] |} in
  grid_wf image
  ∧ (g_x image, g_y image) ≠ (1%nat, 1%nat)
  ∧ _remove_isolated_cells (0, 0, 0) image = Returns image.
Proof.
  intros image.
  assert (grid_wf image) as Hwf by (split; [done | by repeat constructor]).
  assert ((g_x image, g_y image) ≠ (1%nat, 1%nat)) as Hshape by done.
  split; [exact Hwf |]. split; [exact Hshape |].
  destruct (_remove_isolated_cells_spec (0, 0, 0) image Hwf)
    as (output & Hrun & _ & _ & _ & Hsame & _).
  rewrite Hrun. f_equal. exact (Hsame Hshape).
Defined.
